(** * Property-path accessors (AccessStep) and plan rendering: a shallow embedding

    The development follows two source files of the repository:

    - the accessor compiler and the [AccessStep] class ([access1], [access2],
      [constructDestructureFunction], [AccessStep.get/at/optimize/deduplicate],
      [access]);
    - the step registration pass of the Mermaid renderer ([planToMermaid],
      inner function [extractSteps]) and the text helpers of the renderer
      ([mermaidEscape], [squish], [color]).

    JavaScript values are modelled by the inductive type [value]; closures are
    represented by the variables they capture (one constructor per function
    expression of the source) and run by [call]; the module-level caches are
    fields of an explicit [state] that every operation threads through. *)

From Stdlib Require Import ZArith Bool Ascii Permutation.
From stdpp Require Import gmap strings list fin_maps pretty sorting.

Open Scope string_scope.
Open Scope list_scope.

Set Warnings "-register-all".

(** ** JavaScript values *)

(** Numbers: integer indices and the three non-finite numbers. Fractions do
    not occur as path segments of a plan and are left out, and so are the
    integers from [10^21] on in magnitude, which JavaScript prints in
    exponent form. *)
Inductive number :=
| Finite (z : Z)
| NaN
| Infinity
| NegInfinity.

(** A property key is a string or a symbol. *)
Inductive propkey :=
| KStr (s : string)
| KSym (id : nat).

(** JSON-like data, plus symbols. An object carries its identity [addr]
    (what [===] compares) and its own properties in insertion order; an array
    is an object whose keys are the decimal indices. *)
Inductive value :=
| VUndefined
| VNull
| VBool (b : bool)
| VNum (n : number)
| VStr (s : string)
| VSym (id : nat)
| VObj (addr : nat) (props : list (propkey * value)).

Inductive exn :=
| TypeError (msg : string)
| ReferenceError (name : string)
| InvalidPathItem (pathItem : value) (path : list value)
| Error (msg : string).

(** Result of running a piece of JavaScript: a value or a thrown exception. *)
Inductive outcome (A : Type) :=
| Ret (a : A)
| Throw (e : exn).
Arguments Ret {A} a.
Arguments Throw {A} e.

#[global] Instance outcome_ret : MRet outcome := @Ret.

#[global] Instance outcome_bind : MBind outcome := fun A B k m =>
  match m with
  | Ret a => k a
  | Throw e => Throw e
  end.

Definition throws {A} (m : outcome A) : Prop :=
  match m with Ret _ => False | Throw _ => True end.

#[global] Instance number_eq_dec : EqDecision number.
Proof. solve_decision. Defined.

#[global] Instance propkey_eq_dec : EqDecision propkey.
Proof. solve_decision. Defined.

(** [typeof v] *)
Definition typeof (v : value) : string :=
  match v with
  | VUndefined => "undefined"
  | VNull => "object"
  | VBool _ => "boolean"
  | VNum _ => "number"
  | VStr _ => "string"
  | VSym _ => "symbol"
  | VObj _ _ => "object"
  end.

(** [v == null] *)
Definition looseEqNull (v : value) : bool :=
  match v with
  | VUndefined | VNull => true
  | _ => false
  end.

(** [a === b]: primitives by value ([NaN] differs from itself), objects and
    symbols by identity. *)
Definition strictEq (a b : value) : bool :=
  match a, b with
  | VUndefined, VUndefined => true
  | VNull, VNull => true
  | VBool x, VBool y => Bool.eqb x y
  | VNum (Finite x), VNum (Finite y) => Z.eqb x y
  | VNum Infinity, VNum Infinity => true
  | VNum NegInfinity, VNum NegInfinity => true
  | VStr x, VStr y => String.eqb x y
  | VSym x, VSym y => Nat.eqb x y
  | VObj x _, VObj y _ => Nat.eqb x y
  | _, _ => false
  end.

(** [Number.isFinite(v)] *)
Definition isFinite (v : value) : bool :=
  match v with
  | VNum (Finite _) => true
  | _ => false
  end.

(** [a ?? b] *)
Definition coalesce (a b : value) : value :=
  if looseEqNull a then b else a.

(** [s.includes(sub)] *)
Fixpoint includes (s sub : string) : bool :=
  String.prefix sub s ||
  match s with
  | EmptyString => false
  | String _ rest => includes rest sub
  end.

(** [String(n)] for a number; an integer below [10^21] in magnitude is
    printed with all its digits. *)
Definition numberToString (n : number) : string :=
  match n with
  | Finite z => pretty z
  | NaN => "NaN"
  | Infinity => "Infinity"
  | NegInfinity => "-Infinity"
  end.

(** The property key that [obj[v]] uses for a primitive [v]. *)
Definition toPropertyKey (v : value) : propkey :=
  match v with
  | VUndefined => KStr "undefined"
  | VNull => KStr "null"
  | VBool true => KStr "true"
  | VBool false => KStr "false"
  | VNum n => KStr (numberToString n)
  | VStr s => KStr s
  | VSym id => KSym id
  | VObj _ _ => KStr "[object Object]"
  end.

(** Own-property lookup in insertion-ordered properties. *)
Fixpoint ownProperty (props : list (propkey * value)) (k : propkey) : option value :=
  match props with
  | [] => None
  | (k', v) :: rest => if decide (k' = k) then Some v else ownProperty rest k
  end.

(** ** Generated code

    The accessor compiler builds JavaScript source with the [te] template tag
    and has it evaluated. The fragments it uses are kept as syntax trees. *)

(** Expressions that occur in generated sources: identifiers, literals,
    the property read [obj[key]] and [l ?? r]. *)
Inductive expr :=
| Ident (name : string)
| Lit (v : value)
| Index (obj key : expr)
| Coalesce (l r : expr).

(** A fragment that is appended to an expression: [te.get(key)] or
    [te`[${te.identifier(name)}]`]. *)
Inductive postfix :=
| TeGet (key : value)
| TeIndex (name : string).

(** Modelled from the spec: [te.get] of [tamedevil] is not part of the
    sources. The generated source performs direct indexed access:
    [te.get(key)] appends the property read [.key] or [[key]] to the
    expression, so the accessor generated for the path [a.b.c] is
    [value.a.b.c]. The read is not an optional one ([?.]): through [null] or
    [undefined] it throws, as every property read does. *)
Definition applyPostfix (e : expr) (p : postfix) : expr :=
  match p with
  | TeGet key => Index e (Lit key)
  | TeIndex name => Index e (Ident name)
  end.

(** [value] followed by the joined fragments [parts]. *)
Definition valueWith (parts : list postfix) : expr :=
  fold_left applyPostfix parts (Ident "value").

(** ** Function values *)

(** A closure is the function expression it comes from together with the
    variables it captured. [Arrow] is the arrow function returned by a
    generated factory and [quicklyExtractValueAtPath] the generated accessor. *)
Inductive closure :=
| quicklyAccessKey1WithFallback (key1 fallback : value)
| quicklyAccessKey1 (key1 : value)
| quicklyAccessKey2WithFallback (key1 key2 fallback : value)
| quicklyAccessKey2 (key1 key2 : value)
| slowlyExtractValueAtPath (path : list value) (fallback : value)
| quicklyExtractValueAtPath (body : expr)
| Arrow (env : list (string * value)) (body : expr).

(** A function object: its code and the [expressionSymbol] property that the
    turbo tier attaches ([[expression, fallback]]). *)
Record fn := mkFn {
  code : closure;
  expressionDetail : option (list postfix * value)
}.

Definition plainFn (c : closure) : fn := mkFn c None.

(** A compiled factory [function (p0, ..., pk) { return (_meta, value) => body }]. *)
Record Factory := mkFactory {
  factoryParams : list string;
  factoryBody : expr
}.

(** Binding of parameters to arguments; a missing argument is [undefined]. *)
Fixpoint bindParams (params : list string) (args : list value) : list (string * value) :=
  match params with
  | [] => []
  | p :: ps =>
      match args with
      | [] => (p, VUndefined) :: bindParams ps []
      | a :: rest => (p, a) :: bindParams ps rest
      end
  end.

(** [factory(...path)] *)
Definition callFactory (factory : Factory) (path : list value) : closure :=
  Arrow (bindParams (factoryParams factory) path) (factoryBody factory).

(** [access1(key1, fallback)] *)
Definition access1 (key1 fallback : value) : closure :=
  if negb (strictEq fallback VUndefined)
  then quicklyAccessKey1WithFallback key1 fallback
  else quicklyAccessKey1 key1.

(** [access2(key1, key2, fallback)] *)
Definition access2 (key1 key2 fallback : value) : closure :=
  if negb (strictEq fallback VUndefined)
  then quicklyAccessKey2WithFallback key1 key2 fallback
  else quicklyAccessKey2 key1 key2.

(** [String(v)] as [Array.prototype.join] applies it to an element: nullish
    elements give the empty string, a symbol throws. *)
Definition joinElement (v : value) : outcome string :=
  match v with
  | VUndefined | VNull => Ret EmptyString
  | VBool true => Ret "true"
  | VBool false => Ret "false"
  | VNum n => Ret (numberToString n)
  | VStr s => Ret s
  | VSym _ => Throw (TypeError "Cannot convert a Symbol value to a string")
  | VObj _ _ => Ret "[object Object]"
  end.

(** [path.join(sep)] *)
Fixpoint join (sep : string) (path : list value) : outcome string :=
  match path with
  | [] => Ret EmptyString
  | [v] => joinElement v
  | v :: rest =>
      s ← joinElement v;
      r ← join sep rest;
      Ret (s +:+ sep +:+ r)
  end.

(** ** Module state of the accessor compiler *)

(** Modelled from the spec: the [LRU] class of [@graphile/lru] is not part of
    the sources; the turbo cache is a cache of fixed capacity with
    least-recently-used eviction. Entries are kept most recently used first;
    [get] hoists the entry it finds, [set] puts the entry in front and drops
    what exceeds the capacity. *)
Definition maxLength : nat := 1000.

Definition lruFind (k : string) (c : list (string * fn)) : option fn :=
  snd <$> find (fun kv => String.eqb (fst kv) k) c.

Definition lruRemove (k : string) (c : list (string * fn)) : list (string * fn) :=
  List.filter (fun kv => negb (String.eqb (fst kv) k)) c.

Definition lruGet (k : string) (c : list (string * fn)) : option fn * list (string * fn) :=
  match lruFind k c with
  | Some v => (Some v, (k, v) :: lruRemove k c)
  | None => (None, c)
  end.

Definition lruSet (k : string) (v : fn) (c : list (string * fn)) : list (string * fn) :=
  take maxLength ((k, v) :: lruRemove k c).

(** Modelled from the spec: [te.runInBatch(source, callback)] of [tamedevil] is
    not part of the sources; a compilation is requested when it is called and
    its callback runs when the compilation completes. A job is a requested
    compilation: the generated source and the variables its callback
    captured. The source is
    [function (params) { return (_meta, value) => body; }] for a factory and
    [(function quicklyExtractValueAtPath(extra, value) { return body; })] for
    an accessor. *)
Inductive job :=
| FactoryJob (params : list string) (body : expr)
             (signature : string) (callbacks : nat)
| AccessorJob (body : expr) (detail : list postfix * value)
              (signature : string) (callbacks : nat).

(** The caller's [callback] is identified by a number; calling it is recorded
    in [called] (the callbacks of this module only store the function they
    receive, they do not call back into the compiler). The arrays of pending
    callbacks are objects shared between a [making...] map and the completion
    callback of the compilation, so they live in a store and are referred to
    by address. A pending entry of the middle tier is the arrow function
    [(fn) => callback(fn(...path))], kept as the [callback] and [path] it
    captured. [requested] counts the calls of [te.runInBatch]. *)
Record state := mkState {
  makeDestructureHyperCache : list (string * fn);
  makingDestructureHyperCache : gmap string nat;
  makeDestructureCache : gmap string Factory;
  makingDestructureCache : gmap string nat;
  hyperCallbacks : gmap nat (list nat);
  factoryCallbacks : gmap nat (list (nat * list value));
  nextArray : nat;
  batch : list job;
  requested : nat;
  called : list (nat * fn)
}.

Definition initialState : state :=
  mkState [] ∅ ∅ ∅ ∅ ∅ 0 [] 0 [].

(** [callback(f)] *)
Definition invoke (callback : nat) (f : fn) (st : state) : state :=
  mkState (makeDestructureHyperCache st) (makingDestructureHyperCache st)
          (makeDestructureCache st) (makingDestructureCache st)
          (hyperCallbacks st) (factoryCallbacks st) (nextArray st)
          (batch st) (requested st) (called st ++ [(callback, f)]).

(** [te.runInBatch(src, ...)] *)
Definition runInBatch (j : job) (st : state) : state :=
  mkState (makeDestructureHyperCache st) (makingDestructureHyperCache st)
          (makeDestructureCache st) (makingDestructureCache st)
          (hyperCallbacks st) (factoryCallbacks st) (nextArray st)
          (batch st ++ [j]) (S (requested st)) (called st).

(** Tier of an accessor: [0 - slow mode; 1 - middle mode; 2 - turbo mode]. *)
Inductive tier :=
| SlowMode
| MiddleMode
| TurboMode.

#[global] Instance tier_eq_dec : EqDecision tier.
Proof. solve_decision. Defined.

(** Body of the validation loop for one [pathItem]. *)
Definition checkPathItem (path : list value) (mode : tier) (pathItem : value)
  : outcome tier :=
  let t := typeof pathItem in
  if String.eqb t "symbol" then
    Ret (if decide (mode = TurboMode) then MiddleMode else mode)
  else if String.eqb t "string" then
    Ret (if includes t "|" && bool_decide (mode = TurboMode) then MiddleMode else mode)
  else if String.eqb t "number" then
    Ret (if negb (isFinite pathItem) then SlowMode else mode)
  else if looseEqNull pathItem then
    Ret SlowMode
  else
    Throw (InvalidPathItem pathItem path).

(** The loop [for (let i = 0; i < n; i++)] over the items from [i] on. *)
Fixpoint checkPathItems (path items : list value) (mode : tier) : outcome tier :=
  match items with
  | [] => Ret mode
  | pathItem :: rest =>
      mode' ← checkPathItem path mode pathItem;
      checkPathItems path rest mode'
  end.

(** [n > 50 ? 0 : n > 5 ? 1 : 2] *)
Definition modeByLength (n : nat) : tier :=
  if (50 <? n)%nat then SlowMode
  else if (5 <? n)%nat then MiddleMode else TurboMode.

(** The tier chosen for [path]: the initial choice by length, then the loop. *)
Definition selectMode (path : list value) : outcome tier :=
  checkPathItems path path (modeByLength (length path)).

(** Source generated for the middle tier; it depends on [n] only. *)
Definition paramNames (n : nat) : list string :=
  (fun i => "p" +:+ pretty i) <$> seq 0 n.

Definition middleBody (n : nat) : expr :=
  valueWith (TeIndex <$> paramNames n).

(** Source generated for the turbo tier, for paths of length other than 1, 2. *)
Definition accessorBody (expression : list postfix) (fallback : value) : expr :=
  if negb (strictEq fallback VUndefined)
  then Coalesce (valueWith expression) (Lit fallback)
  else valueWith expression.

(** ** [constructDestructureFunction] *)

(** [makingDestructureCache[signature].push(entry)] *)
Definition pushFactoryCallback (callbacks : nat) (entry : nat * list value)
    (st : state) : state :=
  mkState (makeDestructureHyperCache st) (makingDestructureHyperCache st)
          (makeDestructureCache st) (makingDestructureCache st)
          (hyperCallbacks st)
          (alter (fun l => l ++ [entry]) callbacks (factoryCallbacks st))
          (nextArray st) (batch st) (requested st) (called st).

(** [const callbacks = [entry]; makingDestructureCache[signature] = callbacks] *)
Definition startMaking (signature : string) (entry : nat * list value)
    (st : state) : state :=
  mkState (makeDestructureHyperCache st) (makingDestructureHyperCache st)
          (makeDestructureCache st)
          (<[signature := nextArray st]> (makingDestructureCache st))
          (hyperCallbacks st)
          (<[nextArray st := [entry]]> (factoryCallbacks st))
          (S (nextArray st)) (batch st) (requested st) (called st).

(** [making.push(callback)] *)
Definition pushHyperCallback (making : nat) (callback : nat) (st : state) : state :=
  mkState (makeDestructureHyperCache st) (makingDestructureHyperCache st)
          (makeDestructureCache st) (makingDestructureCache st)
          (alter (fun l => l ++ [callback]) making (hyperCallbacks st))
          (factoryCallbacks st)
          (nextArray st) (batch st) (requested st) (called st).

(** [const callbacks = [callback];
     makingDestructureHyperCache.set(signature, callbacks)] *)
Definition startMakingHyper (signature : string) (callback : nat)
    (st : state) : state :=
  mkState (makeDestructureHyperCache st)
          (<[signature := nextArray st]> (makingDestructureHyperCache st))
          (makeDestructureCache st) (makingDestructureCache st)
          (<[nextArray st := [callback]]> (hyperCallbacks st))
          (factoryCallbacks st)
          (S (nextArray st)) (batch st) (requested st) (called st).

Definition setHyperCache (c : list (string * fn)) (st : state) : state :=
  mkState c (makingDestructureHyperCache st)
          (makeDestructureCache st) (makingDestructureCache st)
          (hyperCallbacks st) (factoryCallbacks st)
          (nextArray st) (batch st) (requested st) (called st).

Definition setBatch (b : list job) (st : state) : state :=
  mkState (makeDestructureHyperCache st) (makingDestructureHyperCache st)
          (makeDestructureCache st) (makingDestructureCache st)
          (hyperCallbacks st) (factoryCallbacks st)
          (nextArray st) b (requested st) (called st).

(** The turbo tier's [done]: cache the function, forget the compilation in
    progress, call every callback of the [callbacks] array. *)
Definition done (signature : string) (callbacks : nat) (f : fn) (st : state)
  : state :=
  let st1 :=
    mkState (lruSet signature f (makeDestructureHyperCache st))
            (delete signature (makingDestructureHyperCache st))
            (makeDestructureCache st) (makingDestructureCache st)
            (hyperCallbacks st) (factoryCallbacks st)
            (nextArray st) (batch st) (requested st) (called st) in
  foldl (fun s callback => invoke callback f s) st1
        (default [] (hyperCallbacks st !! callbacks)).

(** The completion callback of the middle tier's compilation. *)
Definition factoryDone (signature : string) (callbacks : nat) (factory : Factory)
    (st : state) : state :=
  let st1 :=
    mkState (makeDestructureHyperCache st) (makingDestructureHyperCache st)
            (<[signature := factory]> (makeDestructureCache st))
            (delete signature (makingDestructureCache st))
            (hyperCallbacks st) (factoryCallbacks st)
            (nextArray st) (batch st) (requested st) (called st) in
  foldl (fun s entry => invoke (fst entry) (plainFn (callFactory factory (snd entry))) s)
        st1 (default [] (factoryCallbacks st !! callbacks)).

(** The middle tier's [(fallback !== undefined ? "f" : "n") + n]. *)
Definition middleSignature (fallback : value) (n : nat) : string :=
  (if negb (strictEq fallback VUndefined) then "f" else "n") +:+ pretty n.

Definition constructDestructureFunction
    (path : list value) (fallback : value) (callback : nat) (st : state)
  : outcome state :=
  let n := length path in
  mode ← selectMode path;
  match mode with
  | SlowMode =>
      Ret (invoke callback (plainFn (slowlyExtractValueAtPath path fallback)) st)
  | MiddleMode =>
      let signature := middleSignature fallback n in
      match makeDestructureCache st !! signature with
      | Some factory => Ret (invoke callback (plainFn (callFactory factory path)) st)
      | None =>
          match makingDestructureCache st !! signature with
          | Some callbacks => Ret (pushFactoryCallback callbacks (callback, path) st)
          | None =>
              let callbacks := nextArray st in
              Ret (runInBatch
                     (FactoryJob (paramNames n) (middleBody n) signature callbacks)
                     (startMaking signature (callback, path) st))
          end
      end
  | TurboMode =>
      signature ← join "|" path;
      let hit := lruGet signature (makeDestructureHyperCache st) in
      let st := setHyperCache (snd hit) st in
      match fst hit with
      | Some f => Ret (invoke callback f st)
      | None =>
          match makingDestructureHyperCache st !! signature with
          | Some making => Ret (pushHyperCallback making callback st)
          | None =>
              let callbacks := nextArray st in
              let st := startMakingHyper signature callback st in
              let expression := TeGet <$> path in
              let expressionDetail := (expression, fallback) in
              match path with
              | [key1] =>
                  Ret (done signature callbacks
                         (mkFn (access1 key1 fallback) (Some expressionDetail)) st)
              | [key1; key2] =>
                  Ret (done signature callbacks
                         (mkFn (access2 key1 key2 fallback) (Some expressionDetail)) st)
              | _ =>
                  Ret (runInBatch
                         (AccessorJob (accessorBody expression fallback)
                                      expressionDetail signature callbacks) st)
              end
          end
      end
  end.

(** Completion of a requested compilation: the source is evaluated and the
    callback given to [te.runInBatch] is called with the result. *)
Definition runJob (j : job) (st : state) : state :=
  match j with
  | FactoryJob params body signature callbacks =>
      factoryDone signature callbacks (mkFactory params body) st
  | AccessorJob body detail signature callbacks =>
      done signature callbacks (mkFn (quicklyExtractValueAtPath body) (Some detail)) st
  end.

(** The [i]-th pending compilation completes. *)
Definition completeJob (i : nat) (st : state) : state :=
  match batch st !! i with
  | Some j => runJob j (setBatch (delete i (batch st)) st)
  | None => st
  end.

(** All pending compilations complete, oldest first. *)
Definition flush (st : state) : state :=
  foldl (fun s j => runJob j s) (setBatch [] st) (batch st).

(** ** [JSON.stringify] of a path *)

Definition dquote : ascii := ascii_of_nat 34.
Definition backslash : ascii := ascii_of_nat 92.

Definition hexDigit (n : nat) : ascii :=
  ascii_of_nat (if (n <? 10)%nat then 48 + n else 87 + n).

(** One code unit of a JSON string literal. *)
Definition quoteChar (c : ascii) : string :=
  let n := nat_of_ascii c in
  if decide (c = dquote) then String backslash (String dquote EmptyString)
  else if decide (c = backslash) then String backslash (String backslash EmptyString)
  else if decide (n = 8) then String backslash "b"
  else if decide (n = 9) then String backslash "t"
  else if decide (n = 10) then String backslash "n"
  else if decide (n = 12) then String backslash "f"
  else if decide (n = 13) then String backslash "r"
  else if (n <? 32)%nat then
    String backslash
      ("u00" +:+ String (hexDigit (n / 16)) (String (hexDigit (n mod 16)) EmptyString))
  else String c EmptyString.

Fixpoint quoteChars (s : string) : string :=
  match s with
  | EmptyString => String dquote EmptyString
  | String c rest => quoteChar c +:+ quoteChars rest
  end.

(** [JSON.stringify(s)] for a string: the escaped code units between quotes. *)
Definition quoteJSONString (s : string) : string :=
  String dquote (quoteChars s).

Fixpoint joinStrings (sep : string) (l : list string) : string :=
  match l with
  | [] => EmptyString
  | [s] => s
  | s :: rest => s +:+ sep +:+ joinStrings sep rest
  end.

(** [JSON.stringify(v)]; [None] is [undefined] (the value is left out of an
    object and written [null] in an array). Symbol keys are skipped. *)
Fixpoint jsonValue (v : value) : option string :=
  match v with
  | VUndefined | VSym _ => None
  | VNull => Some "null"
  | VBool true => Some "true"
  | VBool false => Some "false"
  | VNum (Finite z) => Some (pretty z)
  | VNum _ => Some "null"
  | VStr s => Some (quoteJSONString s)
  | VObj _ props =>
      let members :=
        (fix go (ps : list (propkey * value)) : list string :=
           match ps with
           | [] => []
           | (KStr k, v') :: rest =>
               match jsonValue v' with
               | Some s => (quoteJSONString k +:+ ":" +:+ s) :: go rest
               | None => go rest
               end
           | (KSym _, _) :: rest => go rest
           end) props in
      Some ("{" +:+ joinStrings "," members +:+ "}")
  end.

(** An element of an array: what [JSON.stringify] leaves out is written
    [null]. *)
Definition jsonElement (v : value) : string := default "null" (jsonValue v).

(** [JSON.stringify(path)] for the array [path]. *)
Definition jsonStringify (path : list value) : string :=
  "[" +:+ joinStrings "," (jsonElement <$> path) +:+ "]".

(** ** Steps *)

(** Modelled from the spec: the base class of steps ([ExecutableStep] in
    [step.js]) is not part of the sources. A step has an identity (a
    monotonic id given at construction) and an ordered list of dependencies;
    [addDependency] appends to it and [getDep(0)] is the first one. An
    [AccessStep] has exactly one dependency, [dep]. *)
Inductive step :=
| ExecutableStep (id : nat)
| AccessStep (id : nat) (dep : step) (path : list value) (fallback : value).

Definition stepId (s : step) : nat :=
  match s with
  | ExecutableStep id => id
  | AccessStep id _ _ _ => id
  end.

(** [new AccessStep(parentPlan, path, fallback)]; [nextId] is the id counter
    of the operation plan. *)
Definition newAccessStep (parentPlan : step) (path : list value) (fallback : value)
    (nextId : nat) : step * nat :=
  (AccessStep nextId parentPlan path fallback, S nextId).

(** The [path] argument of [access]: an array or a single key. *)
Inductive pathArg :=
| PathArray (path : list value)
| PathKey (key : value).

(** [access(parentPlan, path, fallback)] *)
Definition access (parentPlan : step) (path : pathArg) (fallback : value)
    (nextId : nat) : step * nat :=
  newAccessStep parentPlan
    (match path with PathArray p => p | PathKey k => [k] end) fallback nextId.

Definition notAnAccessStep {A} : outcome A :=
  Throw (TypeError "not a method of this step").

(** [this.get(attrName)] *)
Definition get (this : step) (attrName : value) (nextId : nat)
  : outcome (step * nat) :=
  match this with
  | AccessStep _ dep path _ =>
      if negb (String.eqb (typeof attrName) "string") then
        Throw (Error "AccessStep::get can only be called with string values")
      else Ret (newAccessStep dep (path ++ [attrName]) VUndefined nextId)
  | ExecutableStep _ => notAnAccessStep
  end.

(** [this.at(index)] *)
Definition at_ (this : step) (index : value) (nextId : nat)
  : outcome (step * nat) :=
  match this with
  | AccessStep _ dep path _ =>
      if negb (String.eqb (typeof index) "number") then
        Throw (Error "AccessStep::get can only be called with string values")
      else Ret (newAccessStep dep (path ++ [index]) VUndefined nextId)
  | ExecutableStep _ => notAnAccessStep
  end.

(** [this.optimize()]. The callback given to [constructDestructureFunction]
    stores the function in [this.unbatchedExecute]; it is identified by the id
    of [this]. The state is the id counter of the plan and the compiler's. *)
Definition optimize (this : step) (w : nat * state) : outcome (step * (nat * state)) :=
  match this with
  | AccessStep id dep path fallback =>
      let compile :=
        st ← constructDestructureFunction path fallback id (snd w);
        Ret (this, (fst w, st)) in
      match dep with
      | AccessStep _ dep' path' fallback' =>
          if strictEq fallback' VUndefined then
            let r := access dep' (PathArray (path' ++ path)) fallback (fst w) in
            Ret (fst r, (snd r, snd w))
          else compile
      | ExecutableStep _ => compile
      end
  | ExecutableStep _ => notAnAccessStep
  end.

(** The function currently stored in [unbatchedExecute] of the step [id]:
    the last one its callback received, if any. *)
Definition unbatchedExecuteOf (st : state) (id : nat) : option fn :=
  snd <$> last (List.filter (fun c => Nat.eqb (fst c) id) (called st)).

(** [this.deduplicate(peers)]: a peer that is not an [AccessStep] has neither
    [path] nor [fallback] and never passes the filter. *)
Definition deduplicate (this : step) (peers : list step) : outcome (list step) :=
  match this with
  | AccessStep _ _ path fallback =>
      let myPath := jsonStringify path in
      Ret (List.filter
             (fun p =>
                match p with
                | AccessStep _ _ ppath pfallback =>
                    strictEq pfallback fallback
                    && String.eqb (jsonStringify ppath) myPath
                | ExecutableStep _ => false
                end) peers)
  | ExecutableStep _ => notAnAccessStep
  end.

(** ** Step registration of [planToMermaid] *)

(** Modelled from the spec: the plan JSON types ([GrafastPlanJSONv1],
    [GrafastPlanBucketJSONv1], [GrafastPlanStepJSONv1] of [interfaces]) are not
    part of the sources; ids are the numeric ids of steps and buckets. Only
    the fields that [extractSteps] reads are kept. *)
Record stepJSON := mkStepJSON {
  sj_id : N;
  sj_stepClass : string;
  sj_metaString : string;
  sj_dependencyIds : list N
}.

Inductive bucketJSON :=
| BucketJSON (id : N) (steps : list stepJSON) (children : list bucketJSON).

Definition bucketSteps (b : bucketJSON) : list stepJSON :=
  match b with BucketJSON _ steps _ => steps end.

Record planJSON := mkPlanJSON {
  version : string;
  rootBucket : bucketJSON
}.

(** The objects and the array that [extractSteps] fills. *)
Record registry := mkRegistry {
  stepById : gmap N stepJSON;
  layerPlanById : gmap N bucketJSON;
  dependentsByStepId : gmap N (list stepJSON);
  sortedSteps : list stepJSON
}.

Definition emptyRegistry : registry := mkRegistry ∅ ∅ ∅ [].

(** [Array.prototype.sort] is stable; with the comparator
    [(a, z) => z.dependencyIds.length - a.dependencyIds.length] a step comes
    before another when it has more dependencies, and before a later step with
    as many. *)
Fixpoint insertSorted (a : stepJSON) (l : list stepJSON) : list stepJSON :=
  match l with
  | [] => [a]
  | z :: rest =>
      if (length (sj_dependencyIds z) <=? length (sj_dependencyIds a))%nat
      then a :: z :: rest
      else z :: insertSorted a rest
  end.

Definition sortSteps (steps : list stepJSON) : list stepJSON :=
  foldr insertSorted [] steps.

(** The loop [for (const depId of step.dependencyIds)]. *)
Definition addDependents (step : stepJSON) (deps : gmap N (list stepJSON))
  : gmap N (list stepJSON) :=
  foldl (fun m depId =>
           match m !! depId with
           | None => <[depId := [step]]> m
           | Some l => <[depId := l ++ [step]]> m
           end) deps (sj_dependencyIds step).

(** The loop [for (const step of sorted)]. *)
Fixpoint registerSteps (sorted : list stepJSON) (r : registry) : outcome registry :=
  match sorted with
  | [] => Ret r
  | step :: rest =>
      match stepById r !! sj_id step with
      | Some _ =>
          Throw (Error ("Step " +:+ pretty (sj_id step) +:+ " ("
                        +:+ sj_stepClass step +:+ "/" +:+ sj_metaString step
                        +:+ ") duplicated in plan?!"))
      | None =>
          registerSteps rest
            (mkRegistry (<[sj_id step := step]> (stepById r))
                        (layerPlanById r)
                        (addDependents step (dependentsByStepId r))
                        (sortedSteps r ++ [step]))
      end
  end.

Fixpoint extractSteps (bucket : bucketJSON) (r : registry) : outcome registry :=
  match bucket with
  | BucketJSON id steps children =>
      let r1 := mkRegistry (stepById r) (<[id := bucket]> (layerPlanById r))
                           (dependentsByStepId r) (sortedSteps r) in
      r2 ← registerSteps (sortSteps steps) r1;
      (fix forChildren (cs : list bucketJSON) (r : registry) : outcome registry :=
         match cs with
         | [] => Ret r
         | child :: rest => r' ← extractSteps child r; forChildren rest r'
         end) children r2
  end.

(** The loop [for (const child of bucket.children)], by itself. *)
Definition extractChildren : list bucketJSON -> registry -> outcome registry :=
  fix forChildren (cs : list bucketJSON) (r : registry) : outcome registry :=
    match cs with
    | [] => Ret r
    | child :: rest => r' ← extractSteps child r; forChildren rest r'
    end.

(** [planToMermaid] up to and including [extractSteps(planJSON.rootBucket)];
    the rest of the function renders the registered steps to text and is not
    modelled. An exception thrown here is thrown by [planToMermaid]. *)
Definition planToMermaid (plan : planJSON) : outcome registry :=
  if negb (String.eqb (version plan) "v1") then
    Throw (Error "planToMermaid only supports v1 plan JSON")
  else extractSteps (rootBucket plan) emptyRegistry.

(** The buckets of a tree, parents first, and the steps of all of them. *)
Fixpoint buckets (b : bucketJSON) : list bucketJSON :=
  match b with
  | BucketJSON _ _ children => b :: flat_map buckets children
  end.

Definition allSteps (b : bucketJSON) : list stepJSON :=
  flat_map bucketSteps (buckets b).

(** ** Text helpers of the Mermaid renderer *)

Definition COLORS : list string :=
  ["#696969"; "#00bfff"; "#7f007f"; "#ffa500"; "#0000ff"; "#7fff00"; "#ff1493";
   "#808000"; "#dda0dd"; "#ff0000"; "#ffff00"; "#00ffff"; "#4169e1"; "#3cb371";
   "#a52a2a"; "#ff00ff"; "#f5deb3"].

(** [color(i)] for a bucket id [i]; an index out of range would give
    [undefined], here [None]. *)
Definition color (i : N) : option string :=
  COLORS !! N.to_nat (i mod N.of_nat (length COLORS)).

(** [str.slice(0, n)] and [str.slice(n)] for [n >= 0]. *)
Fixpoint sliceTo (n : nat) (str : string) : string :=
  match n with
  | 0 => EmptyString
  | S n' =>
      match str with
      | String c rest => String c (sliceTo n' rest)
      | EmptyString => EmptyString
      end
  end.

Fixpoint sliceFrom (n : nat) (str : string) : string :=
  match n with
  | 0 => str
  | S n' =>
      match str with
      | String _ rest => sliceFrom n' rest
      | EmptyString => EmptyString
      end
  end.

(** [squish(str, start, end)]; the renderer calls it with the defaults
    [start = 8] and [end = 8]. *)
Definition squish (str : string) (start end_ : nat) : string :=
  if (start + end_ + 4 <? String.length str)%nat
  then sliceTo start str +:+ "..." +:+ sliceFrom (String.length str - end_) str
  else str.

(** [mermaidEscape] replaces characters by look-alikes outside Latin-1, so
    its strings are kept as lists of UTF-16 code units. *)
Definition codeUnits := list N.

(** [/^[a-z0-9 ]+$/i]: one or more ASCII letters, digits or spaces. *)
Definition isSafeChar (c : N) : bool :=
  ((97 <=? c) && (c <=? 122) || (65 <=? c) && (c <=? 90)
   || (48 <=? c) && (c <=? 57) || (c =? 32))%N.

Definition matchesSafe (str : codeUnits) : bool :=
  match str with
  | [] => false
  | _ => forallb isSafeChar str
  end.

(** White space and line terminators, which [trim] removes at both ends. *)
Definition isWhiteSpace (c : N) : bool :=
  ((9 <=? c) && (c <=? 13) || (c =? 32) || (c =? 160) || (c =? 5760)
   || (8192 <=? c) && (c <=? 8202) || (c =? 8232) || (c =? 8233)
   || (c =? 8239) || (c =? 8287) || (c =? 12288) || (c =? 65279))%N.

Fixpoint trimStart (str : codeUnits) : codeUnits :=
  match str with
  | c :: rest => if isWhiteSpace c then trimStart rest else str
  | [] => []
  end.

Definition trim (str : codeUnits) : codeUnits :=
  rev (trimStart (rev (trimStart str))).

(** The replacement function of the first [replace], whose pattern matches
    the number sign, the double quote and the two angle brackets; applied to
    every code unit. *)
Definition lookalike (c : N) : N :=
  if (c =? 35)%N then 42395
  else if (c =? 34)%N then 8221
  else if (c =? 60)%N then 5176
  else if (c =? 62)%N then 5171
  else c.

(** [<br />] *)
Definition br : codeUnits := [60; 98; 114; 32; 47; 62]%N.

(** The second [replace]: every line feed, with the carriage return before
    it if there is one, becomes [br]. *)
Fixpoint lineBreaks (str : codeUnits) : codeUnits :=
  match str with
  | [] => []
  | c :: rest =>
      if (c =? 10)%N then br ++ lineBreaks rest
      else if (c =? 13)%N then
        match rest with
        | c' :: rest' =>
            if (c' =? 10)%N then br ++ lineBreaks rest' else c :: lineBreaks rest
        | [] => [c]
        end
      else c :: lineBreaks rest
  end.

Section MermaidEscape.

(** Modelled from its use: [stripAnsi] of [stripAnsi.js] is not part of the
    sources; it maps a string to a string. *)
Variable stripAnsi : codeUnits -> codeUnits.

Definition mermaidEscape (str : codeUnits) : codeUnits :=
  if matchesSafe str then str
  else [34%N] ++ lineBreaks (lookalike <$> stripAnsi (trim str)) ++ [34%N].

End MermaidEscape.

(** [stepClass.replace(/Step$/, ...)] with the empty string as replacement:
    a final [Step] is removed. *)
Definition withoutStepSuffix (stepClass : string) : string :=
  if String.eqb (sliceFrom (String.length stepClass - 4) stepClass) "Step"
  then sliceTo (String.length stepClass - 4) stepClass
  else stepClass.

(** [shortStep(step)] of [startSteps]. *)
Definition shortStep (step : stepJSON) : string :=
  withoutStepSuffix (sj_stepClass step) +:+ "[" +:+ pretty (sj_id step) +:+ "]".

(** [shortSteps(steps)] of [startSteps], for steps found in [stepById];
    [None] is [undefined]. *)
Definition shortSteps (steps : option (list stepJSON)) : string :=
  match steps with
  | None => EmptyString
  | Some steps =>
      let str := joinStrings ", " (shortStep <$> steps) in
      if (String.length str <? 40)%nat then str
      else joinStrings ", " ((fun s => pretty (sj_id s)) <$> steps)
  end.

(** ** Running accessors *)

Section Semantics.

(** What reading a property gives when the value has no own property of
    that key: the lookup in the prototype chain of an object, or in the
    wrapper prototype of a primitive. The data is JSON-like: there are no
    accessor properties, so a read returns a value and changes nothing. *)
Variable inherited : value -> propkey -> value.

Definition getProperty (v : value) (k : propkey) : value :=
  match v with
  | VObj _ props => default (inherited v k) (ownProperty props k)
  | _ => inherited v k
  end.

(** [obj[key]] *)
Definition member (obj key : value) : outcome value :=
  if looseEqNull obj
  then Throw (TypeError "Cannot read properties of null or undefined")
  else Ret (getProperty obj (toPropertyKey key)).

(** [obj?.[key]] *)
Definition optionalMember (obj key : value) : outcome value :=
  if looseEqNull obj then Ret VUndefined else member obj key.

(** Evaluation of a generated expression; the innermost binding of a name
    comes first in [env]. *)
Fixpoint eval (env : list (string * value)) (e : expr) : outcome value :=
  match e with
  | Ident name =>
      match find (fun b => String.eqb (fst b) name) env with
      | Some b => Ret (snd b)
      | None => Throw (ReferenceError name)
      end
  | Lit v => Ret v
  | Index obj key =>
      o ← eval env obj;
      k ← eval env key;
      member o k
  | Coalesce l r =>
      a ← eval env l;
      if looseEqNull a then eval env r else Ret a
  end.

(** The loop of [slowlyExtractValueAtPath] over the items from [i] on. *)
Fixpoint slowLoop (items : list value) (current : value) : outcome value :=
  match items with
  | [] => Ret current
  | pathItem :: rest =>
      if looseEqNull current then Ret current
      else
        next ← member current pathItem;
        slowLoop rest next
  end.

(** The pure reading of [value[k1][k2]...] along [keys]: every read throws
    on a nullish object. *)
Fixpoint strictWalk (keys : list value) (current : value) : outcome value :=
  match keys with
  | [] => Ret current
  | key :: rest => next ← member current key; strictWalk rest next
  end.

(** [c(extra, value)] *)
Definition call (c : closure) (extra val : value) : outcome value :=
  match c with
  | quicklyAccessKey1WithFallback key1 fallback =>
      a ← optionalMember val key1;
      Ret (coalesce a fallback)
  | quicklyAccessKey1 key1 =>
      optionalMember val key1
  | quicklyAccessKey2WithFallback key1 key2 fallback =>
      a ← optionalMember val key1;
      b ← optionalMember a key2;
      Ret (coalesce b fallback)
  | quicklyAccessKey2 key1 key2 =>
      a ← optionalMember val key1;
      optionalMember a key2
  | slowlyExtractValueAtPath path fallback =>
      current ← slowLoop path val;
      Ret (coalesce current fallback)
  | quicklyExtractValueAtPath body =>
      eval [("extra", extra); ("value", val)] body
  | Arrow env body =>
      eval (("_meta", extra) :: ("value", val) :: env) body
  end.

(** The pure reading of [value?.[k1]?.[k2]...] along [path]. *)
Definition chain (path : list value) (v : value) : value :=
  fold_left
    (fun current key =>
       if looseEqNull current then VUndefined
       else getProperty current (toPropertyKey key))
    path v.

(** [this.unbatchedExecute(extra, value)] in state [st]: the function that
    [optimize] had stored, or the method of the class, which throws. *)
Definition unbatchedExecute (st : state) (this : step) (extra val : value)
  : outcome value :=
  match unbatchedExecuteOf st (stepId this) with
  | Some f => call (code f) extra val
  | None => Throw (Error "should have had unbatchedExecute method replaced")
  end.

End Semantics.

(** Objects without prototype and primitives without properties: every read
    of a key that is not an own property gives [undefined]. *)
Definition noPrototype (v : value) (k : propkey) : value := VUndefined.

(** ** Notions used in the statements *)

(** A string, a finite number or a symbol. *)
Definition isSegment (v : value) : bool :=
  match v with
  | VStr _ | VNum (Finite _) | VSym _ => true
  | _ => false
  end.

(** A segment that the validation loop answers with slow mode: [null] in the
    sense of the loop's test [pathItem == null], or a non-finite number. *)
Definition forcesSlow (v : value) : bool :=
  match v with
  | VUndefined | VNull => true
  | VNum (Finite _) => false
  | VNum _ => true
  | _ => false
  end.

Definition isSymbol (v : value) : bool :=
  match v with VSym _ => true | _ => false end.

(** A string or a finite number. *)
Definition isPlain (v : value) : bool :=
  match v with
  | VStr _ | VNum (Finite _) => true
  | _ => false
  end.

(** The tier that the loop ends with on acceptable items. *)
Definition finalMode (mode : tier) (items : list value) : tier :=
  if existsb forcesSlow items then SlowMode
  else if existsb isSymbol items
       then (if decide (mode = TurboMode) then MiddleMode else mode)
       else mode.

(** The function that the turbo tier builds for [path] when it is not served
    from the cache. *)
Definition turboAccessor (path : list value) (fallback : value) : closure :=
  match path with
  | [key1] => access1 key1 fallback
  | [key1; key2] => access2 key1 key2 fallback
  | _ => quicklyExtractValueAtPath (accessorBody (TeGet <$> path) fallback)
  end.

(** The factory that the middle tier compiles for paths of length [n]. *)
Definition middleFactory (n : nat) : Factory :=
  mkFactory (paramNames n) (middleBody n).

(** The function object that each tier builds for [path] and [fallback] when
    nothing is cached. *)
Definition builtFor (m : tier) (path : list value) (fallback : value) : fn :=
  match m with
  | SlowMode => plainFn (slowlyExtractValueAtPath path fallback)
  | MiddleMode => plainFn (callFactory (middleFactory (length path)) path)
  | TurboMode => mkFn (turboAccessor path fallback) (Some (TeGet <$> path, fallback))
  end.

(** The function that [constructDestructureFunction] hands to its callback
    when it starts from empty caches and the compilation it requested
    completes. *)
Definition compiledAccessor (path : list value) (fallback : value) : outcome fn :=
  st ← constructDestructureFunction path fallback 0 initialState;
  match called (flush st) with
  | [(_, f)] => Ret f
  | _ => Throw (Error "the callback was not called once")
  end.

(** Running the function built for [path] and [fallback] on a value. *)
Definition runAccessor (inherited : value -> propkey -> value)
    (path : list value) (fallback extra v : value) : outcome value :=
  f ← compiledAccessor path fallback;
  call inherited (code f) extra v.

(** The callbacks that wait for the compilation of [signature]. *)
Definition pendingHyper (st : state) (signature : string) : list nat :=
  default [] (making ← makingDestructureHyperCache st !! signature;
              hyperCallbacks st !! making).

Definition pendingFactory (st : state) (signature : string) : list (nat * list value) :=
  default [] (making ← makingDestructureCache st !! signature;
              factoryCallbacks st !! making).

(** States of the compiler that a program can reach: requests and
    completions of pending compilations, in any order. *)
Inductive reachable : state -> Prop :=
| reachable_initial : reachable initialState
| reachable_request path fallback callback st st' :
    reachable st ->
    constructDestructureFunction path fallback callback st = Ret st' ->
    reachable st'
| reachable_complete i st :
    reachable st -> reachable (completeJob i st).

(** The compilations in progress for a signature. *)
Definition accessorJobsFor (signature : string) (b : list job) : list job :=
  List.filter (fun j => match j with
                        | AccessorJob _ _ s _ => String.eqb s signature
                        | FactoryJob _ _ _ _ => false
                        end) b.

Definition factoryJobsFor (signature : string) (b : list job) : list job :=
  List.filter (fun j => match j with
                        | FactoryJob _ _ s _ => String.eqb s signature
                        | AccessorJob _ _ _ _ => false
                        end) b.

(** Reading back one code unit of a JSON string literal: the inverse of
    [quoteChar], used to tell apart the JSON texts of different strings. *)
Definition unquoteChar (s : string) : option (ascii * string) :=
  match s with
  | EmptyString => None
  | String c rest =>
      if decide (c = dquote) then None
      else if decide (c = backslash) then
        match rest with
        | String e rest' =>
            if decide (e = dquote) then Some (dquote, rest')
            else if decide (e = backslash) then Some (backslash, rest')
            else if decide (e = "b"%char) then Some (ascii_of_nat 8, rest')
            else if decide (e = "t"%char) then Some (ascii_of_nat 9, rest')
            else if decide (e = "n"%char) then Some (ascii_of_nat 10, rest')
            else if decide (e = "f"%char) then Some (ascii_of_nat 12, rest')
            else if decide (e = "r"%char) then Some (ascii_of_nat 13, rest')
            else
              match rest' with
              | String _ (String _ (String h (String l rest''))) =>
                  let hv := if (nat_of_ascii h <? 58)%nat then nat_of_ascii h - 48
                            else nat_of_ascii h - 87 in
                  let lv := if (nat_of_ascii l <? 58)%nat then nat_of_ascii l - 48
                            else nat_of_ascii l - 87 in
                  Some (ascii_of_nat (16 * hv + lv), rest'')
              | _ => None
              end
        | EmptyString => None
        end
      else Some (c, rest)
  end.

(** Characters of the decimal text of an integer. *)
Fixpoint allChars (P : ascii -> bool) (s : string) : bool :=
  match s with
  | EmptyString => true
  | String c rest => P c && allChars P rest
  end.

Definition isNumberChar (c : ascii) : bool :=
  let n := nat_of_ascii c in
  (n =? 45)%nat || ((48 <=? n)%nat && (n <=? 57)%nat).

(** The bookkeeping of compilations in progress: a signature is in a
    [making...] map exactly while one compilation for it is requested and not
    completed; it is then not in the cache, and its array of callbacks is in
    the store. *)
Definition coherent (st : state) : Prop :=
  (forall signature making,
     makingDestructureHyperCache st !! signature = Some making ->
     lruFind signature (makeDestructureHyperCache st) = None /\
     is_Some (hyperCallbacks st !! making) /\
     exists body detail,
       accessorJobsFor signature (batch st) = [AccessorJob body detail signature making])
  /\ (forall signature,
        makingDestructureHyperCache st !! signature = None ->
        accessorJobsFor signature (batch st) = [])
  /\ (forall signature making,
        makingDestructureCache st !! signature = Some making ->
        makeDestructureCache st !! signature = None /\
        is_Some (factoryCallbacks st !! making) /\
        exists params body,
          factoryJobsFor signature (batch st) = [FactoryJob params body signature making])
  /\ (forall signature,
        makingDestructureCache st !! signature = None ->
        factoryJobsFor signature (batch st) = []).

(** The arrays of pending callbacks are kept apart: the array of a signature
    in progress was allocated before [nextArray], and two signatures in
    progress have different arrays. *)
Definition separated (st : state) : Prop :=
  (forall signature making,
     makingDestructureHyperCache st !! signature = Some making ->
     making < nextArray st)
  /\ (forall s1 s2 making,
        makingDestructureHyperCache st !! s1 = Some making ->
        makingDestructureHyperCache st !! s2 = Some making -> s1 = s2)
  /\ (forall signature making,
        makingDestructureCache st !! signature = Some making ->
        making < nextArray st)
  /\ (forall s1 s2 making,
        makingDestructureCache st !! s1 = Some making ->
        makingDestructureCache st !! s2 = Some making -> s1 = s2).

(** [stepById] holds exactly the steps pushed to [sortedSteps], by id. *)
Definition registered (r : registry) : Prop :=
  forall k s, stepById r !! k = Some s <-> s ∈ sortedSteps r /\ sj_id s = k.

(** [f] registers the steps [A], each of them once, and throws when an id of
    [A] is already registered or occurs twice in [A]. *)
Definition registersAll (f : registry -> outcome registry) (A : list stepJSON) : Prop :=
  forall r, registered r ->
    (NoDup (sj_id <$> (sortedSteps r ++ A)) ->
     exists r' l, f r = Ret r' /\ registered r' /\
                  sortedSteps r' = sortedSteps r ++ l /\ l ≡ₚ A)
    /\ (~ NoDup (sj_id <$> (sortedSteps r ++ A)) ->
        NoDup (sj_id <$> sortedSteps r) -> throws (f r)).



(** *** Notions used in the further properties *)

(** A string segment that contains the separator of the turbo signature. *)
Definition hasSeparator (v : value) : bool :=
  match v with
  | VStr s => includes s "|"
  | _ => false
  end.

(** A character other than the separator. *)
Definition notSeparator (c : ascii) : bool := negb (Ascii.eqb c "|").

(** The string that a plain segment contributes to the signature, which is
    also the property key it reads. *)
Definition segmentText (v : value) : string :=
  match v with
  | VStr s => s
  | VNum n => numberToString n
  | _ => EmptyString
  end.

(** The calls that the completion of a compilation makes: the callbacks of
    its array, each with the function built for it. *)
Definition callsOf (hyper : gmap nat (list nat))
    (factories : gmap nat (list (nat * list value))) (j : job) : list (nat * fn) :=
  match j with
  | FactoryJob params body _ callbacks =>
      (fun entry => (fst entry,
                     plainFn (callFactory (mkFactory params body) (snd entry))))
        <$> default [] (factories !! callbacks)
  | AccessorJob body detail _ callbacks =>
      (fun callback => (callback, mkFn (quicklyExtractValueAtPath body) (Some detail)))
        <$> default [] (hyper !! callbacks)
  end.

(** [bucket.id] *)
Definition bucketId (b : bucketJSON) : N :=
  match b with BucketJSON id _ _ => id end.

(** The order in which [extractSteps] visits the steps of a tree: bucket by
    bucket, parents first, each bucket's steps as sorted. *)
Definition visitOrder (b : bucketJSON) : list stepJSON :=
  flat_map (fun b' => sortSteps (bucketSteps b')) (buckets b).

(** The steps among [steps] that depend on [depId], once for each time they
    list it. *)
Definition dependentsOf (depId : N) (steps : list stepJSON) : list stepJSON :=
  flat_map (fun s => (fun _ => s) <$> List.filter (N.eqb depId) (sj_dependencyIds s))
           steps.

(** What a successful [extractSteps] adds to the registry. *)
Definition extractSteps_effect (b : bucketJSON) : Prop :=
  forall r r', extractSteps b r = Ret r' ->
    sortedSteps r' = sortedSteps r ++ visitOrder b /\
    dependentsByStepId r' =
      foldl (fun m s => addDependents s m) (dependentsByStepId r) (visitOrder b) /\
    layerPlanById r' =
      foldl (fun m b' => <[bucketId b' := b']> m) (layerPlanById r) (buckets b).

(** A piece of an escaped label: a line break, or one code unit that is
    neither a number sign, a double quote, an angle bracket nor a line
    feed. *)
Definition isPiece (p : codeUnits) : Prop :=
  p = br \/ exists c, p = [c] /\ c ∉ [35; 34; 60; 62; 10]%N.

(** * Properties *)

(** Case analysis on a JavaScript value, numbers split by kind. *)
Ltac value_cases v := destruct v as [| |?|[?| | |]|?|?|? ?].

(** ** Tier selection *)

Lemma includes_typeof_string : includes "string" "|" = false.
Proof. reflexivity. Qed.

Lemma checkPathItem_ok path mode v :
  (isSegment v || forcesSlow v) = true ->
  checkPathItem path mode v =
    Ret (if forcesSlow v then SlowMode
         else if isSymbol v then (if decide (mode = TurboMode) then MiddleMode else mode)
         else mode).
Proof.
  value_cases v; simpl; try discriminate; intros _;
    reflexivity.
Qed.

Lemma checkPathItem_throw path mode v :
  (isSegment v || forcesSlow v) = false ->
  checkPathItem path mode v = Throw (InvalidPathItem v path).
Proof.
  value_cases v; simpl; try discriminate; reflexivity.
Qed.

Lemma finalMode_slow items : finalMode SlowMode items = SlowMode.
Proof.
  unfold finalMode. destruct (existsb forcesSlow items); [reflexivity|].
  destruct (existsb isSymbol items); reflexivity.
Qed.

Lemma checkPathItems_ok path items : forall mode,
  forallb (fun v => isSegment v || forcesSlow v) items = true ->
  checkPathItems path items mode = Ret (finalMode mode items).
Proof.
  induction items as [|v items IH]; intros mode Hok.
  - reflexivity.
  - simpl in Hok. apply andb_true_iff in Hok as [Hv Hrest].
    simpl. rewrite (checkPathItem_ok _ _ _ Hv). simpl.
    rewrite (IH _ Hrest). unfold finalMode. simpl.
    destruct (forcesSlow v) eqn:Hs; simpl.
    + fold (finalMode SlowMode items). apply f_equal, finalMode_slow.
    + destruct (isSymbol v) eqn:Hy; simpl; [|reflexivity].
      destruct (existsb forcesSlow items); [reflexivity|].
      destruct mode; simpl; destruct (existsb isSymbol items); reflexivity.
Qed.

Lemma checkPathItems_throw path items : forall mode,
  forallb (fun v => isSegment v || forcesSlow v) items = false ->
  exists v, v ∈ items /\ (isSegment v || forcesSlow v) = false /\
            checkPathItems path items mode = Throw (InvalidPathItem v path).
Proof.
  induction items as [|v items IH]; intros mode Hbad; [discriminate|].
  simpl in Hbad. destruct (isSegment v || forcesSlow v) eqn:Hv.
  - simpl in Hbad. simpl. rewrite (checkPathItem_ok _ _ _ Hv). simpl.
    destruct (IH (if forcesSlow v then SlowMode
                  else if isSymbol v
                       then (if decide (mode = TurboMode) then MiddleMode else mode)
                       else mode) Hbad) as (w & Hin & Hw & Heq).
    exists w. split; [right; exact Hin|]. split; [exact Hw|exact Heq].
  - exists v. split; [left|]. split; [exact Hv|].
    simpl. rewrite (checkPathItem_throw _ _ _ Hv). reflexivity.
Qed.

Lemma selectMode_ok path :
  forallb (fun v => isSegment v || forcesSlow v) path = true ->
  selectMode path = Ret (finalMode (modeByLength (length path)) path).
Proof. apply checkPathItems_ok. Qed.

Lemma selectMode_cases path :
  (forallb (fun v => isSegment v || forcesSlow v) path = true /\
   selectMode path = Ret (finalMode (modeByLength (length path)) path))
  \/ (forallb (fun v => isSegment v || forcesSlow v) path = false /\
      exists v, v ∈ path /\ (isSegment v || forcesSlow v) = false /\
                selectMode path = Throw (InvalidPathItem v path)).
Proof.
  destruct (forallb (fun v => isSegment v || forcesSlow v) path) eqn:H.
  - left. split; [reflexivity|]. apply selectMode_ok, H.
  - right. split; [reflexivity|]. apply checkPathItems_throw, H.
Qed.

Lemma finalMode_turbo mode items :
  finalMode mode items = TurboMode ->
  mode = TurboMode /\ existsb forcesSlow items = false /\ existsb isSymbol items = false.
Proof.
  unfold finalMode.
  destruct (existsb forcesSlow items); [discriminate|].
  destruct (existsb isSymbol items).
  - destruct (decide (mode = TurboMode)); [discriminate|]. intros ->. congruence.
  - intros ->. auto.
Qed.

Lemma selectMode_Ret path m :
  selectMode path = Ret m ->
  forallb (fun v => isSegment v || forcesSlow v) path = true /\
  m = finalMode (modeByLength (length path)) path.
Proof.
  intros H. destruct (selectMode_cases path) as [[Hok Heq]|[_ (v & _ & _ & Heq)]].
  - split; [exact Hok|]. congruence.
  - congruence.
Qed.

Lemma selectMode_turbo path :
  selectMode path = Ret TurboMode ->
  length path <= 5 /\ forallb isPlain path = true.
Proof.
  intros H. apply selectMode_Ret in H as [Hok Hm].
  symmetry in Hm. apply finalMode_turbo in Hm as (Hlen & Hslow & Hsym).
  split.
  - unfold modeByLength in Hlen.
    destruct (50 <? length path)%nat eqn:H50; [discriminate|].
    destruct (5 <? length path)%nat eqn:H5; [discriminate|].
    apply Nat.ltb_ge in H5. exact H5.
  - clear Hlen. induction path as [|v path IH]; [reflexivity|].
    simpl in *. apply andb_true_iff in Hok as [Hv Hok].
    apply orb_false_iff in Hslow as [Hs Hslow].
    apply orb_false_iff in Hsym as [Hy Hsym].
    rewrite (IH Hok Hslow Hsym), andb_true_r.
    value_cases v; simpl in *; congruence.
Qed.

Lemma selectMode_plain path :
  length path <= 5 -> forallb isPlain path = true ->
  selectMode path = Ret TurboMode.
Proof.
  intros Hlen Hplain.
  assert (Hall : forall v, v ∈ path -> isPlain v = true).
  { intros v Hv. rewrite forallb_forall in Hplain. apply Hplain.
    apply list_elem_of_In, Hv. }
  rewrite selectMode_ok.
  - unfold finalMode.
    replace (existsb forcesSlow path) with false.
    + replace (existsb isSymbol path) with false.
      * unfold modeByLength.
        destruct (50 <? length path)%nat eqn:H50; [apply Nat.ltb_lt in H50; lia|].
        destruct (5 <? length path)%nat eqn:H5; [apply Nat.ltb_lt in H5; lia|].
        reflexivity.
      * symmetry. apply not_true_is_false. intros He.
        apply existsb_exists in He as (v & Hv & Hs).
        apply list_elem_of_In, Hall in Hv. value_cases v; discriminate.
    + symmetry. apply not_true_is_false. intros He.
      apply existsb_exists in He as (v & Hv & Hs).
      apply list_elem_of_In, Hall in Hv. value_cases v; discriminate.
  - apply forallb_forall. intros v Hv. apply list_elem_of_In, Hall in Hv.
    value_cases v; try discriminate; reflexivity.
Qed.

Lemma joinElement_plain v : isPlain v = true -> exists s, joinElement v = Ret s.
Proof. value_cases v; try discriminate; simpl; eauto. Qed.

Lemma join_plain sep path :
  forallb isPlain path = true -> exists s, join sep path = Ret s.
Proof.
  induction path as [|v path IH]; intros H; [simpl; eauto|].
  simpl in H. apply andb_true_iff in H as [Hv Hp].
  destruct (joinElement_plain v Hv) as [s Hs].
  destruct (IH Hp) as [r Hr].
  destruct path as [|w path]; simpl in *; [eauto|].
  rewrite Hs. simpl. rewrite Hr. simpl. eauto.
Qed.

(** Once the tier is chosen, [constructDestructureFunction] returns. *)
Lemma constructDestructureFunction_returns path fallback callback st m :
  selectMode path = Ret m ->
  exists st', constructDestructureFunction path fallback callback st = Ret st'.
Proof.
  intros Hm. unfold constructDestructureFunction. rewrite Hm. simpl.
  destruct m.
  - eauto.
  - destruct (makeDestructureCache st !! _); [eauto|].
    destruct (makingDestructureCache st !! _); eauto.
  - apply selectMode_turbo in Hm as [_ Hplain].
    destruct (join_plain "|" path Hplain) as [sig Hsig]. rewrite Hsig. simpl.
    destruct (lruGet sig (makeDestructureHyperCache st)) as [[f|] c]; simpl; [eauto|].
    destruct (makingDestructureHyperCache st !! sig); [eauto|].
    destruct path as [|k1 [|k2 [|k3 rest]]]; eauto.
Qed.

Lemma constructDestructureFunction_throws path fallback callback st e :
  selectMode path = Throw e ->
  constructDestructureFunction path fallback callback st = Throw e.
Proof. intros H. unfold constructDestructureFunction. rewrite H. reflexivity. Qed.

(** A symbol segment keeps a path out of the turbo tier. *)
Lemma symbol_not_turbo path :
  existsb isSymbol path = true -> selectMode path <> Ret TurboMode.
Proof.
  intros Hsym Hm. apply selectMode_turbo in Hm as [_ Hplain].
  apply existsb_exists in Hsym as (v & Hv & Hs).
  rewrite forallb_forall in Hplain. specialize (Hplain v Hv).
  destruct v; discriminate.
Qed.

(** Strings never leave the turbo tier, whatever they contain: the loop tests
    [t.includes("|")] on the type name [t], which is ["string"]. *)
Lemma strings_stay_turbo path :
  length path <= 5 ->
  Forall (fun v => exists s, v = VStr s) path ->
  selectMode path = Ret TurboMode.
Proof.
  intros Hlen Hstr. apply selectMode_plain; [exact Hlen|].
  apply forallb_forall. intros v Hv. rewrite Forall_forall in Hstr.
  destruct (Hstr v) as [s ->]; [apply list_elem_of_In, Hv|reflexivity].
Qed.

(** C4 (the code departs from the specification): the one-segment path ["a|b"], whose
    string contains the separator, is put in the turbo tier, and its turbo
    signature is the signature of the two-segment path ["a"; "b"]. *)
Theorem C4_separator_string_selects_turbo :
  includes "a|b" "|" = true /\
  selectMode [VStr "a|b"] = Ret TurboMode /\
  join "|" [VStr "a|b"] = join "|" [VStr "a"; VStr "b"].
Proof. repeat split. Qed.

(** C6: [constructDestructureFunction] throws exactly when some segment is
    neither a string, a finite number or a symbol, nor a [null] segment
    ([pathItem == null]) or a non-finite number; the exception is the
    invalid-path-item error and nothing else has happened when it is thrown.
    When no segment is invalid and some segment is [null] or a non-finite
    number, the slow walker is handed to the callback without error. *)
Theorem C6_construction_error path fallback callback st :
  (throws (constructDestructureFunction path fallback callback st) <->
     Exists (fun v => isSegment v = false /\ forcesSlow v = false) path)
  /\ (forall e, constructDestructureFunction path fallback callback st = Throw e ->
        exists v, v ∈ path /\ e = InvalidPathItem v path)
  /\ (Forall (fun v => isSegment v = true \/ forcesSlow v = true) path ->
      Exists (fun v => forcesSlow v = true) path ->
      selectMode path = Ret SlowMode /\
      constructDestructureFunction path fallback callback st =
        Ret (invoke callback (plainFn (slowlyExtractValueAtPath path fallback)) st)).
Proof.
  destruct (selectMode_cases path) as [[Hok Heq]|[Hbad (v & Hin & Hv & Heq)]].
  - destruct (constructDestructureFunction_returns path fallback callback st _ Heq)
      as [st' Hst'].
    split; [|split].
    + rewrite Hst'. simpl. split; [tauto|]. intros Hex.
      apply Exists_exists in Hex as (w & Hw & Hs & Hf).
      rewrite forallb_forall in Hok. specialize (Hok w (proj1 (list_elem_of_In _ _) Hw)).
      rewrite Hs, Hf in Hok. discriminate.
    + rewrite Hst'. discriminate.
    + intros _ Hex.
      assert (Hm : finalMode (modeByLength (length path)) path = SlowMode).
      { unfold finalMode. replace (existsb forcesSlow path) with true; [reflexivity|].
        symmetry. apply existsb_exists. apply Exists_exists in Hex as (w & Hw & Hs).
        exists w. split; [apply list_elem_of_In, Hw|exact Hs]. }
      rewrite Hm in Heq. split; [exact Heq|].
      unfold constructDestructureFunction. rewrite Heq. reflexivity.
  - rewrite (constructDestructureFunction_throws _ fallback callback st _ Heq).
    split; [|split].
    + simpl. split; [intros _|tauto].
      apply Exists_exists. exists v. split; [exact Hin|].
      apply orb_false_iff in Hv. exact Hv.
    + intros e [= <-]. eauto.
    + intros Hall _. rewrite Forall_forall in Hall.
      destruct (Hall v Hin) as [H|H]; rewrite H in Hv; simpl in Hv;
        [discriminate|rewrite orb_true_r in Hv; discriminate].
Qed.

Lemma C6_construction_error_witness :
  selectMode [VStr "a"; VNull] = Ret SlowMode /\
  constructDestructureFunction [VStr "a"; VNull] VUndefined 0 initialState =
    Ret (invoke 0 (plainFn (slowlyExtractValueAtPath [VStr "a"; VNull] VUndefined))
                initialState).
Proof.
  apply (C6_construction_error [VStr "a"; VNull] VUndefined 0 initialState).
  - constructor; [left; reflexivity|].
    constructor; [right; reflexivity|constructor].
  - apply Exists_cons_tl, Exists_cons_hd. reflexivity.
Defined.

(** C10: [get] with a string and [at] with a number give a new [AccessStep]
    on the dependency of [this], with the key appended to the path and no
    fallback; [get] throws for any other key than a string and [at] for any
    other index than a number. *)
Theorem C10_get_at id dep path fallback k nextId :
  (forall s, k = VStr s ->
     get (AccessStep id dep path fallback) k nextId =
       Ret (AccessStep nextId dep (path ++ [k]) VUndefined, S nextId))
  /\ ((forall s, k <> VStr s) -> throws (get (AccessStep id dep path fallback) k nextId))
  /\ (forall n, k = VNum n ->
        at_ (AccessStep id dep path fallback) k nextId =
          Ret (AccessStep nextId dep (path ++ [k]) VUndefined, S nextId))
  /\ ((forall n, k <> VNum n) -> throws (at_ (AccessStep id dep path fallback) k nextId)).
Proof.
  repeat split.
  - intros s ->. reflexivity.
  - intros Hk. destruct k; simpl; try exact I. destruct (Hk s eq_refl).
  - intros n ->. reflexivity.
  - intros Hk. destruct k; simpl; try exact I. destruct (Hk n eq_refl).
Qed.

Lemma C10_get_at_witness :
  get (AccessStep 1 (ExecutableStep 0) [VStr "a"] (VNum (Finite 7))) (VStr "b") 2 =
    Ret (AccessStep 2 (ExecutableStep 0) [VStr "a"; VStr "b"] VUndefined, 3)
  /\ throws (get (AccessStep 1 (ExecutableStep 0) [VStr "a"] (VNum (Finite 7)))
                 (VNum (Finite 0)) 2).
Proof.
  split.
  - apply (proj1 (C10_get_at 1 (ExecutableStep 0) [VStr "a"] (VNum (Finite 7))
                             (VStr "b") 2) "b").
    reflexivity.
  - apply (proj1 (proj2 (C10_get_at 1 (ExecutableStep 0) [VStr "a"] (VNum (Finite 7))
                                    (VNum (Finite 0)) 2))).
    discriminate.
Defined.

(** ** What the accessors compute *)

Section AccessorResults.

Variable inherited : value -> propkey -> value.

#[local] Arguments chain : simpl never.

Lemma optionalMember_chain v key :
  optionalMember inherited v key = Ret (chain inherited [key] v).
Proof.
  unfold optionalMember, member, chain. simpl.
  destruct (looseEqNull v); reflexivity.
Qed.

Lemma chain_app p1 p2 v :
  chain inherited (p1 ++ p2) v = chain inherited p2 (chain inherited p1 v).
Proof. unfold chain. apply fold_left_app. Qed.

Lemma chain_cons key path v :
  chain inherited (key :: path) v = chain inherited path (chain inherited [key] v).
Proof. reflexivity. Qed.

Lemma chain_nullish path v :
  looseEqNull v = true -> looseEqNull (chain inherited path v) = true.
Proof.
  revert v. induction path as [|key path IH]; intros v Hv; [exact Hv|].
  rewrite chain_cons. apply IH. unfold chain. simpl. rewrite Hv. reflexivity.
Qed.

Lemma coalesce_nullish a b fallback :
  looseEqNull a = true -> looseEqNull b = true -> coalesce a fallback = coalesce b fallback.
Proof. unfold coalesce. intros -> ->. reflexivity. Qed.

Lemma coalesce_idem a fallback : coalesce (coalesce a fallback) fallback = coalesce a fallback.
Proof.
  unfold coalesce. destruct (looseEqNull a) eqn:Ha.
  - destruct (looseEqNull fallback); reflexivity.
  - rewrite Ha. reflexivity.
Qed.

(** The reading [value[k1][k2]...] against the optional chain: when it
    returns, it returns what the chain reaches, and it throws exactly when
    the value reached before one of the keys is nullish. *)
Lemma strictWalk_spec path : forall v,
  (forall r, strictWalk inherited path v = Ret r -> r = chain inherited path v) /\
  (throws (strictWalk inherited path v) <->
   exists p1 k p2, path = p1 ++ k :: p2 /\ looseEqNull (chain inherited p1 v) = true).
Proof.
  induction path as [|key path IH]; intros v.
  - split; [intros r [= <-]; reflexivity|]. simpl. split; [tauto|].
    intros (p1 & k & p2 & H & _). destruct p1; discriminate.
  - simpl. unfold member. destruct (looseEqNull v) eqn:Hv; simpl.
    + split; [discriminate|]. split; [|tauto]. intros _.
      exists [], key, path. split; [reflexivity|exact Hv].
    + destruct (IH (getProperty inherited v (toPropertyKey key))) as [IH1 IH2].
      assert (Hstep : forall p, chain inherited (key :: p) v =
                chain inherited p (getProperty inherited v (toPropertyKey key))).
      { intros p. rewrite (chain_cons key p v). f_equal.
        unfold chain. simpl. rewrite Hv. reflexivity. }
      split.
      * intros r Hr. rewrite Hstep. apply IH1, Hr.
      * rewrite IH2. split.
        -- intros (p1 & k & p2 & -> & Hn). exists (key :: p1), k, p2.
           split; [reflexivity|]. rewrite Hstep. exact Hn.
        -- intros (p1 & k & p2 & Hp & Hn). destruct p1 as [|k1 p1].
           ++ unfold chain in Hn. simpl in Hn. congruence.
           ++ simpl in Hp. injection Hp as <- ->. exists p1, k, p2.
              split; [reflexivity|]. rewrite <- Hstep. exact Hn.
Qed.

Lemma strictWalk_present path v :
  (forall p1 k p2, path = p1 ++ k :: p2 -> looseEqNull (chain inherited p1 v) = false) ->
  strictWalk inherited path v = Ret (chain inherited path v).
Proof.
  intros Hpresent. destruct (strictWalk_spec path v) as [Hret Hthrow].
  destruct (strictWalk inherited path v) as [r|e].
  - rewrite (Hret r eq_refl). reflexivity.
  - exfalso. destruct (proj1 Hthrow I) as (p1 & k & p2 & Hp & Hn).
    rewrite (Hpresent _ _ _ Hp) in Hn. discriminate.
Qed.

Lemma strictWalk_app p1 p2 v :
  strictWalk inherited (p1 ++ p2) v =
    (r ← strictWalk inherited p1 v; strictWalk inherited p2 r).
Proof.
  revert v. induction p1 as [|k p1 IH]; intros v; [reflexivity|].
  simpl. destruct (member inherited v k) as [next|e]; simpl; [apply IH|reflexivity].
Qed.

(** The generated chain reads like [strictWalk]. *)
Lemma eval_postfix_strict env path : forall e,
  eval inherited env (fold_left applyPostfix (TeGet <$> path) e) =
    (x ← eval inherited env e; strictWalk inherited path x).
Proof.
  induction path as [|key path IH]; intros e.
  - simpl. destruct (eval inherited env e); reflexivity.
  - simpl. rewrite IH. simpl.
    destruct (eval inherited env e) as [x|err]; reflexivity.
Qed.

Lemma eval_valueWith extra v path :
  eval inherited [("extra", extra); ("value", v)] (valueWith (TeGet <$> path)) =
    strictWalk inherited path v.
Proof. unfold valueWith. rewrite eval_postfix_strict. reflexivity. Qed.

(** The generated accessor: the strict reading, coalesced with the fallback
    when one is given. *)
Lemma call_generated path fallback extra v :
  call inherited (quicklyExtractValueAtPath (accessorBody (TeGet <$> path) fallback))
       extra v =
    (r ← strictWalk inherited path v;
     Ret (if negb (strictEq fallback VUndefined) then coalesce r fallback else r)).
Proof.
  unfold accessorBody. simpl.
  destruct (negb (strictEq fallback VUndefined)); simpl; rewrite eval_valueWith.
  - destruct (strictWalk inherited path v) as [r|e]; simpl; [|reflexivity].
    unfold coalesce. destruct (looseEqNull r); reflexivity.
  - destruct (strictWalk inherited path v); reflexivity.
Qed.

(** The hand-written accessors for one and two keys: the optional chain,
    coalesced with the fallback when one is given. *)
Lemma call_turboAccessor_short path fallback extra v :
  length path = 1 \/ length path = 2 ->
  call inherited (turboAccessor path fallback) extra v =
    Ret (if negb (strictEq fallback VUndefined)
         then coalesce (chain inherited path v) fallback
         else chain inherited path v).
Proof.
  intros Hlen.
  destruct path as [|k1 [|k2 [|k3 rest]]]; simpl in Hlen; try lia.
  - unfold turboAccessor, access1.
    destruct (negb (strictEq fallback VUndefined)); simpl;
      rewrite optionalMember_chain; reflexivity.
  - unfold turboAccessor, access2.
    destruct (negb (strictEq fallback VUndefined)); simpl;
      rewrite optionalMember_chain; simpl; rewrite optionalMember_chain; reflexivity.
Qed.

Lemma turboAccessor_generated path fallback :
  length path <> 1 -> length path <> 2 ->
  turboAccessor path fallback =
    quicklyExtractValueAtPath (accessorBody (TeGet <$> path) fallback).
Proof.
  intros H1 H2. destruct path as [|k1 [|k2 [|k3 rest]]]; simpl in *;
    try reflexivity; lia.
Qed.

(** What the turbo accessor returns when it returns. *)
Lemma call_turboAccessor_Ret path fallback extra v r :
  call inherited (turboAccessor path fallback) extra v = Ret r ->
  r = (if negb (strictEq fallback VUndefined)
       then coalesce (chain inherited path v) fallback
       else chain inherited path v).
Proof.
  destruct (decide (length path = 1 \/ length path = 2)) as [Hs|Hg].
  - rewrite (call_turboAccessor_short _ _ _ _ Hs). congruence.
  - rewrite turboAccessor_generated by lia. rewrite call_generated.
    destruct (strictWalk_spec path v) as [Hret _].
    destruct (strictWalk inherited path v) as [s|e]; simpl; [|discriminate].
    rewrite (Hret s eq_refl). congruence.
Qed.

(** The turbo accessor returns for one and two keys, and for every path
    when each key is read from a value that is not nullish. *)
Lemma call_turboAccessor path fallback extra v :
  (length path = 1 \/ length path = 2 \/
   forall p1 k p2, path = p1 ++ k :: p2 ->
                   looseEqNull (chain inherited p1 v) = false) ->
  call inherited (turboAccessor path fallback) extra v =
    Ret (if negb (strictEq fallback VUndefined)
         then coalesce (chain inherited path v) fallback
         else chain inherited path v).
Proof.
  intros Hcase.
  destruct (decide (length path = 1 \/ length path = 2)) as [Hs|Hg].
  - apply call_turboAccessor_short, Hs.
  - destruct Hcase as [H|[H|Hpresent]]; [tauto|tauto|].
    rewrite turboAccessor_generated by lia.
    rewrite call_generated, (strictWalk_present _ _ Hpresent). reflexivity.
Qed.

(** The slow walker stops at the first nullish value; up to the final
    coalescing this is the chain. *)
Lemma slowLoop_chain path : forall v,
  exists r, slowLoop inherited path v = Ret r /\
            (r = chain inherited path v \/
             (looseEqNull r = true /\ looseEqNull (chain inherited path v) = true)).
Proof.
  induction path as [|key path IH]; intros v.
  - exists v. split; [reflexivity|left; reflexivity].
  - simpl. destruct (looseEqNull v) eqn:Hv.
    + exists v. split; [reflexivity|]. right. split; [exact Hv|].
      apply chain_nullish, Hv.
    + unfold member. rewrite Hv. simpl.
      destruct (IH (getProperty inherited v (toPropertyKey key))) as (r & Hr & Hc).
      exists r. split; [exact Hr|].
      replace (chain inherited (key :: path) v)
        with (chain inherited path (getProperty inherited v (toPropertyKey key)));
        [exact Hc|].
      rewrite (chain_cons key path v). f_equal.
      unfold chain. simpl. rewrite Hv. reflexivity.
Qed.

Lemma call_slowly path fallback extra v :
  call inherited (slowlyExtractValueAtPath path fallback) extra v =
    Ret (coalesce (chain inherited path v) fallback).
Proof.
  simpl. destruct (slowLoop_chain path v) as (r & -> & [->|[Hr Hc]]); simpl.
  - reflexivity.
  - rewrite (coalesce_nullish r (chain inherited path v)); auto.
Qed.

End AccessorResults.

(** ** The function built on a cache miss, by tier *)

(** A request on empty caches, followed by the completion of the compilation
    it requested, calls the callback once, with the function of the tier. *)
Lemma fresh_request path fallback callback m :
  selectMode path = Ret m ->
  exists st,
    constructDestructureFunction path fallback callback initialState = Ret st /\
    called (flush st) = [(callback, builtFor m path fallback)].
Proof.
  intros Hm. unfold constructDestructureFunction. rewrite Hm. simpl.
  destruct m.
  - eexists. split; reflexivity.
  - rewrite !lookup_empty. eexists. split; [reflexivity|].
    unfold flush. simpl.
    unfold factoryDone, setBatch, runInBatch, startMaking, initialState. simpl.
    rewrite lookup_insert_eq. reflexivity.
  - destruct (join_plain "|" path (proj2 (selectMode_turbo path Hm))) as [sig Hsig].
    rewrite Hsig. simpl. rewrite lookup_empty.
    destruct path as [|k1 [|k2 [|k3 rest]]]; (eexists; split; [reflexivity|]);
      unfold flush; simpl;
      unfold done, setBatch, runInBatch, startMakingHyper, setHyperCache, initialState;
      simpl; rewrite lookup_insert_eq; reflexivity.
Qed.

Lemma compiledAccessor_builtFor path fallback m :
  selectMode path = Ret m ->
  compiledAccessor path fallback = Ret (builtFor m path fallback).
Proof.
  intros Hm. destruct (fresh_request path fallback 0 m Hm) as (st & Hreq & Hcalled).
  unfold compiledAccessor. rewrite Hreq. simpl. rewrite Hcalled. reflexivity.
Qed.


Lemma compiledAccessor_middle path fallback :
  selectMode path = Ret MiddleMode ->
  compiledAccessor path fallback =
    Ret (plainFn (callFactory (middleFactory (length path)) path)).
Proof. apply compiledAccessor_builtFor. Qed.

Lemma compiledAccessor_turbo path fallback :
  selectMode path = Ret TurboMode ->
  compiledAccessor path fallback =
    Ret (mkFn (turboAccessor path fallback) (Some (TeGet <$> path, fallback))).
Proof. apply compiledAccessor_builtFor. Qed.

(** ** The middle tier and the function a step executes *)

Section MiddleTier.

Variable inherited : value -> propkey -> value.

(** A parameter of the factory is bound to the argument at its position. *)
Lemma find_bindParams names : forall args k x,
  NoDup names -> names !! k = Some x ->
  find (fun b => String.eqb (fst b) x) (bindParams names args)
    = Some (x, default VUndefined (args !! k)).
Proof.
  induction names as [|y names IH]; intros args k x Hnd Hk; [discriminate|].
  apply NoDup_cons in Hnd as [Hy Hnd].
  destruct k as [|k]; simpl in Hk.
  - injection Hk as ->. destruct args; simpl; rewrite String.eqb_refl; reflexivity.
  - assert (y <> x).
    { intros ->. apply Hy. apply list_elem_of_lookup. eauto. }
    apply String.eqb_neq in H.
    destruct args as [|a args]; simpl; rewrite H.
    + rewrite (IH [] k x Hnd Hk). reflexivity.
    + rewrite (IH args k x Hnd Hk). reflexivity.
Qed.

Lemma paramNames_NoDup n : NoDup (paramNames n).
Proof.
  unfold paramNames. apply NoDup_fmap_2; [|apply NoDup_seq].
  intros i j H. apply (inj (String.append "p")) in H. apply (inj pretty) in H. exact H.
Qed.

Lemma paramNames_lookup n k x :
  paramNames n !! k = Some x -> exists s, x = String "p" s.
Proof.
  unfold paramNames. rewrite list_lookup_fmap.
  destruct (seq 0 n !! k) as [i|]; simpl; [|discriminate].
  intros [= <-]. exists (pretty i). reflexivity.
Qed.

Lemma eval_index_chain env names : forall keys e,
  length keys = length names ->
  (forall k x, names !! k = Some x ->
     find (fun b => String.eqb (fst b) x) env = Some (x, default VUndefined (keys !! k))) ->
  eval inherited env (fold_left applyPostfix (TeIndex <$> names) e) =
    (o ← eval inherited env e; strictWalk inherited keys o).
Proof.
  induction names as [|x names IH]; intros keys e Hlen Hfind.
  - destruct keys; [|discriminate]. simpl. destruct (eval inherited env e); reflexivity.
  - destruct keys as [|key keys]; [discriminate|]. simpl.
    rewrite (IH keys).
    + simpl. destruct (eval inherited env e) as [o|err]; simpl; [|reflexivity].
      rewrite (Hfind 0 x eq_refl). simpl. reflexivity.
    + simpl in Hlen. lia.
    + intros k y Hk. apply (Hfind (S k) y Hk).
Qed.

(** The accessor of the middle tier reads [value[p0][p1]...]: no optional
    chaining, no fallback. *)
Lemma call_middle path extra v :
  call inherited (callFactory (middleFactory (length path)) path) extra v =
    strictWalk inherited path v.
Proof.
  unfold callFactory, middleFactory. simpl. unfold middleBody, valueWith.
  rewrite (eval_index_chain _ _ path).
  - reflexivity.
  - unfold paramNames. rewrite length_fmap, length_seq. reflexivity.
  - intros k x Hk. destruct (paramNames_lookup _ _ _ Hk) as [s ->]. simpl.
    apply find_bindParams; [apply paramNames_NoDup|exact Hk].
Qed.

Lemma strictWalk_nullish key path v :
  looseEqNull v = true ->
  strictWalk inherited (key :: path) v =
    Throw (TypeError "Cannot read properties of null or undefined").
Proof. intros Hv. simpl. unfold member. rewrite Hv. reflexivity. Qed.


(** When [optimize] does not fuse, it returns [this] and the step executes
    the function built for its path and fallback. *)
Lemma optimize_installs id dep path fallback nextId m :
  (forall gid g gp gf, dep = AccessStep gid g gp gf -> strictEq gf VUndefined = false) ->
  selectMode path = Ret m ->
  exists st,
    optimize (AccessStep id dep path fallback) (nextId, initialState) =
      Ret (AccessStep id dep path fallback, (nextId, st)) /\
    unbatchedExecuteOf (flush st) id = Some (builtFor m path fallback) /\
    forall extra v,
      unbatchedExecute inherited (flush st) (AccessStep id dep path fallback) extra v
      = runAccessor inherited path fallback extra v.
Proof.
  intros Hdep Hm.
  destruct (fresh_request path fallback id m Hm) as (st & Hreq & Hcalled).
  assert (Hex : unbatchedExecuteOf (flush st) id = Some (builtFor m path fallback)).
  { unfold unbatchedExecuteOf. rewrite Hcalled. simpl. rewrite Nat.eqb_refl. reflexivity. }
  exists st. split; [|split; [exact Hex|]].
  - destruct dep as [gid|gid g gp gf]; simpl.
    + rewrite Hreq. reflexivity.
    + rewrite (Hdep gid g gp gf eq_refl), Hreq. reflexivity.
  - intros extra v. unfold unbatchedExecute. simpl. rewrite Hex.
    unfold runAccessor. rewrite (compiledAccessor_builtFor _ _ _ Hm). reflexivity.
Qed.

Lemma middle_tier_accessor path fallback extra v :
  selectMode path = Ret MiddleMode ->
  runAccessor inherited path fallback extra v = strictWalk inherited path v.
Proof.
  intros Hm. unfold runAccessor. rewrite (compiledAccessor_builtFor _ _ _ Hm).
  apply call_middle.
Qed.

(** Every accessor of the middle tier throws on [null] and [undefined]. *)
Lemma middle_tier_throws_on_nullish path fallback extra v :
  selectMode path = Ret MiddleMode -> looseEqNull v = true ->
  runAccessor inherited path fallback extra v =
    Throw (TypeError "Cannot read properties of null or undefined").
Proof.
  intros Hm Hv. rewrite (middle_tier_accessor _ _ _ _ Hm).
  destruct path as [|key path]; [discriminate Hm|].
  apply strictWalk_nullish, Hv.
Qed.
End MiddleTier.

Lemma strictEq_undefined fallback :
  strictEq fallback VUndefined = true <-> fallback = VUndefined.
Proof.
  value_cases fallback; simpl; split; congruence.
Qed.

(** ** C1 and C2: the three tiers against each other *)

(** C1 (as the code has it): for a path of the turbo tier the slow walker
    always returns. Whenever the turbo accessor built for the path and the
    fallback returns a result, the slow walker returns that result coalesced
    with the fallback: the two results are the same when a fallback is
    given, and when none is given unless the turbo accessor returns [null],
    where the slow walker returns [undefined]. The turbo accessor returns
    on every value for paths of one and two keys (the hand-written
    closures), and for every path on the values where each key is read from
    a value that is neither [null] nor [undefined]. *)
Theorem C1_turbo_and_slow inherited path fallback extra v :
  selectMode path = Ret TurboMode ->
  exists f s,
    compiledAccessor path fallback = Ret f /\
    code f = turboAccessor path fallback /\
    call inherited (slowlyExtractValueAtPath path fallback) extra v = Ret s /\
    (forall r,
       call inherited (code f) extra v = Ret r ->
       s = coalesce r fallback /\
       (strictEq fallback VUndefined = false \/ r <> VNull -> s = r)) /\
    (length path = 1 \/ length path = 2 \/
     (forall p1 k p2, path = p1 ++ k :: p2 ->
                      looseEqNull (chain inherited p1 v) = false) ->
     exists r, call inherited (code f) extra v = Ret r).
Proof.
  intros Hm.
  exists (mkFn (turboAccessor path fallback) (Some (TeGet <$> path, fallback))),
         (coalesce (chain inherited path v) fallback).
  split; [apply compiledAccessor_turbo, Hm|].
  split; [reflexivity|]. simpl code. split; [apply call_slowly|]. split.
  - intros r Hr. apply call_turboAccessor_Ret in Hr as ->.
    destruct (strictEq fallback VUndefined) eqn:Hfb; simpl.
    + apply strictEq_undefined in Hfb as ->. split; [reflexivity|].
      intros [H|H]; [discriminate|].
      unfold coalesce in *.
      destruct (chain inherited path v); simpl in *; congruence.
    + rewrite coalesce_idem. split; reflexivity.
  - intros Hcase. rewrite (call_turboAccessor _ _ _ _ _ Hcase). eauto.
Qed.

Lemma C1_turbo_and_slow_witness :
  exists f s,
    compiledAccessor (VStr <$> ["a"; "b"; "c"]) (VNum (Finite 0)) = Ret f /\
    code f = turboAccessor (VStr <$> ["a"; "b"; "c"]) (VNum (Finite 0)) /\
    call noPrototype
         (slowlyExtractValueAtPath (VStr <$> ["a"; "b"; "c"]) (VNum (Finite 0)))
         VUndefined (VObj 0 [(KStr "a", VObj 1 [(KStr "b", VObj 2 [])])]) = Ret s /\
    (forall r,
       call noPrototype (code f) VUndefined
            (VObj 0 [(KStr "a", VObj 1 [(KStr "b", VObj 2 [])])]) = Ret r ->
       s = coalesce r (VNum (Finite 0)) /\
       (strictEq (VNum (Finite 0)) VUndefined = false \/ r <> VNull -> s = r)) /\
    (length (VStr <$> ["a"; "b"; "c"]) = 1 \/ length (VStr <$> ["a"; "b"; "c"]) = 2 \/
     (forall p1 k p2,
        VStr <$> ["a"; "b"; "c"] = p1 ++ k :: p2 ->
        looseEqNull
          (chain noPrototype p1 (VObj 0 [(KStr "a", VObj 1 [(KStr "b", VObj 2 [])])]))
        = false) ->
     exists r, call noPrototype (code f) VUndefined
                    (VObj 0 [(KStr "a", VObj 1 [(KStr "b", VObj 2 [])])]) = Ret r).
Proof.
  apply (C1_turbo_and_slow noPrototype (VStr <$> ["a"; "b"; "c"]) (VNum (Finite 0))
           VUndefined (VObj 0 [(KStr "a", VObj 1 [(KStr "b", VObj 2 [])])])).
  reflexivity.
Defined.

(** C1 as the specification states it fails: with the path ["a"], no fallback and the value
    [{a: null}], the turbo accessor returns [null] and the slow walker
    [undefined]. *)
Lemma C1_counterexample :
  ~ (forall inherited path fallback extra v f,
       selectMode path = Ret TurboMode ->
       compiledAccessor path fallback = Ret f ->
       call inherited (code f) extra v =
         call inherited (slowlyExtractValueAtPath path fallback) extra v).
Proof.
  intros H.
  specialize (H noPrototype [VStr "a"] VUndefined VUndefined
                (VObj 0 [(KStr "a", VNull)])
                (mkFn (quicklyAccessKey1 (VStr "a")) (Some ([TeGet (VStr "a")], VUndefined)))
                eq_refl eq_refl).
  vm_compute in H. discriminate H.
Qed.

(** C2 (the code departs from the specification): the accessor of the middle tier is
    [value[p0][p1]...] without optional chaining and without the fallback.
    For the six-segment path [a.b.c.d.e.f] and the value [{}] it throws a
    [TypeError]; for the path of one symbol, the fallback [1] and the value
    [{}] it returns [undefined] and not the fallback. In the turbo tier the
    cache is keyed by the path alone: after a request for the path [a] with
    fallback [1], a request for the path [a] with fallback [2] is answered
    with the cached function, which returns [1] on [{}]. *)
Theorem C2_middle_tier_throws :
  let path := VStr <$> ["a"; "b"; "c"; "d"; "e"; "f"] in
  selectMode path = Ret MiddleMode /\
  (exists f, compiledAccessor path VUndefined = Ret f /\
             call noPrototype (code f) VUndefined (VObj 0 []) =
               Throw (TypeError "Cannot read properties of null or undefined")) /\
  selectMode [VSym 0] = Ret MiddleMode /\
  (exists g, compiledAccessor [VSym 0] (VNum (Finite 1)) = Ret g /\
             call noPrototype (code g) VUndefined (VObj 0 []) = Ret VUndefined) /\
  (exists st1 st2 h,
     constructDestructureFunction [VStr "a"] (VNum (Finite 1)) 1 initialState = Ret st1 /\
     constructDestructureFunction [VStr "a"] (VNum (Finite 2)) 2 st1 = Ret st2 /\
     unbatchedExecuteOf st2 2 = Some h /\
     call noPrototype (code h) VUndefined (VObj 0 []) = Ret (VNum (Finite 1))).
Proof.
  split; [reflexivity|]. split; [|split; [reflexivity|split]].
  - eexists. split; [apply compiledAccessor_middle; reflexivity|]. reflexivity.
  - eexists. split; [apply compiledAccessor_middle; reflexivity|]. reflexivity.
  - eexists _, _, _. split; [reflexivity|]. split; [reflexivity|].
    split; reflexivity.
Qed.

(** ** C3: fusion of an access of an access *)

Section Fusion.

Variable inherited : value -> propkey -> value.

#[local] Arguments chain : simpl never.









End Fusion.





(** ** C9: registration of the steps of a plan *)

Lemma bucketJSON_tree_ind (P : bucketJSON -> Prop) :
  (forall id steps children, Forall P children -> P (BucketJSON id steps children)) ->
  forall b, P b.
Proof.
  intros H. fix IH 1. intros [id steps children]. apply H.
  induction children as [|c cs IHcs]; constructor; [apply IH|exact IHcs].
Qed.

Lemma extractSteps_unfold id steps children r :
  extractSteps (BucketJSON id steps children) r =
    (r2 ← registerSteps (sortSteps steps)
            (mkRegistry (stepById r)
                        (<[id := BucketJSON id steps children]> (layerPlanById r))
                        (dependentsByStepId r) (sortedSteps r));
     extractChildren children r2).
Proof. reflexivity. Qed.

Lemma allSteps_unfold id steps children :
  allSteps (BucketJSON id steps children) = steps ++ flat_map allSteps children.
Proof.
  unfold allSteps. simpl. f_equal.
  induction children as [|c cs IH]; [reflexivity|].
  simpl. rewrite flat_map_app, IH. reflexivity.
Qed.

Lemma insertSorted_perm a l : insertSorted a l ≡ₚ a :: l.
Proof.
  induction l as [|z l IH]; simpl; [reflexivity|].
  destruct (_ <=? _)%nat; [reflexivity|].
  rewrite IH. apply Permutation_swap.
Qed.

Lemma sortSteps_perm l : sortSteps l ≡ₚ l.
Proof.
  induction l as [|a l IH]; simpl; [reflexivity|].
  rewrite insertSorted_perm, IH. reflexivity.
Qed.

Lemma registered_empty : registered emptyRegistry.
Proof.
  intros k s. simpl. rewrite lookup_empty. split; [discriminate|].
  intros [H _]. inversion H.
Qed.

Lemma registered_push r s :
  registered r -> stepById r !! sj_id s = None ->
  registered (mkRegistry (<[sj_id s := s]> (stepById r)) (layerPlanById r)
                         (addDependents s (dependentsByStepId r))
                         (sortedSteps r ++ [s])).
Proof.
  intros Hreg Hnone k s'. simpl. rewrite elem_of_app, list_elem_of_singleton.
  destruct (decide (sj_id s = k)) as [<-|Hne].
  - rewrite lookup_insert_eq. split.
    + intros [= <-]. auto.
    + intros [[Hin| ->] Hid]; [|reflexivity].
      assert (stepById r !! sj_id s = Some s') as Hs' by (apply Hreg; auto).
      congruence.
  - rewrite lookup_insert_ne by exact Hne. rewrite (Hreg k s'). split.
    + intros [Hin Hid]. auto.
    + intros [[Hin| ->] Hid]; [auto|contradiction].
Qed.

Lemma registered_fresh r s :
  registered r -> stepById r !! sj_id s = None -> sj_id s ∉ sj_id <$> sortedSteps r.
Proof.
  intros Hreg Hnone Hin. apply list_elem_of_fmap in Hin as (s' & Hid & Hin).
  assert (stepById r !! sj_id s = Some s') as Hs' by (apply Hreg; auto).
  congruence.
Qed.

Lemma registerSteps_spec l : forall r,
  registered r ->
  (NoDup (sj_id <$> (sortedSteps r ++ l)) ->
   exists r', registerSteps l r = Ret r' /\ registered r' /\
              sortedSteps r' = sortedSteps r ++ l)
  /\ (~ NoDup (sj_id <$> (sortedSteps r ++ l)) ->
      NoDup (sj_id <$> sortedSteps r) -> throws (registerSteps l r)).
Proof.
  induction l as [|s l IH]; intros r Hreg.
  - rewrite app_nil_r. split; [|tauto]. intros _. exists r. auto.
  - simpl. destruct (stepById r !! sj_id s) as [s0|] eqn:Hlk.
    + split; [|intros; exact I].
      intros Hnd. exfalso. apply Hreg in Hlk as [Hin Hid].
      rewrite fmap_app in Hnd. apply NoDup_app in Hnd as (_ & Hdisj & _).
      apply (Hdisj (sj_id s)).
      * rewrite <- Hid. apply list_elem_of_fmap_2, Hin.
      * simpl. left.
    + pose proof (registered_push r s Hreg Hlk) as Hreg1.
      destruct (IH _ Hreg1) as [Hok Hbad]. simpl in Hok, Hbad.
      rewrite <- app_assoc in Hok, Hbad. simpl in Hok, Hbad.
      split; [exact Hok|].
      intros Hnd Hold. apply Hbad; [exact Hnd|].
      rewrite fmap_app. apply NoDup_app. split; [exact Hold|]. split.
      * intros x Hx Hx'. simpl in Hx'. apply list_elem_of_singleton in Hx' as ->.
        exact (registered_fresh r s Hreg Hlk Hx).
      * simpl. apply NoDup_singleton.
Qed.

Lemma registersAll_registerSteps l : registersAll (registerSteps l) l.
Proof.
  intros r Hreg. destruct (registerSteps_spec l r Hreg) as [Hok Hbad].
  split; [|exact Hbad].
  intros Hnd. destruct (Hok Hnd) as (r' & Hr' & Hreg' & Hs).
  exists r', l. auto.
Qed.

Lemma registersAll_perm f A B : A ≡ₚ B -> registersAll f A -> registersAll f B.
Proof.
  intros HAB Hf r Hreg. destruct (Hf r Hreg) as [Hok Hbad].
  split.
  - intros Hnd. rewrite <- HAB in Hnd.
    destruct (Hok Hnd) as (r' & l & Hr' & Hreg' & Hs & Hl).
    exists r', l. rewrite <- HAB. auto.
  - intros Hnd. apply Hbad. rewrite HAB. exact Hnd.
Qed.

Lemma registersAll_seq f g A B :
  registersAll f A -> registersAll g B ->
  registersAll (fun r => r' ← f r; g r') (A ++ B).
Proof.
  intros Hf Hg r Hreg. destruct (Hf r Hreg) as [Hfok Hfbad].
  assert (Hstep : NoDup (sj_id <$> (sortedSteps r ++ A)) ->
            exists r1 l1, f r = Ret r1 /\ registered r1 /\
              sortedSteps r1 = sortedSteps r ++ l1 /\ l1 ≡ₚ A /\
              (NoDup (sj_id <$> (sortedSteps r1 ++ B)) <->
               NoDup (sj_id <$> (sortedSteps r ++ A ++ B))) /\
              NoDup (sj_id <$> sortedSteps r1)).
  { intros Hnd. destruct (Hfok Hnd) as (r1 & l1 & Hr1 & Hreg1 & Hs1 & Hl1).
    exists r1, l1.
    split; [exact Hr1|]. split; [exact Hreg1|]. split; [exact Hs1|].
    split; [exact Hl1|]. split.
    - rewrite Hs1, Hl1, <- app_assoc. reflexivity.
    - rewrite Hs1, Hl1. exact Hnd. }
  split.
  - intros Hnd.
    assert (HndA : NoDup (sj_id <$> (sortedSteps r ++ A))).
    { rewrite app_assoc, fmap_app in Hnd. apply NoDup_app in Hnd. tauto. }
    destruct (Hstep HndA) as (r1 & l1 & Hr1 & Hreg1 & Hs1 & Hl1 & Hiff & _).
    destruct (Hg r1 Hreg1) as [Hgok _].
    destruct (Hgok (proj2 Hiff Hnd)) as (r2 & l2 & Hr2 & Hreg2 & Hs2 & Hl2).
    exists r2, (l1 ++ l2). rewrite Hr1. simpl. rewrite Hr2.
    split; [reflexivity|]. split; [exact Hreg2|]. split.
    + rewrite Hs2, Hs1, <- app_assoc. reflexivity.
    + rewrite Hl1, Hl2. reflexivity.
  - intros Hnd Hold.
    destruct (decide (NoDup (sj_id <$> (sortedSteps r ++ A)))) as [HndA|HndA].
    + destruct (Hstep HndA) as (r1 & l1 & Hr1 & Hreg1 & Hs1 & Hl1 & Hiff & Hnd1).
      destruct (Hg r1 Hreg1) as [_ Hgbad].
      rewrite Hr1. simpl. apply Hgbad; [|exact Hnd1].
      intros H. apply Hnd, Hiff, H.
    + specialize (Hfbad HndA Hold). destruct (f r); [destruct Hfbad|exact I].
Qed.

Lemma registersAll_ext f g A :
  (forall r, f r = g r) -> registersAll f A -> registersAll g A.
Proof.
  intros Hfg Hf r Hreg. rewrite <- Hfg. apply Hf, Hreg.
Qed.

Lemma registersAll_children cs :
  Forall (fun c => registersAll (extractSteps c) (allSteps c)) cs ->
  registersAll (extractChildren cs) (flat_map allSteps cs).
Proof.
  induction 1 as [|c cs Hc _ IH].
  - intros r Hreg. simpl. rewrite app_nil_r. split; [|tauto].
    intros _. exists r, []. rewrite app_nil_r. auto.
  - simpl flat_map.
    apply (registersAll_ext (fun r => r' ← extractSteps c r; extractChildren cs r'));
      [reflexivity|].
    apply registersAll_seq; assumption.
Qed.

Lemma registersAll_extractSteps b : registersAll (extractSteps b) (allSteps b).
Proof.
  induction b as [id steps children IH] using bucketJSON_tree_ind.
  rewrite allSteps_unfold.
  pose proof (registersAll_seq _ _ _ _
                (registersAll_perm _ _ _ (sortSteps_perm steps)
                   (registersAll_registerSteps (sortSteps steps)))
                (registersAll_children children IH)) as Hseq.
  intros r Hreg. rewrite extractSteps_unfold.
  apply (Hseq (mkRegistry (stepById r)
                 (<[id := BucketJSON id steps children]> (layerPlanById r))
                 (dependentsByStepId r) (sortedSteps r))).
  exact Hreg.
Qed.

(** A step id found in two places of a list of buckets is found twice in the
    steps of all of them. *)
Lemma shared_id_not_NoDup (bs : list bucketJSON) : forall i j b1 b2 s1 s2,
  i <> j -> bs !! i = Some b1 -> bs !! j = Some b2 ->
  s1 ∈ bucketSteps b1 -> s2 ∈ bucketSteps b2 -> sj_id s1 = sj_id s2 ->
  ~ NoDup (sj_id <$> flat_map bucketSteps bs).
Proof.
  assert (Hin : forall (l : list bucketJSON) k b s,
             l !! k = Some b -> s ∈ bucketSteps b ->
             sj_id s ∈ sj_id <$> flat_map bucketSteps l).
  { intros l k b s Hk Hs. apply list_elem_of_fmap_2, list_elem_of_In, in_flat_map.
    exists b. split; apply list_elem_of_In; [|exact Hs].
    apply list_elem_of_lookup. eauto. }
  induction bs as [|b bs IH]; intros i j b1 b2 s1 s2 Hij Hi Hj H1 H2 Hid Hnd;
    [discriminate|].
  simpl in Hnd. rewrite fmap_app in Hnd. apply NoDup_app in Hnd as (_ & Hdisj & Hrest).
  destruct i as [|i], j as [|j]; simpl in Hi, Hj.
  - congruence.
  - injection Hi as ->. apply (Hdisj (sj_id s1)).
    + apply list_elem_of_fmap_2, H1.
    + rewrite Hid. eapply Hin; eauto.
  - injection Hj as ->. apply (Hdisj (sj_id s2)).
    + apply list_elem_of_fmap_2, H2.
    + rewrite <- Hid. eapply Hin; eauto.
  - apply (IH i j b1 b2 s1 s2); auto.
Qed.

(** C9: when a step id is found in the steps of two distinct buckets of the
    plan, [planToMermaid] throws. When the ids of the steps of all buckets are
    pairwise distinct, the traversal succeeds and registers each step exactly
    once: [sortedSteps] is a rearrangement of the steps of the plan and
    [stepById] maps the id of each of them to it. *)
Theorem C9_steps_registered_once plan :
  (forall i j b1 b2 s1 s2,
     i <> j ->
     buckets (rootBucket plan) !! i = Some b1 ->
     buckets (rootBucket plan) !! j = Some b2 ->
     s1 ∈ bucketSteps b1 -> s2 ∈ bucketSteps b2 -> sj_id s1 = sj_id s2 ->
     throws (planToMermaid plan))
  /\ (version plan = "v1" ->
      NoDup (sj_id <$> allSteps (rootBucket plan)) ->
      exists r, planToMermaid plan = Ret r /\
                sortedSteps r ≡ₚ allSteps (rootBucket plan) /\
                forall s, s ∈ allSteps (rootBucket plan) ->
                          stepById r !! sj_id s = Some s).
Proof.
  destruct (registersAll_extractSteps (rootBucket plan) emptyRegistry registered_empty)
    as [Hok Hbad]. simpl in Hok, Hbad.
  split.
  - intros i j b1 b2 s1 s2 Hij Hi Hj H1 H2 Hid.
    unfold planToMermaid. destruct (negb _); [exact I|].
    apply Hbad; [|constructor].
    exact (shared_id_not_NoDup _ i j b1 b2 s1 s2 Hij Hi Hj H1 H2 Hid).
  - intros Hv Hnd. unfold planToMermaid. rewrite Hv. simpl.
    destruct (Hok Hnd) as (r & l & Hr & Hreg & Hs & Hl).
    exists r. split; [exact Hr|]. simpl in Hs. subst l. split; [exact Hl|].
    intros s Hin. apply Hreg. split; [|reflexivity].
    rewrite Hl. exact Hin.
Qed.

Lemma C9_steps_registered_once_witness :
  throws (planToMermaid
            (mkPlanJSON "v1"
               (BucketJSON 0 [mkStepJSON 1 "ConstantStep" "0" []]
                  [BucketJSON 1 [mkStepJSON 1 "AccessStep" "0.a" [1%N]] []])))
  /\ exists r,
       planToMermaid
         (mkPlanJSON "v1"
            (BucketJSON 0 [mkStepJSON 1 "ConstantStep" "0" []]
               [BucketJSON 1 [mkStepJSON 2 "AccessStep" "0.a" [1%N]] []])) = Ret r /\
       sortedSteps r ≡ₚ [mkStepJSON 1 "ConstantStep" "0" [];
                         mkStepJSON 2 "AccessStep" "0.a" [1%N]] /\
       forall s, s ∈ [mkStepJSON 1 "ConstantStep" "0" [];
                      mkStepJSON 2 "AccessStep" "0.a" [1%N]] ->
                 stepById r !! sj_id s = Some s.
Proof.
  split.
  - apply (proj1 (C9_steps_registered_once _) 0 1
             (BucketJSON 0 [mkStepJSON 1 "ConstantStep" "0" []]
                [BucketJSON 1 [mkStepJSON 1 "AccessStep" "0.a" [1%N]] []])
             (BucketJSON 1 [mkStepJSON 1 "AccessStep" "0.a" [1%N]] [])
             (mkStepJSON 1 "ConstantStep" "0" [])
             (mkStepJSON 1 "AccessStep" "0.a" [1%N])).
    + discriminate.
    + reflexivity.
    + reflexivity.
    + simpl. left.
    + simpl. left.
    + reflexivity.
  - apply (proj2 (C9_steps_registered_once
                    (mkPlanJSON "v1"
                       (BucketJSON 0 [mkStepJSON 1 "ConstantStep" "0" []]
                          [BucketJSON 1 [mkStepJSON 2 "AccessStep" "0.a" [1%N]] []])))).
    + reflexivity.
    + simpl. apply NoDup_cons. split; [|apply NoDup_singleton].
      intros H. apply list_elem_of_singleton in H. discriminate H.
Defined.

(** ** The caches of the accessor compiler *)

Lemma called_foldl_invoke {A} (g : A -> nat) (h : A -> fn) l : forall st,
  foldl (fun s x => invoke (g x) (h x) s) st l =
    mkState (makeDestructureHyperCache st) (makingDestructureHyperCache st)
            (makeDestructureCache st) (makingDestructureCache st)
            (hyperCallbacks st) (factoryCallbacks st) (nextArray st)
            (batch st) (requested st)
            (called st ++ ((fun x => (g x, h x)) <$> l)).
Proof.
  induction l as [|x l IH]; intros st; simpl.
  - rewrite app_nil_r. destruct st; reflexivity.
  - rewrite IH. simpl. rewrite <- app_assoc. reflexivity.
Qed.

Lemma lruFind_remove s k c :
  lruFind s c = None -> lruFind s (lruRemove k c) = None.
Proof.
  unfold lruFind, lruRemove. induction c as [|[k' v] c IH]; simpl; [auto|].
  destruct (String.eqb k' s) eqn:Hs; simpl; [discriminate|].
  intros H. destruct (negb (String.eqb k' k)); simpl; [rewrite Hs|]; auto.
Qed.

Lemma lruFind_take s n : forall c,
  lruFind s c = None -> lruFind s (take n c) = None.
Proof.
  unfold lruFind. induction n as [|n IH]; intros [|[k v] c]; simpl; auto.
  destruct (String.eqb k s); simpl; [discriminate|]. apply IH.
Qed.

Lemma lruFind_set_ne s k v c :
  s <> k -> lruFind s c = None -> lruFind s (lruSet k v c) = None.
Proof.
  intros Hne Hc. unfold lruSet. apply lruFind_take.
  unfold lruFind. simpl.
  destruct (String.eqb k s) eqn:Hs; [apply String.eqb_eq in Hs; congruence|].
  apply lruFind_remove, Hc.
Qed.

Lemma lruFind_set_eq k v c : lruFind k (lruSet k v c) = Some v.
Proof.
  unfold lruSet, lruFind, maxLength. simpl. rewrite String.eqb_refl. reflexivity.
Qed.

Lemma lruGet_miss k c : lruFind k c = None -> lruGet k c = (None, c).
Proof. unfold lruGet. intros ->. reflexivity. Qed.

Lemma lruFind_get s k c :
  lruFind s c = None -> lruFind s (snd (lruGet k c)) = None.
Proof.
  intros Hs. unfold lruGet. destruct (lruFind k c) as [v|] eqn:Hk; simpl; [|exact Hs].
  unfold lruFind. simpl.
  destruct (String.eqb k s) eqn:E; [apply String.eqb_eq in E; congruence|].
  apply lruFind_remove, Hs.
Qed.

Lemma filter_delete_false {A} (P : A -> bool) l i x :
  l !! i = Some x -> P x = false -> List.filter P (delete i l) = List.filter P l.
Proof.
  intros Hi Hx. rewrite delete_take_drop.
  rewrite <- (take_drop_middle l i x Hi) at 3.
  rewrite !List.filter_app. simpl. rewrite Hx. reflexivity.
Qed.

Lemma filter_delete_single {A} (P : A -> bool) l i x y :
  l !! i = Some x -> P x = true -> List.filter P l = [y] ->
  x = y /\ List.filter P (delete i l) = [].
Proof.
  intros Hi Hx Hl. rewrite delete_take_drop.
  rewrite <- (take_drop_middle l i x Hi) in Hl.
  rewrite List.filter_app in Hl. simpl in Hl. rewrite Hx in Hl.
  rewrite List.filter_app.
  destruct (List.filter P (take i l)) as [|a l1]; simpl in *.
  - injection Hl as -> Hl. rewrite Hl. auto.
  - injection Hl as -> Hl. destruct l1; discriminate.
Qed.

Lemma coherent_initial : coherent initialState.
Proof.
  unfold coherent, initialState. simpl.
  repeat split; intros; try rewrite lookup_empty in *; try discriminate; reflexivity.
Qed.

Lemma coherent_same st st' :
  makeDestructureHyperCache st' = makeDestructureHyperCache st ->
  makingDestructureHyperCache st' = makingDestructureHyperCache st ->
  makeDestructureCache st' = makeDestructureCache st ->
  makingDestructureCache st' = makingDestructureCache st ->
  (forall a, is_Some (hyperCallbacks st !! a) -> is_Some (hyperCallbacks st' !! a)) ->
  (forall a, is_Some (factoryCallbacks st !! a) -> is_Some (factoryCallbacks st' !! a)) ->
  batch st' = batch st ->
  coherent st -> coherent st'.
Proof.
  intros E1 E2 E3 E4 H1 H2 E5 (A & B & C & D).
  unfold coherent. rewrite E1, E2, E3, E4, E5.
  split; [|split; [exact B|split; [|exact D]]].
  - intros s m Hs. destruct (A s m Hs) as (Ha & Hb & Hc). auto.
  - intros s m Hs. destruct (C s m Hs) as (Ha & Hb & Hc). auto.
Qed.

Lemma is_Some_alter {A} (f : A -> A) (m : gmap nat A) i j :
  is_Some (m !! j) -> is_Some (alter f i m !! j).
Proof.
  intros [x Hx]. destruct (decide (i = j)) as [->|Hne].
  - rewrite lookup_alter_eq, Hx. simpl. eauto.
  - rewrite lookup_alter_ne by exact Hne. eauto.
Qed.

Lemma is_Some_insert {A} (x : A) (m : gmap nat A) i j :
  is_Some (m !! j) -> is_Some (<[i := x]> m !! j).
Proof.
  intros [y Hy]. destruct (decide (i = j)) as [->|Hne].
  - rewrite lookup_insert_eq. eauto.
  - rewrite lookup_insert_ne by exact Hne. eauto.
Qed.

Lemma coherent_invoke callback f st : coherent st -> coherent (invoke callback f st).
Proof. apply coherent_same; auto. Qed.

Lemma coherent_pushHyper making callback st :
  coherent st -> coherent (pushHyperCallback making callback st).
Proof. apply coherent_same; auto. intros a. apply is_Some_alter. Qed.

Lemma coherent_pushFactory callbacks entry st :
  coherent st -> coherent (pushFactoryCallback callbacks entry st).
Proof. apply coherent_same; auto. intros a. apply is_Some_alter. Qed.

Lemma coherent_hoist k st :
  coherent st ->
  coherent (setHyperCache (snd (lruGet k (makeDestructureHyperCache st))) st).
Proof.
  intros (A & B & C & D). unfold coherent. simpl.
  split; [|auto]. intros s m Hs. destruct (A s m Hs) as (Ha & Hb & Hc).
  split; [apply lruFind_get, Ha|auto].
Qed.


Lemma factoryJobsFor_accessor s b body detail sig m :
  factoryJobsFor s (b ++ [AccessorJob body detail sig m]) = factoryJobsFor s b.
Proof. unfold factoryJobsFor. rewrite List.filter_app. simpl. apply app_nil_r. Qed.

Lemma accessorJobsFor_factory s b params body sig m :
  accessorJobsFor s (b ++ [FactoryJob params body sig m]) = accessorJobsFor s b.
Proof. unfold accessorJobsFor. rewrite List.filter_app. simpl. apply app_nil_r. Qed.

Lemma accessorJobsFor_accessor s b body detail sig m :
  accessorJobsFor s (b ++ [AccessorJob body detail sig m]) =
    accessorJobsFor s b ++ (if String.eqb sig s then [AccessorJob body detail sig m] else []).
Proof. unfold accessorJobsFor. rewrite List.filter_app. simpl. destruct (String.eqb sig s); reflexivity. Qed.

Lemma factoryJobsFor_factory s b params body sig m :
  factoryJobsFor s (b ++ [FactoryJob params body sig m]) =
    factoryJobsFor s b ++ (if String.eqb sig s then [FactoryJob params body sig m] else []).
Proof. unfold factoryJobsFor. rewrite List.filter_app. simpl. destruct (String.eqb sig s); reflexivity. Qed.

Lemma coherent_startMaking sig entry params body st :
  coherent st ->
  makeDestructureCache st !! sig = None ->
  makingDestructureCache st !! sig = None ->
  coherent (runInBatch (FactoryJob params body sig (nextArray st))
                       (startMaking sig entry st)).
Proof.
  intros (A & B & C & D) Hc Hm. unfold coherent. simpl.
  split; [|split; [|split]].
  - intros s m Hs. rewrite accessorJobsFor_factory. apply A, Hs.
  - intros s Hs. rewrite accessorJobsFor_factory. apply B, Hs.
  - intros s m Hs. rewrite factoryJobsFor_factory.
    destruct (decide (sig = s)) as [<-|Hne].
    + rewrite lookup_insert_eq in Hs. injection Hs as <-.
      rewrite lookup_insert_eq, String.eqb_refl, (D sig Hm). eauto.
    + rewrite lookup_insert_ne in Hs by exact Hne.
      destruct (C s m Hs) as (Ha & Hb & Hd).
      apply String.eqb_neq in Hne. rewrite Hne, app_nil_r.
      split; [exact Ha|]. split; [apply is_Some_insert, Hb|exact Hd].
  - intros s Hs. rewrite factoryJobsFor_factory.
    destruct (decide (sig = s)) as [<-|Hne].
    + rewrite lookup_insert_eq in Hs. discriminate.
    + rewrite lookup_insert_ne in Hs by exact Hne.
      apply String.eqb_neq in Hne. rewrite Hne, app_nil_r. apply D, Hs.
Qed.

Lemma coherent_startMakingHyper sig callback body detail st :
  coherent st ->
  lruFind sig (makeDestructureHyperCache st) = None ->
  makingDestructureHyperCache st !! sig = None ->
  coherent (runInBatch (AccessorJob body detail sig (nextArray st))
                       (startMakingHyper sig callback st)).
Proof.
  intros (A & B & C & D) Hc Hm. unfold coherent. simpl.
  split; [|split; [|split]].
  - intros s m Hs. rewrite accessorJobsFor_accessor.
    destruct (decide (sig = s)) as [<-|Hne].
    + rewrite lookup_insert_eq in Hs. injection Hs as <-.
      rewrite lookup_insert_eq, String.eqb_refl, (B sig Hm). eauto.
    + rewrite lookup_insert_ne in Hs by exact Hne.
      destruct (A s m Hs) as (Ha & Hb & Hd).
      apply String.eqb_neq in Hne. rewrite Hne, app_nil_r.
      split; [exact Ha|]. split; [apply is_Some_insert, Hb|exact Hd].
  - intros s Hs. rewrite accessorJobsFor_accessor.
    destruct (decide (sig = s)) as [<-|Hne].
    + rewrite lookup_insert_eq in Hs. discriminate.
    + rewrite lookup_insert_ne in Hs by exact Hne.
      apply String.eqb_neq in Hne. rewrite Hne, app_nil_r. apply B, Hs.
  - intros s m Hs. rewrite factoryJobsFor_accessor. apply C, Hs.
  - intros s Hs. rewrite factoryJobsFor_accessor. apply D, Hs.
Qed.

Lemma coherent_done sig arr f st :
  coherent (mkState (makeDestructureHyperCache st)
                    (delete sig (makingDestructureHyperCache st))
                    (makeDestructureCache st) (makingDestructureCache st)
                    (hyperCallbacks st) (factoryCallbacks st) (nextArray st)
                    (batch st) (requested st) (called st)) ->
  coherent (done sig arr f st).
Proof.
  intros (A & B & C & D). unfold done.
  rewrite (called_foldl_invoke (fun cb => cb) (fun _ => f)).
  unfold coherent in *. simpl in *.
  split; [|auto]. intros s m Hs. destruct (A s m Hs) as (Ha & Hb & Hc).
  split; [|auto]. apply lruFind_set_ne; [|exact Ha].
  intros ->. rewrite lookup_delete_eq in Hs. discriminate.
Qed.

Lemma coherent_factoryDone sig arr factory st :
  coherent (mkState (makeDestructureHyperCache st) (makingDestructureHyperCache st)
                    (makeDestructureCache st)
                    (delete sig (makingDestructureCache st))
                    (hyperCallbacks st) (factoryCallbacks st) (nextArray st)
                    (batch st) (requested st) (called st)) ->
  coherent (factoryDone sig arr factory st).
Proof.
  intros (A & B & C & D). unfold factoryDone.
  rewrite (called_foldl_invoke fst (fun e => plainFn (callFactory factory (snd e)))).
  unfold coherent in *. simpl in *.
  split; [exact A|]. split; [exact B|]. split; [|exact D].
  intros s m Hs. destruct (C s m Hs) as (Ha & Hb & Hc).
  split; [|auto]. rewrite lookup_insert_ne; [exact Ha|].
  intros ->. rewrite lookup_delete_eq in Hs. discriminate.
Qed.

(** The turbo tier's synchronous completion, for paths of length 1 and 2. *)
Lemma coherent_done_now sig callback f st :
  coherent st ->
  makingDestructureHyperCache st !! sig = None ->
  coherent (done sig (nextArray st) f (startMakingHyper sig callback st)).
Proof.
  intros (A & B & C & D) Hm. apply coherent_done. simpl.
  rewrite delete_insert_id by exact Hm.
  unfold coherent. simpl. split; [|split; [exact B|split; [exact C|exact D]]].
  intros s m Hs. destruct (A s m Hs) as (Ha & Hb & Hc).
  split; [exact Ha|]. split; [apply is_Some_insert, Hb|exact Hc].
Qed.

Lemma request_coherent path fallback callback st st' :
  coherent st ->
  constructDestructureFunction path fallback callback st = Ret st' ->
  coherent st'.
Proof.
  intros Hco. unfold constructDestructureFunction.
  destruct (selectMode path) as [m|e]; simpl; [|discriminate].
  destruct m.
  - intros [= <-]. apply coherent_invoke, Hco.
  - destruct (makeDestructureCache st !! _) as [factory|] eqn:Hc.
    + intros [= <-]. apply coherent_invoke, Hco.
    + destruct (makingDestructureCache st !! _) as [callbacks|] eqn:Hm.
      * intros [= <-]. apply coherent_pushFactory, Hco.
      * intros [= <-]. apply coherent_startMaking; assumption.
  - destruct (join "|" path) as [sig|e]; simpl; [|discriminate].
    pose proof (coherent_hoist sig st Hco) as Hco1.
    destruct (lruFind sig (makeDestructureHyperCache st)) as [f|] eqn:Hf.
    + unfold lruGet in *. rewrite Hf in *. simpl in *.
      intros [= <-]. apply coherent_invoke, Hco1.
    + rewrite (lruGet_miss _ _ Hf) in *. simpl in *.
      destruct (makingDestructureHyperCache st !! sig) as [making|] eqn:Hm.
      * intros [= <-]. apply coherent_pushHyper, Hco1.
      * destruct path as [|k1 [|k2 [|k3 rest]]]; intros [= <-].
        -- apply (coherent_startMakingHyper sig callback _ _ _ Hco1); assumption.
        -- apply (coherent_done_now sig callback _ _ Hco1); assumption.
        -- apply (coherent_done_now sig callback _ _ Hco1); assumption.
        -- apply (coherent_startMakingHyper sig callback _ _ _ Hco1); assumption.
Qed.

Lemma accessorJob_in_progress st i body detail sig arr :
  coherent st ->
  batch st !! i = Some (AccessorJob body detail sig arr) ->
  makingDestructureHyperCache st !! sig = Some arr /\
  accessorJobsFor sig (batch st) = [AccessorJob body detail sig arr].
Proof.
  intros (A & B & _) Hi.
  assert (Hin : In (AccessorJob body detail sig arr) (accessorJobsFor sig (batch st))).
  { apply filter_In. split.
    - apply list_elem_of_In, list_elem_of_lookup. eauto.
    - apply String.eqb_refl. }
  destruct (makingDestructureHyperCache st !! sig) as [m|] eqn:Hm.
  - destruct (A sig m Hm) as (_ & _ & b' & d' & Hjobs).
    rewrite Hjobs in Hin. destruct Hin as [Heq|[]].
    injection Heq as -> -> ->. auto.
  - rewrite (B sig Hm) in Hin. destruct Hin.
Qed.

Lemma factoryJob_in_progress st i params body sig arr :
  coherent st ->
  batch st !! i = Some (FactoryJob params body sig arr) ->
  makingDestructureCache st !! sig = Some arr /\
  factoryJobsFor sig (batch st) = [FactoryJob params body sig arr].
Proof.
  intros (_ & _ & C & D) Hi.
  assert (Hin : In (FactoryJob params body sig arr) (factoryJobsFor sig (batch st))).
  { apply filter_In. split.
    - apply list_elem_of_In, list_elem_of_lookup. eauto.
    - apply String.eqb_refl. }
  destruct (makingDestructureCache st !! sig) as [m|] eqn:Hm.
  - destruct (C sig m Hm) as (_ & _ & p' & b' & Hjobs).
    rewrite Hjobs in Hin. destruct Hin as [Heq|[]].
    injection Heq as -> -> ->. auto.
  - rewrite (D sig Hm) in Hin. destruct Hin.
Qed.

Lemma complete_coherent i st : coherent st -> coherent (completeJob i st).
Proof.
  intros Hco. unfold completeJob.
  destruct (batch st !! i) as [[params body sig arr|body detail sig arr]|] eqn:Hi;
    [| |exact Hco].
  - destruct (factoryJob_in_progress st i _ _ _ _ Hco Hi) as [Hm Hjobs].
    destruct Hco as (A & B & C & D).
    apply coherent_factoryDone. unfold coherent. simpl.
    split; [|split; [|split]].
    + intros s m Hs. unfold accessorJobsFor.
      rewrite (filter_delete_false _ _ _ _ Hi) by reflexivity. apply A, Hs.
    + intros s Hs. unfold accessorJobsFor.
      rewrite (filter_delete_false _ _ _ _ Hi) by reflexivity. apply B, Hs.
    + intros s m Hs. destruct (decide (sig = s)) as [<-|Hne].
      * rewrite lookup_delete_eq in Hs. discriminate.
      * rewrite lookup_delete_ne in Hs by exact Hne.
        unfold factoryJobsFor. rewrite (filter_delete_false _ _ _ _ Hi).
        -- apply C, Hs.
        -- simpl. apply String.eqb_neq, Hne.
    + intros s Hs. destruct (decide (sig = s)) as [<-|Hne].
      * unfold factoryJobsFor in *.
        apply (filter_delete_single _ _ _ _ _ Hi (String.eqb_refl sig) Hjobs).
      * rewrite lookup_delete_ne in Hs by exact Hne.
        unfold factoryJobsFor. rewrite (filter_delete_false _ _ _ _ Hi).
        -- apply D, Hs.
        -- simpl. apply String.eqb_neq, Hne.
  - destruct (accessorJob_in_progress st i _ _ _ _ Hco Hi) as [Hm Hjobs].
    destruct Hco as (A & B & C & D).
    apply coherent_done. unfold coherent. simpl.
    split; [|split; [|split]].
    + intros s m Hs. destruct (decide (sig = s)) as [<-|Hne].
      * rewrite lookup_delete_eq in Hs. discriminate.
      * rewrite lookup_delete_ne in Hs by exact Hne.
        unfold accessorJobsFor. rewrite (filter_delete_false _ _ _ _ Hi).
        -- apply A, Hs.
        -- simpl. apply String.eqb_neq, Hne.
    + intros s Hs. destruct (decide (sig = s)) as [<-|Hne].
      * unfold accessorJobsFor in *.
        apply (filter_delete_single _ _ _ _ _ Hi (String.eqb_refl sig) Hjobs).
      * rewrite lookup_delete_ne in Hs by exact Hne.
        unfold accessorJobsFor. rewrite (filter_delete_false _ _ _ _ Hi).
        -- apply B, Hs.
        -- simpl. apply String.eqb_neq, Hne.
    + intros s m Hs. unfold factoryJobsFor.
      rewrite (filter_delete_false _ _ _ _ Hi) by reflexivity. apply C, Hs.
    + intros s Hs. unfold factoryJobsFor.
      rewrite (filter_delete_false _ _ _ _ Hi) by reflexivity. apply D, Hs.
Qed.

Lemma reachable_coherent st : reachable st -> coherent st.
Proof.
  induction 1 as [|path fallback callback st st' _ IH Hreq|i st _ IH].
  - apply coherent_initial.
  - exact (request_coherent _ _ _ _ _ IH Hreq).
  - apply complete_coherent, IH.
Qed.





Lemma separated_initial : separated initialState.
Proof.
  unfold separated, initialState. simpl.
  repeat split; intros *; rewrite lookup_empty; discriminate.
Qed.

Lemma separated_same st st' :
  makingDestructureHyperCache st' = makingDestructureHyperCache st ->
  makingDestructureCache st' = makingDestructureCache st ->
  nextArray st' = nextArray st ->
  separated st -> separated st'.
Proof. unfold separated. intros -> -> ->. auto. Qed.

Lemma separated_delete_hyper sig st c h f b r k :
  separated st ->
  separated (mkState c (delete sig (makingDestructureHyperCache st))
                     (makeDestructureCache st) (makingDestructureCache st)
                     h f (nextArray st) b r k).
Proof.
  intros (A & B & C & D). unfold separated. simpl.
  split; [|split; [|split; [exact C|exact D]]].
  - intros s m Hs. apply lookup_delete_Some in Hs as [_ Hs]. eauto.
  - intros s1 s2 m H1 H2. apply lookup_delete_Some in H1 as [_ H1].
    apply lookup_delete_Some in H2 as [_ H2]. eauto.
Qed.

Lemma separated_delete_factory sig st c mc h f b r k :
  separated st ->
  separated (mkState c (makingDestructureHyperCache st)
                     mc (delete sig (makingDestructureCache st))
                     h f (nextArray st) b r k).
Proof.
  intros (A & B & C & D). unfold separated. simpl.
  split; [exact A|split; [exact B|split]].
  - intros s m Hs. apply lookup_delete_Some in Hs as [_ Hs]. eauto.
  - intros s1 s2 m H1 H2. apply lookup_delete_Some in H1 as [_ H1].
    apply lookup_delete_Some in H2 as [_ H2]. eauto.
Qed.

Lemma separated_insert_hyper sig st c mc h f b r k :
  separated st ->
  separated (mkState c (<[sig := nextArray st]> (makingDestructureHyperCache st))
                     mc (makingDestructureCache st)
                     h f (S (nextArray st)) b r k).
Proof.
  intros (A & B & C & D). unfold separated. simpl.
  split; [|split; [|split]].
  - intros s m Hs. apply lookup_insert_Some in Hs as [[_ <-]|[_ Hs]]; [lia|].
    specialize (A _ _ Hs). lia.
  - intros s1 s2 m H1 H2.
    apply lookup_insert_Some in H1 as [[<- <-]|[N1 H1]];
      apply lookup_insert_Some in H2 as [[<- E]|[N2 H2]]; try reflexivity.
    + specialize (A _ _ H2). lia.
    + specialize (A _ _ H1). lia.
    + eauto.
  - intros s m Hs. specialize (C _ _ Hs). lia.
  - exact D.
Qed.

Lemma separated_insert_factory sig st c mc h f b r k :
  separated st ->
  separated (mkState c (makingDestructureHyperCache st)
                     mc (<[sig := nextArray st]> (makingDestructureCache st))
                     h f (S (nextArray st)) b r k).
Proof.
  intros (A & B & C & D). unfold separated. simpl.
  split; [|split; [|split]].
  - intros s m Hs. specialize (A _ _ Hs). lia.
  - exact B.
  - intros s m Hs. apply lookup_insert_Some in Hs as [[_ <-]|[_ Hs]]; [lia|].
    specialize (C _ _ Hs). lia.
  - intros s1 s2 m H1 H2.
    apply lookup_insert_Some in H1 as [[<- <-]|[N1 H1]];
      apply lookup_insert_Some in H2 as [[<- E]|[N2 H2]]; try reflexivity.
    + specialize (C _ _ H2). lia.
    + specialize (C _ _ H1). lia.
    + eauto.
Qed.

Lemma pendingHyper_eq st st' sig :
  makingDestructureHyperCache st' !! sig = makingDestructureHyperCache st !! sig ->
  (forall making, makingDestructureHyperCache st !! sig = Some making ->
                  hyperCallbacks st' !! making = hyperCallbacks st !! making) ->
  pendingHyper st' sig = pendingHyper st sig.
Proof.
  intros Hm Hh. unfold pendingHyper. rewrite Hm.
  destruct (makingDestructureHyperCache st !! sig) as [making|]; simpl; [|reflexivity].
  rewrite (Hh making eq_refl). reflexivity.
Qed.

Lemma pendingFactory_eq st st' sig :
  makingDestructureCache st' !! sig = makingDestructureCache st !! sig ->
  (forall making, makingDestructureCache st !! sig = Some making ->
                  factoryCallbacks st' !! making = factoryCallbacks st !! making) ->
  pendingFactory st' sig = pendingFactory st sig.
Proof.
  intros Hm Hh. unfold pendingFactory. rewrite Hm.
  destruct (makingDestructureCache st !! sig) as [making|]; simpl; [|reflexivity].
  rewrite (Hh making eq_refl). reflexivity.
Qed.

Lemma done_fields sig arr f st :
  makingDestructureHyperCache (done sig arr f st)
    = delete sig (makingDestructureHyperCache st) /\
  makingDestructureCache (done sig arr f st) = makingDestructureCache st /\
  hyperCallbacks (done sig arr f st) = hyperCallbacks st /\
  factoryCallbacks (done sig arr f st) = factoryCallbacks st /\
  nextArray (done sig arr f st) = nextArray st.
Proof.
  unfold done. rewrite (called_foldl_invoke (fun cb => cb) (fun _ => f)). simpl. auto.
Qed.

Lemma factoryDone_fields sig arr factory st :
  makingDestructureHyperCache (factoryDone sig arr factory st)
    = makingDestructureHyperCache st /\
  makingDestructureCache (factoryDone sig arr factory st)
    = delete sig (makingDestructureCache st) /\
  hyperCallbacks (factoryDone sig arr factory st) = hyperCallbacks st /\
  factoryCallbacks (factoryDone sig arr factory st) = factoryCallbacks st /\
  nextArray (factoryDone sig arr factory st) = nextArray st.
Proof.
  unfold factoryDone.
  rewrite (called_foldl_invoke fst (fun e => plainFn (callFactory factory (snd e)))).
  simpl. auto.
Qed.

Lemma separated_done sig arr f st : separated st -> separated (done sig arr f st).
Proof.
  intros H. destruct (done_fields sig arr f st) as (E1 & E2 & _ & _ & E5).
  pose proof (separated_delete_hyper sig st [] ∅ ∅ [] 0 [] H) as (A & B & C & D).
  unfold separated in *. simpl in *. rewrite E1, E2, E5. auto.
Qed.

Lemma separated_factoryDone sig arr factory st :
  separated st -> separated (factoryDone sig arr factory st).
Proof.
  intros H. destruct (factoryDone_fields sig arr factory st) as (E1 & E2 & _ & _ & E5).
  pose proof (separated_delete_factory sig st [] ∅ ∅ ∅ [] 0 [] H) as (A & B & C & D).
  unfold separated in *. simpl in *. rewrite E1, E2, E5. auto.
Qed.

Lemma request_separated path fallback callback st st' :
  separated st ->
  constructDestructureFunction path fallback callback st = Ret st' ->
  separated st'.
Proof.
  intros Hsep. unfold constructDestructureFunction.
  destruct (selectMode path) as [m|e]; simpl; [|discriminate].
  destruct m.
  - intros [= <-]. revert Hsep. apply separated_same; reflexivity.
  - destruct (makeDestructureCache st !! _) as [factory|].
    + intros [= <-]. revert Hsep. apply separated_same; reflexivity.
    + destruct (makingDestructureCache st !! _) as [callbacks|].
      * intros [= <-]. revert Hsep. apply separated_same; reflexivity.
      * intros [= <-]. apply (separated_insert_factory _ st), Hsep.
  - destruct (join "|" path) as [sig|e]; simpl; [|discriminate].
    destruct (fst (lruGet sig (makeDestructureHyperCache st))) as [f|].
    + intros [= <-]. revert Hsep. apply separated_same; reflexivity.
    + destruct (makingDestructureHyperCache st !! sig) as [making|].
      * intros [= <-]. revert Hsep. apply separated_same; reflexivity.
      * destruct path as [|k1 [|k2 [|k3 rest]]]; intros [= <-];
          try apply separated_done; apply (separated_insert_hyper _ st), Hsep.
Qed.

Lemma complete_separated i st : separated st -> separated (completeJob i st).
Proof.
  intros Hsep. unfold completeJob.
  destruct (batch st !! i) as [[params body sig arr|body detail sig arr]|]; [| |exact Hsep].
  - apply separated_factoryDone. revert Hsep. apply separated_same; reflexivity.
  - apply separated_done. revert Hsep. apply separated_same; reflexivity.
Qed.

Lemma reachable_separated st : reachable st -> separated st.
Proof.
  induction 1 as [|path fallback callback st st' _ IH Hreq|i st _ IH].
  - apply separated_initial.
  - exact (request_separated _ _ _ _ _ IH Hreq).
  - apply complete_separated, IH.
Qed.

Lemma pending_kept_by_request path fallback callback st st' sig making :
  separated st ->
  makingDestructureHyperCache st !! sig = Some making ->
  constructDestructureFunction path fallback callback st = Ret st' ->
  makingDestructureHyperCache st' !! sig = Some making /\
  pendingHyper st sig `prefix_of` pendingHyper st' sig.
Proof.
  intros (A & B & _) Hm. unfold constructDestructureFunction.
  assert (Hsame : forall st1,
            makingDestructureHyperCache st1 = makingDestructureHyperCache st ->
            hyperCallbacks st1 = hyperCallbacks st ->
            makingDestructureHyperCache st1 !! sig = Some making /\
            pendingHyper st sig `prefix_of` pendingHyper st1 sig).
  { intros st1 E1 E2. split; [rewrite E1; exact Hm|].
    rewrite (pendingHyper_eq st st1 sig); [reflexivity|rewrite E1; reflexivity|].
    intros; rewrite E2; reflexivity. }
  assert (Hnew : forall sig' c b r k,
            makingDestructureHyperCache st !! sig' = None ->
            let st1 := mkState c (<[sig' := nextArray st]> (makingDestructureHyperCache st))
                               (makeDestructureCache st) (makingDestructureCache st)
                               (<[nextArray st := [callback]]> (hyperCallbacks st))
                               (factoryCallbacks st) (S (nextArray st)) b r k in
            makingDestructureHyperCache st1 !! sig = Some making /\
            pendingHyper st1 sig = pendingHyper st sig).
  { intros sig' c b r k Hnone st1.
    assert (sig' <> sig) by congruence.
    assert (Hl : makingDestructureHyperCache st1 !! sig
                 = makingDestructureHyperCache st !! sig)
      by (simpl; apply lookup_insert_ne; assumption).
    split; [rewrite Hl; exact Hm|].
    apply pendingHyper_eq; [exact Hl|].
    intros m Hm'. simpl. apply lookup_insert_ne.
    specialize (A _ _ Hm'). lia. }
  destruct (selectMode path) as [m|e]; simpl; [|discriminate].
  destruct m.
  - intros [= <-]. apply Hsame; reflexivity.
  - destruct (makeDestructureCache st !! _) as [factory|].
    + intros [= <-]. apply Hsame; reflexivity.
    + destruct (makingDestructureCache st !! _) as [callbacks|];
        intros [= <-]; apply Hsame; reflexivity.
  - destruct (join "|" path) as [sig'|e]; simpl; [|discriminate].
    destruct (fst (lruGet sig' (makeDestructureHyperCache st))) as [f|].
    + intros [= <-]. apply Hsame; reflexivity.
    + destruct (makingDestructureHyperCache st !! sig') as [making'|] eqn:Hm'.
      * intros [= <-]. simpl. split; [exact Hm|].
        unfold pendingHyper. simpl. rewrite Hm. simpl.
        destruct (decide (making' = making)) as [->|Hne].
        -- rewrite lookup_alter_eq.
           destruct (hyperCallbacks st !! making) as [l|]; simpl;
             [apply prefix_app_r|]; reflexivity.
        -- rewrite lookup_alter_ne by exact Hne. reflexivity.
      * destruct path as [|k1 [|k2 [|k3 rest]]]; intros [= <-].
        -- destruct (Hnew sig' (snd (lruGet sig' (makeDestructureHyperCache st)))
                       (batch st) (requested st) (called st) Hm') as [H1 H2].
           split; [exact H1|]. unfold pendingHyper in *. simpl in *.
           rewrite H2. reflexivity.
        -- match goal with
           | |- context [done ?s ?a ?f ?x] =>
               destruct (done_fields s a f x) as (E1 & _ & E3 & _)
           end.
           destruct (Hnew sig' (snd (lruGet sig' (makeDestructureHyperCache st)))
                       (batch st) (requested st) (called st) Hm') as [H1 H2].
           assert (sig' <> sig) by congruence.
           split.
           ++ rewrite E1, lookup_delete_ne by assumption. exact H1.
           ++ unfold pendingHyper in *. rewrite E1, E3.
              rewrite lookup_delete_ne by assumption. simpl in *.
              rewrite H2. reflexivity.
        -- match goal with
           | |- context [done ?s ?a ?f ?x] =>
               destruct (done_fields s a f x) as (E1 & _ & E3 & _)
           end.
           destruct (Hnew sig' (snd (lruGet sig' (makeDestructureHyperCache st)))
                       (batch st) (requested st) (called st) Hm') as [H1 H2].
           assert (sig' <> sig) by congruence.
           split.
           ++ rewrite E1, lookup_delete_ne by assumption. exact H1.
           ++ unfold pendingHyper in *. rewrite E1, E3.
              rewrite lookup_delete_ne by assumption. simpl in *.
              rewrite H2. reflexivity.
        -- destruct (Hnew sig' (snd (lruGet sig' (makeDestructureHyperCache st)))
                       (batch st) (requested st) (called st) Hm') as [H1 H2].
           split; [exact H1|]. unfold pendingHyper in *. simpl in *.
           rewrite H2. reflexivity.
Qed.

Lemma pendingFactory_kept_by_request path fallback callback st st' sig making :
  separated st ->
  makingDestructureCache st !! sig = Some making ->
  constructDestructureFunction path fallback callback st = Ret st' ->
  makingDestructureCache st' !! sig = Some making /\
  pendingFactory st sig `prefix_of` pendingFactory st' sig.
Proof.
  intros (_ & _ & C & D) Hm. unfold constructDestructureFunction.
  assert (Hsame : forall st1,
            makingDestructureCache st1 = makingDestructureCache st ->
            factoryCallbacks st1 = factoryCallbacks st ->
            makingDestructureCache st1 !! sig = Some making /\
            pendingFactory st sig `prefix_of` pendingFactory st1 sig).
  { intros st1 E1 E2. split; [rewrite E1; exact Hm|].
    rewrite (pendingFactory_eq st st1 sig); [reflexivity|rewrite E1; reflexivity|].
    intros; rewrite E2; reflexivity. }
  destruct (selectMode path) as [m|e]; simpl; [|discriminate].
  destruct m.
  - intros [= <-]. apply Hsame; reflexivity.
  - destruct (makeDestructureCache st !! _) as [factory|].
    + intros [= <-]. apply Hsame; reflexivity.
    + destruct (makingDestructureCache st !! middleSignature fallback (length path))
        as [making'|] eqn:Hm'.
      * intros [= <-]. simpl. split; [exact Hm|].
        unfold pendingFactory. simpl. rewrite Hm. simpl.
        destruct (decide (making' = making)) as [->|Hne].
        -- rewrite lookup_alter_eq.
           destruct (factoryCallbacks st !! making) as [l|]; simpl;
             [apply prefix_app_r|]; reflexivity.
        -- rewrite lookup_alter_ne by exact Hne. reflexivity.
      * intros [= <-].
        assert (middleSignature fallback (length path) <> sig) by congruence.
        split; [simpl; rewrite lookup_insert_ne by assumption; exact Hm|].
        match goal with
        | |- _ `prefix_of` pendingFactory ?s1 _ =>
            rewrite (pendingFactory_eq st s1 sig); [reflexivity| |]
        end.
        -- simpl. apply lookup_insert_ne. assumption.
        -- intros m0 Hm0. simpl. apply lookup_insert_ne.
           specialize (C _ _ Hm0). lia.
  - destruct (join "|" path) as [sig'|e]; simpl; [|discriminate].
    destruct (fst (lruGet sig' (makeDestructureHyperCache st))) as [f|].
    + intros [= <-]. apply Hsame; reflexivity.
    + destruct (makingDestructureHyperCache st !! sig') as [making'|].
      * intros [= <-]. apply Hsame; reflexivity.
      * destruct path as [|k1 [|k2 [|k3 rest]]]; intros [= <-];
          try (match goal with
               | |- context [done ?s ?a ?f ?x] =>
                   destruct (done_fields s a f x) as (_ & E2 & _ & E4 & _)
               end; apply Hsame; [rewrite E2|rewrite E4]; reflexivity);
          apply Hsame; reflexivity.
Qed.

Lemma pending_kept_by_completion i st sig making :
  coherent st ->
  makingDestructureHyperCache st !! sig = Some making ->
  (forall body detail, batch st !! i <> Some (AccessorJob body detail sig making)) ->
  makingDestructureHyperCache (completeJob i st) !! sig = Some making /\
  pendingHyper (completeJob i st) sig = pendingHyper st sig.
Proof.
  intros Hco Hm Hother. unfold completeJob.
  destruct (batch st !! i) as [[params body sig' arr|body detail sig' arr]|] eqn:Hi;
    [| |auto]; unfold runJob.
  - destruct (factoryDone_fields sig' arr (mkFactory params body)
                (setBatch (delete i (batch st)) st)) as (E1 & _ & E3 & _).
    split; [rewrite E1; exact Hm|].
    apply pendingHyper_eq; [rewrite E1; reflexivity|].
    intros; rewrite E3; reflexivity.
  - destruct (accessorJob_in_progress st i _ _ _ _ Hco Hi) as [Hm' _].
    assert (sig' <> sig).
    { intros ->. rewrite Hm in Hm'. injection Hm' as ->. exact (Hother _ _ eq_refl). }
    destruct (done_fields sig' arr (mkFn (quicklyExtractValueAtPath body) (Some detail))
                (setBatch (delete i (batch st)) st)) as (E1 & _ & E3 & _).
    assert (Hl : makingDestructureHyperCache
                   (done sig' arr (mkFn (quicklyExtractValueAtPath body) (Some detail))
                         (setBatch (delete i (batch st)) st)) !! sig
                 = makingDestructureHyperCache st !! sig).
    { rewrite E1. simpl. apply lookup_delete_ne. assumption. }
    split; [rewrite Hl; exact Hm|].
    apply pendingHyper_eq; [exact Hl|].
    intros; rewrite E3; reflexivity.
Qed.

Lemma pendingFactory_kept_by_completion i st sig making :
  coherent st ->
  makingDestructureCache st !! sig = Some making ->
  (forall params body, batch st !! i <> Some (FactoryJob params body sig making)) ->
  makingDestructureCache (completeJob i st) !! sig = Some making /\
  pendingFactory (completeJob i st) sig = pendingFactory st sig.
Proof.
  intros Hco Hm Hother. unfold completeJob.
  destruct (batch st !! i) as [[params body sig' arr|body detail sig' arr]|] eqn:Hi;
    [| |auto]; unfold runJob.
  - destruct (factoryJob_in_progress st i _ _ _ _ Hco Hi) as [Hm' _].
    assert (sig' <> sig).
    { intros ->. rewrite Hm in Hm'. injection Hm' as ->. exact (Hother _ _ eq_refl). }
    destruct (factoryDone_fields sig' arr (mkFactory params body)
                (setBatch (delete i (batch st)) st)) as (_ & E2 & _ & E4 & _).
    assert (Hl : makingDestructureCache
                   (factoryDone sig' arr (mkFactory params body)
                                (setBatch (delete i (batch st)) st)) !! sig
                 = makingDestructureCache st !! sig).
    { rewrite E2. simpl. apply lookup_delete_ne. assumption. }
    split; [rewrite Hl; exact Hm|].
    apply pendingFactory_eq; [exact Hl|].
    intros; rewrite E4; reflexivity.
  - destruct (done_fields sig' arr (mkFn (quicklyExtractValueAtPath body) (Some detail))
                (setBatch (delete i (batch st)) st)) as (_ & E2 & _ & E4 & _).
    split; [rewrite E2; exact Hm|].
    apply pendingFactory_eq; [rewrite E2; reflexivity|].
    intros; rewrite E4; reflexivity.
Qed.

(** C7: in a reachable state, while a compilation for a signature is in
    progress (the signature is in the [making...] map) there is exactly one
    requested compilation for it; a further request for the same signature is
    appended to its array of pending callbacks, requests no compilation and
    calls nothing. The pending callbacks stay pending, in order, through any
    other request and through the completion of any other compilation. When
    the compilation completes, every pending callback is called with the
    compiled function (in the middle tier, with the compiled factory applied
    to the caller's path), the result is cached under the signature and the
    signature is no longer in progress. Stated for the turbo tier and for
    the middle tier. *)
Theorem C7_coalescing st signature making :
  reachable st ->
  (makingDestructureHyperCache st !! signature = Some making ->
   (exists body detail,
      accessorJobsFor signature (batch st) = [AccessorJob body detail signature making])
   /\ (forall path fallback callback,
         selectMode path = Ret TurboMode -> join "|" path = Ret signature ->
         exists st',
           constructDestructureFunction path fallback callback st = Ret st' /\
           pendingHyper st' signature = pendingHyper st signature ++ [callback] /\
           batch st' = batch st /\ requested st' = requested st /\
           called st' = called st)
   /\ (forall st',
         (exists path fallback callback,
            constructDestructureFunction path fallback callback st = Ret st')
         \/ (exists i,
               st' = completeJob i st /\
               forall body detail,
                 batch st !! i <> Some (AccessorJob body detail signature making)) ->
         makingDestructureHyperCache st' !! signature = Some making /\
         pendingHyper st signature `prefix_of` pendingHyper st' signature))
  /\ (forall i body detail,
        batch st !! i = Some (AccessorJob body detail signature making) ->
        let f := mkFn (quicklyExtractValueAtPath body) (Some detail) in
        makingDestructureHyperCache st !! signature = Some making /\
        called (completeJob i st) =
          called st ++ ((fun callback => (callback, f)) <$> pendingHyper st signature) /\
        lruFind signature (makeDestructureHyperCache (completeJob i st)) = Some f /\
        makingDestructureHyperCache (completeJob i st) !! signature = None /\
        requested (completeJob i st) = requested st)
  /\ (makingDestructureCache st !! signature = Some making ->
      (exists params body,
         factoryJobsFor signature (batch st) = [FactoryJob params body signature making])
      /\ (forall path fallback callback,
            selectMode path = Ret MiddleMode ->
            middleSignature fallback (length path) = signature ->
            exists st',
              constructDestructureFunction path fallback callback st = Ret st' /\
              pendingFactory st' signature =
                pendingFactory st signature ++ [(callback, path)] /\
              batch st' = batch st /\ requested st' = requested st /\
              called st' = called st)
      /\ (forall st',
            (exists path fallback callback,
               constructDestructureFunction path fallback callback st = Ret st')
            \/ (exists i,
                  st' = completeJob i st /\
                  forall params body,
                    batch st !! i <> Some (FactoryJob params body signature making)) ->
            makingDestructureCache st' !! signature = Some making /\
            pendingFactory st signature `prefix_of` pendingFactory st' signature))
  /\ (forall i params body,
        batch st !! i = Some (FactoryJob params body signature making) ->
        let factory := mkFactory params body in
        makingDestructureCache st !! signature = Some making /\
        called (completeJob i st) =
          called st ++ ((fun entry => (fst entry,
                                       plainFn (callFactory factory (snd entry))))
                          <$> pendingFactory st signature) /\
        makeDestructureCache (completeJob i st) !! signature = Some factory /\
        makingDestructureCache (completeJob i st) !! signature = None /\
        requested (completeJob i st) = requested st).
Proof.
  intros Hreach. pose proof (reachable_coherent st Hreach) as Hco.
  pose proof (reachable_separated st Hreach) as Hsep.
  split; [|split; [|split]].
  - intros Hm. destruct Hco as (A & _). destruct (A _ _ Hm) as (Hmiss & [l Hl] & Hjobs).
    split; [exact Hjobs|]. split.
    + intros path fallback callback Hmode Hsig.
      unfold constructDestructureFunction. rewrite Hmode. simpl. rewrite Hsig. simpl.
      rewrite (lruGet_miss _ _ Hmiss). simpl. rewrite Hm.
      eexists. split; [reflexivity|]. simpl.
      unfold pendingHyper. simpl. rewrite Hm. simpl.
      rewrite lookup_alter_eq, Hl. auto.
    + intros st' [(path & fallback & callback & Hreq)|(i & -> & Hother)].
      * exact (pending_kept_by_request _ _ _ _ _ _ _ Hsep Hm Hreq).
      * destruct (pending_kept_by_completion i st signature making
                    (reachable_coherent st Hreach) Hm Hother) as [H1 H2].
        split; [exact H1|]. rewrite H2. reflexivity.
  - intros i body detail Hi f.
    destruct (accessorJob_in_progress st i _ _ _ _ Hco Hi) as [Hm _].
    split; [exact Hm|].
    unfold completeJob. rewrite Hi. simpl. unfold done.
    rewrite (called_foldl_invoke (fun cb => cb) (fun _ => f)). simpl.
    unfold pendingHyper. rewrite Hm. simpl.
    split; [reflexivity|]. split; [apply lruFind_set_eq|].
    split; [apply lookup_delete_eq|reflexivity].
  - intros Hm. destruct Hco as (_ & _ & C & _).
    destruct (C _ _ Hm) as (Hmiss & [l Hl] & Hjobs).
    split; [exact Hjobs|]. split.
    + intros path fallback callback Hmode Hsig.
      unfold constructDestructureFunction. rewrite Hmode. simpl. rewrite Hsig.
      rewrite Hmiss, Hm.
      eexists. split; [reflexivity|]. simpl.
      unfold pendingFactory. simpl. rewrite Hm. simpl.
      rewrite lookup_alter_eq, Hl. auto.
    + intros st' [(path & fallback & callback & Hreq)|(i & -> & Hother)].
      * exact (pendingFactory_kept_by_request _ _ _ _ _ _ _ Hsep Hm Hreq).
      * destruct (pendingFactory_kept_by_completion i st signature making
                    (reachable_coherent st Hreach) Hm Hother) as [H1 H2].
        split; [exact H1|]. rewrite H2. reflexivity.
  - intros i params body Hi factory.
    destruct (factoryJob_in_progress st i _ _ _ _ Hco Hi) as [Hm _].
    split; [exact Hm|].
    unfold completeJob. rewrite Hi. simpl. unfold factoryDone.
    rewrite (called_foldl_invoke fst (fun e => plainFn (callFactory factory (snd e)))).
    simpl. unfold pendingFactory. rewrite Hm. simpl.
    split; [reflexivity|]. split; [apply lookup_insert_eq|].
    split; [apply lookup_delete_eq|reflexivity].
Qed.

Lemma C7_coalescing_witness :
  exists st st',
    constructDestructureFunction (VStr <$> ["a"; "b"; "c"]) VUndefined 1 initialState
      = Ret st /\
    constructDestructureFunction (VStr <$> ["a"; "b"; "c"]) VUndefined 2 st = Ret st' /\
    pendingHyper st' "a|b|c" = pendingHyper st "a|b|c" ++ [2] /\
    batch st' = batch st /\ requested st' = requested st /\ called st' = called st.
Proof.
  pose (st := match constructDestructureFunction (VStr <$> ["a"; "b"; "c"])
                      VUndefined 1 initialState with
              | Ret a => a
              | Throw _ => initialState
              end).
  assert (Hreq : constructDestructureFunction (VStr <$> ["a"; "b"; "c"]) VUndefined 1
                   initialState = Ret st) by reflexivity.
  assert (Hreach : reachable st).
  { eapply reachable_request; [apply reachable_initial|exact Hreq]. }
  destruct (C7_coalescing st "a|b|c" 0 Hreach) as [Hturbo _].
  assert (Hm : makingDestructureHyperCache st !! "a|b|c" = Some 0)
    by (vm_compute; reflexivity).
  destruct (Hturbo Hm) as (_ & Happend & _).
  assert (Hmode : selectMode (VStr <$> ["a"; "b"; "c"]) = Ret TurboMode)
    by reflexivity.
  assert (Hsig : join "|" (VStr <$> ["a"; "b"; "c"]) = Ret "a|b|c")
    by reflexivity.
  destruct (Happend (VStr <$> ["a"; "b"; "c"]) VUndefined 2 Hmode Hsig)
    as (st' & Hreq' & Hrest).
  exists st, st'. split; [exact Hreq|]. split; [exact Hreq'|exact Hrest].
Defined.

(** ** C5: deduplication of access steps *)

Lemma unquoteChar_quoteChar c r : unquoteChar (quoteChar c +:+ r) = Some (c, r).
Proof.
  destruct c as [[] [] [] [] [] [] [] []]; reflexivity.
Qed.

Lemma append_nil (t : string) : EmptyString +:+ t = t.
Proof. reflexivity. Qed.

Lemma append_cons c (s t : string) : String c s +:+ t = String c (s +:+ t).
Proof. reflexivity. Qed.

Lemma string_app_assoc (a b c : string) : (a +:+ b) +:+ c = a +:+ (b +:+ c).
Proof.
  induction a as [|x a IH]; [reflexivity|].
  rewrite !append_cons, IH. reflexivity.
Qed.

Lemma quoteChars_inj s1 : forall s2 r1 r2,
  quoteChars s1 +:+ r1 = quoteChars s2 +:+ r2 -> s1 = s2 /\ r1 = r2.
Proof.
  induction s1 as [|c1 s1 IH]; intros [|c2 s2] r1 r2 H; simpl in H;
    rewrite ?append_cons, ?append_nil in H.
  - injection H as ->. auto.
  - apply (f_equal unquoteChar) in H. rewrite string_app_assoc, unquoteChar_quoteChar in H.
    discriminate H.
  - apply (f_equal unquoteChar) in H. rewrite string_app_assoc, unquoteChar_quoteChar in H.
    discriminate H.
  - apply (f_equal unquoteChar) in H.
    rewrite !string_app_assoc, !unquoteChar_quoteChar in H.
    injection H as -> H. destruct (IH _ _ _ H) as [-> ->]. auto.
Qed.

Lemma pretty_N_char_number x : isNumberChar (pretty_N_char x) = true.
Proof. unfold pretty_N_char. repeat case_match; reflexivity. Qed.

Lemma pretty_N_go_number x : forall s,
  allChars isNumberChar s = true -> allChars isNumberChar (pretty_N_go x s) = true.
Proof.
  induction (N.lt_wf_0 x) as [x _ IH]; intros s Hs.
  destruct (decide (x = 0)%N) as [->|Hx]; [rewrite pretty_N_go_0; exact Hs|].
  rewrite pretty_N_go_step by lia. apply IH.
  - apply N.div_lt; lia.
  - simpl. rewrite pretty_N_char_number. exact Hs.
Qed.

Lemma pretty_N_go_nonempty x : forall s, s <> EmptyString -> pretty_N_go x s <> EmptyString.
Proof.
  induction (N.lt_wf_0 x) as [x _ IH]; intros s Hs.
  destruct (decide (x = 0)%N) as [->|Hx]; [rewrite pretty_N_go_0; exact Hs|].
  rewrite pretty_N_go_step by lia. apply IH; [apply N.div_lt; lia|discriminate].
Qed.

Lemma pretty_N_number (x : N) :
  allChars isNumberChar (pretty x) = true /\ pretty x <> EmptyString.
Proof.
  unfold pretty, pretty_N. destruct (decide (x = 0)%N) as [->|Hx].
  - split; [reflexivity|discriminate].
  - split; [apply pretty_N_go_number; reflexivity|].
    rewrite pretty_N_go_step by lia. apply pretty_N_go_nonempty. discriminate.
Qed.

Lemma pretty_Z_number (z : Z) :
  allChars isNumberChar (pretty z) = true /\ pretty z <> EmptyString.
Proof.
  destruct z as [|p|p].
  - split; [reflexivity|discriminate].
  - apply (pretty_N_number (Npos p)).
  - destruct (pretty_N_number (Npos p)) as [Ha Hb].
    change (pretty (Z.neg p)) with (String "-" (pretty (Npos p))).
    split; [exact Ha|discriminate].
Qed.

Lemma split_at_delimiter P x : forall y d1 d2 r1 r2,
  allChars P x = true -> allChars P y = true -> P d1 = false -> P d2 = false ->
  x +:+ String d1 r1 = y +:+ String d2 r2 -> x = y /\ d1 = d2 /\ r1 = r2.
Proof.
  induction x as [|a x IH]; intros [|b y] d1 d2 r1 r2 Hx Hy H1 H2 H; simpl in *;
    rewrite ?append_cons, ?append_nil in H.
  - injection H as -> ->. auto.
  - injection H as -> _. apply andb_true_iff in Hy as [Hb _]. congruence.
  - injection H as -> _. apply andb_true_iff in Hx as [Ha _]. congruence.
  - injection H as -> H.
    apply andb_true_iff in Hx as [_ Hx]. apply andb_true_iff in Hy as [_ Hy].
    destruct (IH _ _ _ _ _ Hx Hy H1 H2 H) as (-> & -> & ->). auto.
Qed.

Lemma isNumberChar_first s :
  allChars isNumberChar s = true -> s <> EmptyString ->
  exists c rest, s = String c rest /\ isNumberChar c = true.
Proof.
  destruct s as [|c rest]; [congruence|]. simpl. intros H _.
  apply andb_true_iff in H as [Hc _]. eauto.
Qed.

(** The JSON text of any value starts with a character that is neither of the
    delimiters [,] and []]; for a string it is the quote, for a finite number
    a digit or the sign. *)
Lemma jsonElement_first v :
  exists c rest, jsonElement v = String c rest /\
    c <> ","%char /\ c <> "]"%char /\
    (isPlain v = false -> c <> dquote /\ isNumberChar c = false).
Proof.
  destruct v as [| |[]|[z| | |]|s|id|a ps]; unfold jsonElement; simpl;
    try (eexists _, _; split; [reflexivity|];
         split; [discriminate|]; split; [discriminate|];
         intros _; split; [discriminate|reflexivity]).
  - destruct (pretty_Z_number z) as [Hall Hne].
    destruct (isNumberChar_first _ Hall Hne) as (c & rest & -> & Hc).
    exists c, rest. split; [reflexivity|].
    split; [intros ->; discriminate|]. split; [intros ->; discriminate|discriminate].
  - eexists _, _. split; [reflexivity|].
    split; [discriminate|]. split; [discriminate|discriminate].
Qed.

Lemma jsonElement_inj a b d1 d2 r1 r2 :
  isPlain a = true ->
  isNumberChar d1 = false -> isNumberChar d2 = false ->
  jsonElement a +:+ String d1 r1 = jsonElement b +:+ String d2 r2 ->
  a = b /\ d1 = d2 /\ r1 = r2.
Proof.
  intros Ha Hd1 Hd2 H.
  destruct (isPlain b) eqn:Hb.
  - destruct a as [| |?|[z1| | |]|s1|?|? ?]; try discriminate;
      destruct b as [| |?|[z2| | |]|s2|?|? ?]; try discriminate;
      unfold jsonElement in H; simpl in H.
    + destruct (pretty_Z_number z1) as [H1 _], (pretty_Z_number z2) as [H2 _].
      destruct (split_at_delimiter _ _ _ _ _ _ _ H1 H2 Hd1 Hd2 H) as (Hz & -> & ->).
      apply (inj pretty) in Hz as ->. auto.
    + destruct (pretty_Z_number z1) as [H1 Hne].
      destruct (isNumberChar_first _ H1 Hne) as (c & rest & Hc & Hnum).
      rewrite Hc in H. unfold quoteJSONString in H. rewrite !append_cons in H.
      injection H as -> _. discriminate.
    + destruct (pretty_Z_number z2) as [H2 Hne].
      destruct (isNumberChar_first _ H2 Hne) as (c & rest & Hc & Hnum).
      rewrite Hc in H. unfold quoteJSONString in H. rewrite !append_cons in H.
      injection H as <- _. discriminate.
    + unfold quoteJSONString in H. rewrite !append_cons in H. injection H as H.
      destruct (quoteChars_inj _ _ _ _ H) as [-> Hr]. injection Hr as -> ->. auto.
  - exfalso. destruct (jsonElement_first a) as (ca & resta & Hea & _ & _ & _).
    destruct (jsonElement_first b) as (cb & restb & Heb & _ & _ & Hnot).
    destruct (Hnot Hb) as [Hq Hn].
    rewrite Hea, Heb, !append_cons in H. injection H as -> _.
    destruct a as [| |?|[z1| | |]|s1|?|? ?]; try discriminate; unfold jsonElement in Hea; simpl in Hea.
    + destruct (pretty_Z_number z1) as [H1 _]. rewrite Hea in H1. simpl in H1.
      rewrite Hn in H1. discriminate.
    + unfold quoteJSONString in Hea. injection Hea as <- _. congruence.
Qed.

Lemma joined_cons e l :
  exists d r,
    joinStrings "," (e :: l) +:+ "]" = e +:+ String d r /\
    isNumberChar d = false /\
    ((l = [] /\ d = "]"%char) \/
     (l <> [] /\ d = ","%char /\ r = joinStrings "," l +:+ "]")).
Proof.
  destruct l as [|t rest].
  - exists "]"%char, EmptyString. split; [reflexivity|]. split; [reflexivity|]. left. auto.
  - exists ","%char, (joinStrings "," (t :: rest) +:+ "]").
    split; [|split; [reflexivity|right; split; [discriminate|auto]]].
    change (joinStrings "," (e :: t :: rest))
      with (e +:+ "," +:+ joinStrings "," (t :: rest)).
    rewrite !string_app_assoc. reflexivity.
Qed.

Lemma joined_inj p1 : forall p2,
  forallb isPlain p1 = true ->
  joinStrings "," (jsonElement <$> p1) +:+ "]" = joinStrings "," (jsonElement <$> p2) +:+ "]" ->
  p1 = p2.
Proof.
  induction p1 as [|a p1 IH]; intros [|b p2] Hp H.
  - reflexivity.
  - exfalso. rewrite fmap_cons in H.
    destruct (joined_cons (jsonElement b) (jsonElement <$> p2)) as (d & r & Hj & _).
    destruct (jsonElement_first b) as (c & rest & Hc & _ & Hclose & _).
    rewrite Hj, Hc in H. simpl in H. rewrite append_nil, append_cons in H.
    injection H as Hcc _. congruence.
  - exfalso. simpl in Hp. apply andb_true_iff in Hp as [Ha _]. rewrite fmap_cons in H.
    destruct (joined_cons (jsonElement a) (jsonElement <$> p1)) as (d & r & Hj & _).
    destruct (jsonElement_first a) as (c & rest & Hc & _ & Hclose & _).
    rewrite Hj, Hc in H. simpl in H. rewrite append_nil, append_cons in H.
    injection H as Hcc _. congruence.
  - simpl in Hp. apply andb_true_iff in Hp as [Ha Hp]. rewrite !fmap_cons in H.
    destruct (joined_cons (jsonElement a) (jsonElement <$> p1)) as (d1 & r1 & Hj1 & Hd1 & Hc1).
    destruct (joined_cons (jsonElement b) (jsonElement <$> p2)) as (d2 & r2 & Hj2 & Hd2 & Hc2).
    rewrite Hj1, Hj2 in H.
    destruct (jsonElement_inj _ _ _ _ _ _ Ha Hd1 Hd2 H) as (-> & -> & ->).
    f_equal.
    destruct Hc1 as [[H1 E1]|(H1 & E1 & R1)], Hc2 as [[H2 E2]|(H2 & E2 & R2)].
    + destruct p1, p2; try discriminate. reflexivity.
    + congruence.
    + congruence.
    + apply IH; [exact Hp|]. rewrite <- R1, <- R2. reflexivity.
Qed.

Lemma jsonStringify_inj path ppath :
  forallb isPlain path = true ->
  jsonStringify ppath = jsonStringify path -> ppath = path.
Proof.
  intros Hp H. unfold jsonStringify in H.
  change "[" with (String "[" EmptyString) in H. rewrite !append_cons, !append_nil in H.
  injection H as H. symmetry. apply joined_inj; [exact Hp|]. symmetry. exact H.
Qed.

Lemma filter_sublist {A} (f : A -> bool) l : sublist (List.filter f l) l.
Proof.
  induction l as [|x l IH]; simpl; [constructor|].
  destruct (f x); [apply sublist_skip|apply sublist_cons]; exact IH.
Qed.

(** C5 (as the code has it): for an [AccessStep] whose path consists of
    strings and finite numbers, [deduplicate] returns, in the order of
    [peers], exactly the peers that are [AccessStep]s with the same path and a
    fallback strictly equal ([===]) to its own. The dependency is not
    compared. *)
Theorem C5_deduplicate id dep path fallback peers :
  forallb isPlain path = true ->
  exists result,
    deduplicate (AccessStep id dep path fallback) peers = Ret result /\
    sublist result peers /\
    forall p,
      p ∈ result <->
      p ∈ peers /\
      exists pid pdep pfallback,
        p = AccessStep pid pdep path pfallback /\ strictEq pfallback fallback = true.
Proof.
  intros Hplain. eexists. split; [reflexivity|]. split; [apply filter_sublist|].
  intros p. rewrite list_elem_of_In, filter_In, <- list_elem_of_In.
  split.
  - intros [Hin Hp]. split; [exact Hin|].
    destruct p as [pid|pid pdep ppath pfallback]; [discriminate|].
    apply andb_true_iff in Hp as [Hfb Hjson].
    apply String.eqb_eq in Hjson. apply (jsonStringify_inj _ _ Hplain) in Hjson as ->.
    eauto.
  - intros [Hin (pid & pdep & pfallback & -> & Hfb)]. split; [exact Hin|].
    rewrite Hfb, String.eqb_refl. reflexivity.
Qed.

Lemma C5_deduplicate_witness :
  exists result,
    deduplicate (AccessStep 2 (ExecutableStep 0) [VStr "a"; VNum (Finite 0)] VUndefined)
      [AccessStep 3 (ExecutableStep 0) [VStr "a"; VNum (Finite 0)] VUndefined;
       AccessStep 4 (ExecutableStep 0) [VStr "a"; VStr "0"] VUndefined] = Ret result /\
    sublist result
      [AccessStep 3 (ExecutableStep 0) [VStr "a"; VNum (Finite 0)] VUndefined;
       AccessStep 4 (ExecutableStep 0) [VStr "a"; VStr "0"] VUndefined] /\
    forall p,
      p ∈ result <->
      p ∈ [AccessStep 3 (ExecutableStep 0) [VStr "a"; VNum (Finite 0)] VUndefined;
           AccessStep 4 (ExecutableStep 0) [VStr "a"; VStr "0"] VUndefined] /\
      exists pid pdep pfallback,
        p = AccessStep pid pdep [VStr "a"; VNum (Finite 0)] pfallback /\
        strictEq pfallback VUndefined = true.
Proof.
  apply (C5_deduplicate 2 (ExecutableStep 0) [VStr "a"; VNum (Finite 0)] VUndefined).
  reflexivity.
Defined.

(** C5 as the specification states it fails: a peer with the same path and fallback and another
    dependency is returned; and two paths of different symbols have the same
    JSON text [[null]], so a peer with another symbol path is returned. *)
Lemma C5_counterexample :
  ~ (forall id dep path fallback peers result p,
       deduplicate (AccessStep id dep path fallback) peers = Ret result ->
       p ∈ result ->
       exists pid, p = AccessStep pid dep path fallback)
  /\ deduplicate (AccessStep 2 (ExecutableStep 0) [VSym 1] VUndefined)
                 [AccessStep 3 (ExecutableStep 0) [VSym 2] VUndefined]
     = Ret [AccessStep 3 (ExecutableStep 0) [VSym 2] VUndefined].
Proof.
  split; [|reflexivity].
  intros H.
  destruct (H 2 (ExecutableStep 0) [VStr "a"] VUndefined
              [AccessStep 3 (ExecutableStep 1) [VStr "a"] VUndefined]
              [AccessStep 3 (ExecutableStep 1) [VStr "a"] VUndefined]
              (AccessStep 3 (ExecutableStep 1) [VStr "a"] VUndefined)
              eq_refl) as [pid Hp].
  - left.
  - discriminate Hp.
Qed.

(** * Further properties *)

(** ** Tiers and accessors *)

Lemma existsb_Exists_iff {A} (f : A -> bool) l :
  existsb f l = true <-> Exists (fun x => f x = true) l.
Proof.
  rewrite existsb_exists, Exists_exists. split; intros (x & Hin & Hx); exists x.
  - split; [apply list_elem_of_In, Hin|exact Hx].
  - split; [apply list_elem_of_In, Hin|exact Hx].
Qed.

Lemma forallb_Forall_iff {A} (f : A -> bool) l :
  forallb f l = true <-> Forall (fun x => f x = true) l.
Proof.
  rewrite forallb_forall, Forall_forall. split; intros H x Hin; apply H.
  - apply list_elem_of_In, Hin.
  - apply list_elem_of_In, Hin.
Qed.

Lemma acceptable_forallb path :
  Forall (fun v => isSegment v = true \/ forcesSlow v = true) path ->
  forallb (fun v => isSegment v || forcesSlow v) path = true.
Proof.
  intros H. apply forallb_Forall_iff. eapply Forall_impl; [exact H|].
  intros v [->| ->]; [reflexivity|apply orb_true_r].
Qed.

(** X1: for a path whose segments are all acceptable (strings, finite numbers,
    symbols, [null], [undefined], non-finite numbers) the tier is decided by
    the length and the kinds of segments alone: slow exactly when the path is
    longer than 50 or has a [null], [undefined] or non-finite segment; turbo
    exactly when it has at most 5 segments, all strings or finite numbers;
    middle in the remaining cases (no slow-forcing segment, at most 50
    segments, and more than 5 segments or a symbol). *)
Theorem tier_by_length_and_segments path :
  Forall (fun v => isSegment v = true \/ forcesSlow v = true) path ->
  exists m,
    selectMode path = Ret m /\
    (m = SlowMode <->
     50 < length path \/ Exists (fun v => forcesSlow v = true) path) /\
    (m = TurboMode <->
     length path <= 5 /\ Forall (fun v => isPlain v = true) path) /\
    (m = MiddleMode <->
     length path <= 50 /\ ~ Exists (fun v => forcesSlow v = true) path /\
     (5 < length path \/ Exists (fun v => isSymbol v = true) path)).
Proof.
  intros Hok. exists (finalMode (modeByLength (length path)) path).
  split; [apply selectMode_ok, acceptable_forallb, Hok|].
  assert (Hplain : Forall (fun v => isPlain v = true) path <->
                   existsb forcesSlow path = false /\ existsb isSymbol path = false).
  { induction Hok as [|v path Hv Hok IH]; simpl.
    - split; [auto|constructor].
    - rewrite Forall_cons, IH, !orb_false_iff.
      assert (isPlain v = true <-> forcesSlow v = false /\ isSymbol v = false).
      { value_cases v; simpl in *; intuition congruence. }
      tauto. }
  rewrite <- !existsb_Exists_iff, Hplain.
  unfold finalMode, modeByLength.
  destruct (Nat.ltb_spec 50 (length path)) as [H50|H50];
    destruct (Nat.ltb_spec 5 (length path)) as [H5|H5];
    destruct (existsb forcesSlow path), (existsb isSymbol path);
    simpl; intuition (try discriminate; try congruence; try lia).
Qed.

Lemma tier_by_length_and_segments_witness :
  exists m,
    selectMode [VStr "a"; VSym 0] = Ret m /\
    (m = SlowMode <->
     50 < length [VStr "a"; VSym 0] \/
     Exists (fun v => forcesSlow v = true) [VStr "a"; VSym 0]) /\
    (m = TurboMode <->
     length [VStr "a"; VSym 0] <= 5 /\
     Forall (fun v => isPlain v = true) [VStr "a"; VSym 0]) /\
    (m = MiddleMode <->
     length [VStr "a"; VSym 0] <= 50 /\
     ~ Exists (fun v => forcesSlow v = true) [VStr "a"; VSym 0] /\
     (5 < length [VStr "a"; VSym 0] \/
      Exists (fun v => isSymbol v = true) [VStr "a"; VSym 0])).
Proof.
  apply tier_by_length_and_segments.
  constructor; [left; reflexivity|]. constructor; [left; reflexivity|]. constructor.
Defined.

(** X2: validation reports the first offending segment. When every segment
    before [v] is acceptable and [v] is not (a boolean or an object),
    [constructDestructureFunction] throws the error for [v] and the whole
    path, whatever follows [v], whatever the length, the fallback and the
    state of the caches. *)
Theorem first_invalid_segment_reported p1 v p2 fallback callback st :
  Forall (fun x => isSegment x = true \/ forcesSlow x = true) p1 ->
  isSegment v = false -> forcesSlow v = false ->
  constructDestructureFunction (p1 ++ v :: p2) fallback callback st =
    Throw (InvalidPathItem v (p1 ++ v :: p2)).
Proof.
  intros Hok Hs Hf. apply constructDestructureFunction_throws.
  unfold selectMode. generalize (modeByLength (length (p1 ++ v :: p2))).
  generalize (p1 ++ v :: p2) at 1 3. intros path.
  induction Hok as [|x p1 Hx Hok IH]; intros mode; simpl.
  - rewrite checkPathItem_throw; [reflexivity|]. rewrite Hs, Hf. reflexivity.
  - rewrite checkPathItem_ok.
    + simpl. apply IH.
    + destruct Hx as [-> | ->]; [reflexivity|apply orb_true_r].
Qed.

Lemma first_invalid_segment_reported_witness :
  constructDestructureFunction ([VStr "a"] ++ VBool true :: [VObj 0 []]) VUndefined 0
                               initialState =
    Throw (InvalidPathItem (VBool true) ([VStr "a"] ++ VBool true :: [VObj 0 []])).
Proof.
  apply first_invalid_segment_reported.
  - constructor; [left; reflexivity|constructor].
  - reflexivity.
  - reflexivity.
Defined.

Section MoreAccessorResults.

Variable inherited : value -> propkey -> value.

#[local] Arguments chain : simpl never.

(** X3: a missing key, by accessor. If the value reached after the prefix
    [p1] is [null] or [undefined], the slow walker returns the fallback for
    every continuation [p2]. The hand-written accessors for one and two keys
    return the fallback when one is given, and [undefined] when none is
    given and a key follows. The accessor generated for any other number of
    keys throws when a key follows. *)
Theorem missing_key_by_accessor p1 p2 fallback extra v :
  looseEqNull (chain inherited p1 v) = true ->
  call inherited (slowlyExtractValueAtPath (p1 ++ p2) fallback) extra v = Ret fallback
  /\ (length (p1 ++ p2) = 1 \/ length (p1 ++ p2) = 2 ->
      (fallback <> VUndefined ->
       call inherited (turboAccessor (p1 ++ p2) fallback) extra v = Ret fallback) /\
      (p2 <> [] ->
       call inherited (turboAccessor (p1 ++ p2) VUndefined) extra v = Ret VUndefined))
  /\ (p2 <> [] -> length (p1 ++ p2) <> 1 -> length (p1 ++ p2) <> 2 ->
      throws (call inherited (turboAccessor (p1 ++ p2) fallback) extra v)).
Proof.
  intros Hnull.
  assert (Hc : looseEqNull (chain inherited (p1 ++ p2) v) = true).
  { rewrite chain_app. apply chain_nullish, Hnull. }
  split; [|split].
  - rewrite call_slowly. unfold coalesce. rewrite Hc. reflexivity.
  - intros Hlen. split.
    + intros Hfb. rewrite (call_turboAccessor_short _ _ _ _ _ Hlen).
      destruct (strictEq fallback VUndefined) eqn:He.
      * apply strictEq_undefined in He. contradiction.
      * simpl. unfold coalesce. rewrite Hc. reflexivity.
    + intros Hp2. rewrite (call_turboAccessor_short _ _ _ _ _ Hlen). simpl. f_equal.
      rewrite chain_app. destruct p2 as [|k p2]; [contradiction|].
      rewrite chain_cons.
      assert (Hk : chain inherited [k] (chain inherited p1 v) = VUndefined).
      { unfold chain at 1. simpl. rewrite Hnull. reflexivity. }
      rewrite Hk. clear. induction p2 as [|k' p2 IH]; [reflexivity|].
      rewrite chain_cons. exact IH.
  - intros Hp2 H1 H2. rewrite turboAccessor_generated by assumption.
    rewrite call_generated.
    destruct (strictWalk_spec inherited (p1 ++ p2) v) as [_ Hthrow].
    destruct (strictWalk inherited (p1 ++ p2) v) as [r|e]; simpl; [|exact I].
    apply Hthrow. destruct p2 as [|k p2]; [contradiction|].
    exists p1, k, p2. split; [reflexivity|exact Hnull].
Qed.

(** X4: what the accessor of the middle tier computes. It ignores the
    fallback; when it returns, it returns the value that the optional chain
    reaches; and it throws exactly when the value reached before one of the
    keys is [null] or [undefined]. *)
Theorem middle_tier_reads_strictly path extra v :
  (forall r, call inherited (callFactory (middleFactory (length path)) path) extra v = Ret r ->
             r = chain inherited path v)
  /\ (throws (call inherited (callFactory (middleFactory (length path)) path) extra v) <->
      exists p1 k p2, path = p1 ++ k :: p2 /\ looseEqNull (chain inherited p1 v) = true).
Proof. rewrite call_middle. apply strictWalk_spec. Qed.

(** X5: the hand-written accessors against the generated one, for paths of
    one and two keys. The hand-written accessor always returns; whenever
    the accessor generated for the same path and fallback returns, the
    hand-written one returns the same result; and the generated one throws
    exactly when the value it reads a key from is [null] or
    [undefined]. *)
Theorem short_paths_extend_generated path fallback extra v :
  length path = 1 \/ length path = 2 ->
  (exists r, call inherited (turboAccessor path fallback) extra v = Ret r)
  /\ (forall r,
        call inherited
             (quicklyExtractValueAtPath (accessorBody (TeGet <$> path) fallback))
             extra v = Ret r ->
        call inherited (turboAccessor path fallback) extra v = Ret r)
  /\ (throws (call inherited
                   (quicklyExtractValueAtPath (accessorBody (TeGet <$> path) fallback))
                   extra v) <->
      exists p1 k p2, path = p1 ++ k :: p2 /\
                      looseEqNull (chain inherited p1 v) = true).
Proof.
  intros Hlen. rewrite (call_turboAccessor_short _ _ _ _ _ Hlen), call_generated.
  destruct (strictWalk_spec inherited path v) as [Hret Hthrow].
  split; [eauto|]. split.
  - intros r. destruct (strictWalk inherited path v) as [s|e]; simpl; [|discriminate].
    rewrite (Hret s eq_refl). congruence.
  - rewrite <- Hthrow. destruct (strictWalk inherited path v); simpl; tauto.
Qed.

End MoreAccessorResults.

Lemma missing_key_by_accessor_witness :
  call noPrototype
       (slowlyExtractValueAtPath ([VStr "a"] ++ [VStr "b"; VStr "c"]) (VNum (Finite 0)))
       VUndefined (VObj 0 []) = Ret (VNum (Finite 0))
  /\ throws (call noPrototype
                  (turboAccessor ([VStr "a"] ++ [VStr "b"; VStr "c"]) (VNum (Finite 0)))
                  VUndefined (VObj 0 [])).
Proof.
  pose proof (missing_key_by_accessor noPrototype [VStr "a"] [VStr "b"; VStr "c"]
                (VNum (Finite 0)) VUndefined (VObj 0 []) eq_refl) as (Hslow & _ & Hgen).
  split; [exact Hslow|]. apply Hgen; discriminate.
Defined.

Lemma middle_tier_reads_strictly_witness :
  throws (call noPrototype
            (callFactory (middleFactory (length (VStr <$> ["a"; "b"; "c"; "d"; "e"; "f"])))
                         (VStr <$> ["a"; "b"; "c"; "d"; "e"; "f"]))
            VUndefined VNull).
Proof.
  apply (proj2 (proj2 (middle_tier_reads_strictly noPrototype
                         (VStr <$> ["a"; "b"; "c"; "d"; "e"; "f"]) VUndefined VNull))).
  exists [], (VStr "a"), (VStr <$> ["b"; "c"; "d"; "e"; "f"]). split; reflexivity.
Defined.

Lemma short_paths_extend_generated_witness :
  (exists r, call noPrototype (turboAccessor [VStr "a"] VUndefined) VUndefined VNull
             = Ret r)
  /\ throws (call noPrototype
                  (quicklyExtractValueAtPath
                     (accessorBody (TeGet <$> [VStr "a"]) VUndefined))
                  VUndefined VNull).
Proof.
  pose proof (short_paths_extend_generated noPrototype [VStr "a"] VUndefined VUndefined
                VNull (or_introl eq_refl)) as (Hret & _ & Hthrow).
  split; [exact Hret|]. apply Hthrow.
  exists [], (VStr "a"), []. split; reflexivity.
Defined.

Section TiersAgree.

Variable inherited : value -> propkey -> value.

#[local] Arguments chain : simpl never.

(** X24: on data where every key of the path is present, the three tiers
    agree. If no value reached before a key is [null] or [undefined] and
    the value reached at the end is neither, the slow walker, the turbo
    accessor and the middle-tier accessor all return that value, whatever
    the fallback. *)
Theorem tiers_agree_on_present_keys path fallback extra v :
  (forall p1 k p2, path = p1 ++ k :: p2 -> looseEqNull (chain inherited p1 v) = false) ->
  looseEqNull (chain inherited path v) = false ->
  call inherited (slowlyExtractValueAtPath path fallback) extra v =
    Ret (chain inherited path v)
  /\ call inherited (turboAccessor path fallback) extra v = Ret (chain inherited path v)
  /\ call inherited (callFactory (middleFactory (length path)) path) extra v =
       Ret (chain inherited path v).
Proof.
  intros Hprefix Hlast. split; [|split].
  - rewrite call_slowly. unfold coalesce. rewrite Hlast. reflexivity.
  - rewrite call_turboAccessor by (right; right; exact Hprefix).
    unfold coalesce. rewrite Hlast. destruct (negb _); reflexivity.
  - rewrite call_middle. apply strictWalk_present, Hprefix.
Qed.

(** X25: fusion is exact within the middle tier. When the parent's path,
    the child's path and their concatenation are all in the middle tier,
    running the parent's accessor and then the child's gives what the
    fused accessor gives, exceptions included. *)
Theorem fusion_is_exact_in_the_middle_tier p1 p2 fallback extra x :
  selectMode p1 = Ret MiddleMode -> selectMode p2 = Ret MiddleMode ->
  selectMode (p1 ++ p2) = Ret MiddleMode ->
  (r ← runAccessor inherited p1 VUndefined extra x;
   runAccessor inherited p2 fallback extra r)
  = runAccessor inherited (p1 ++ p2) fallback extra x.
Proof.
  intros H1 H2 H12.
  rewrite (middle_tier_accessor inherited _ _ _ _ H1).
  rewrite (middle_tier_accessor inherited _ _ _ _ H12), strictWalk_app.
  destruct (strictWalk inherited p1 x) as [r|e]; simpl; [|reflexivity].
  apply (middle_tier_accessor inherited _ _ _ _ H2).
Qed.

End TiersAgree.

Lemma tiers_agree_on_present_keys_witness :
  call noPrototype (slowlyExtractValueAtPath [VStr "a"] VNull) VUndefined
       (VObj 0 [(KStr "a", VNum (Finite 1))]) =
    Ret (chain noPrototype [VStr "a"] (VObj 0 [(KStr "a", VNum (Finite 1))]))
  /\ call noPrototype (turboAccessor [VStr "a"] VNull) VUndefined
          (VObj 0 [(KStr "a", VNum (Finite 1))]) =
       Ret (chain noPrototype [VStr "a"] (VObj 0 [(KStr "a", VNum (Finite 1))]))
  /\ call noPrototype (callFactory (middleFactory (length [VStr "a"])) [VStr "a"])
          VUndefined (VObj 0 [(KStr "a", VNum (Finite 1))]) =
       Ret (chain noPrototype [VStr "a"] (VObj 0 [(KStr "a", VNum (Finite 1))])).
Proof.
  apply tiers_agree_on_present_keys; [|reflexivity].
  intros p1 k p2 Hp. destruct p1 as [|k1 p1]; [reflexivity|].
  destruct p1; discriminate.
Defined.

Lemma fusion_is_exact_in_the_middle_tier_witness :
  (r ← runAccessor noPrototype [VSym 0] VUndefined VUndefined
         (VObj 0 [(KSym 0, VObj 1 [(KSym 1, VNum (Finite 5))])]);
   runAccessor noPrototype [VSym 1] VNull VUndefined r)
  = runAccessor noPrototype ([VSym 0] ++ [VSym 1]) VNull VUndefined
      (VObj 0 [(KSym 0, VObj 1 [(KSym 1, VNum (Finite 5))])]).
Proof. apply fusion_is_exact_in_the_middle_tier; reflexivity. Defined.

(** ** Completion of the pending compilations *)

Lemma runJob_effect j st :
  hyperCallbacks (runJob j st) = hyperCallbacks st /\
  factoryCallbacks (runJob j st) = factoryCallbacks st /\
  batch (runJob j st) = batch st /\
  called (runJob j st) =
    called st ++ callsOf (hyperCallbacks st) (factoryCallbacks st) j.
Proof.
  destruct j as [params body sig arr|body detail sig arr]; unfold runJob.
  - unfold factoryDone.
    rewrite (called_foldl_invoke fst
               (fun entry => plainFn (callFactory (mkFactory params body) (snd entry)))).
    simpl. auto.
  - unfold done.
    rewrite (called_foldl_invoke (fun c : nat => c)
               (fun _ => mkFn (quicklyExtractValueAtPath body) (Some detail))).
    simpl. auto.
Qed.

Lemma foldl_runJob_effect js : forall st,
  batch (foldl (fun s j => runJob j s) st js) = batch st /\
  called (foldl (fun s j => runJob j s) st js) =
    called st ++ flat_map (callsOf (hyperCallbacks st) (factoryCallbacks st)) js.
Proof.
  induction js as [|j js IH]; intros st; simpl.
  - rewrite app_nil_r. auto.
  - destruct (runJob_effect j st) as (Eh & Ef & Eb & Ec).
    destruct (IH (runJob j st)) as [IHb IHc].
    rewrite IHb, IHc, Eh, Ef, Eb, Ec, app_assoc. auto.
Qed.

Lemma flush_called st :
  called (flush st) =
    called st ++ flat_map (callsOf (hyperCallbacks st) (factoryCallbacks st)) (batch st).
Proof. unfold flush. apply (foldl_runJob_effect (batch st) (setBatch [] st)). Qed.

Lemma foldl_runJob_making js : forall st s,
  (accessorJobsFor s js <> [] ->
   makingDestructureHyperCache (foldl (fun s j => runJob j s) st js) !! s = None) /\
  (accessorJobsFor s js = [] ->
   makingDestructureHyperCache (foldl (fun s j => runJob j s) st js) !! s =
     makingDestructureHyperCache st !! s) /\
  (factoryJobsFor s js <> [] ->
   makingDestructureCache (foldl (fun s j => runJob j s) st js) !! s = None) /\
  (factoryJobsFor s js = [] ->
   makingDestructureCache (foldl (fun s j => runJob j s) st js) !! s =
     makingDestructureCache st !! s).
Proof.
  induction js as [|j js IH]; intros st s.
  - simpl. repeat split; intros; congruence.
  - destruct (IH (runJob j st) s) as (A & B & C & D).
    assert (Hmono : forall js' st',
              makingDestructureHyperCache st' !! s = None ->
              makingDestructureHyperCache (foldl (fun s j => runJob j s) st' js') !! s = None).
    { clear. induction js' as [|j' js' IH']; intros st' Hn; [exact Hn|]. simpl.
      apply IH'. destruct j' as [p b sig arr|b d sig arr]; unfold runJob.
      - destruct (factoryDone_fields sig arr (mkFactory p b) st') as (-> & _). exact Hn.
      - destruct (done_fields sig arr (mkFn (quicklyExtractValueAtPath b) (Some d)) st')
          as (-> & _).
        destruct (decide (sig = s)) as [->|Hne];
          [apply lookup_delete_eq|rewrite lookup_delete_ne by exact Hne; exact Hn]. }
    assert (Hmono' : forall js' st',
              makingDestructureCache st' !! s = None ->
              makingDestructureCache (foldl (fun s j => runJob j s) st' js') !! s = None).
    { clear. induction js' as [|j' js' IH']; intros st' Hn; [exact Hn|]. simpl.
      apply IH'. destruct j' as [p b sig arr|b d sig arr]; unfold runJob.
      - destruct (factoryDone_fields sig arr (mkFactory p b) st') as (_ & -> & _).
        destruct (decide (sig = s)) as [->|Hne];
          [apply lookup_delete_eq|rewrite lookup_delete_ne by exact Hne; exact Hn].
      - destruct (done_fields sig arr (mkFn (quicklyExtractValueAtPath b) (Some d)) st')
          as (_ & -> & _). exact Hn. }
    simpl foldl.
    destruct j as [p b sig arr|b d sig arr]; unfold accessorJobsFor, factoryJobsFor;
      cbn [List.filter]; fold (accessorJobsFor s js); fold (factoryJobsFor s js).
    + destruct (factoryDone_fields sig arr (mkFactory p b) st) as (E1 & E2 & _).
      unfold runJob in *. rewrite E1 in B. split; [exact A|]. split; [exact B|].
      destruct (String.eqb_spec sig s) as [->|Hne].
      * split; [|discriminate]. intros _. apply Hmono'. rewrite E2.
        apply lookup_delete_eq.
      * rewrite E2, lookup_delete_ne in D by exact Hne. split; assumption.
    + destruct (done_fields sig arr (mkFn (quicklyExtractValueAtPath b) (Some d)) st)
        as (E1 & E2 & _).
      unfold runJob in *. rewrite E2 in D.
      destruct (String.eqb_spec sig s) as [->|Hne].
      * split; [|split; [discriminate|split; assumption]].
        intros _. apply Hmono. rewrite E1. apply lookup_delete_eq.
      * rewrite E1, lookup_delete_ne in B by exact Hne.
        split; [exact A|]. split; [exact B|]. split; assumption.
Qed.

(** X8: when all pending compilations have completed, nothing is left in
    progress: no compilation is pending and both [making...] maps are
    empty, from every reachable state. *)
Theorem nothing_left_in_progress st :
  reachable st ->
  batch (flush st) = [] /\
  makingDestructureHyperCache (flush st) = ∅ /\
  makingDestructureCache (flush st) = ∅.
Proof.
  intros Hre. pose proof (reachable_coherent _ Hre) as (A & B & C & D).
  unfold flush. split; [|split].
  - apply (foldl_runJob_effect (batch st) (setBatch [] st)).
  - apply map_empty. intros s.
    destruct (foldl_runJob_making (batch st) (setBatch [] st) s) as (H1 & H2 & _).
    destruct (makingDestructureHyperCache st !! s) as [m|] eqn:Hm.
    + apply H1. destruct (A s m Hm) as (_ & _ & b & d & ->). discriminate.
    + rewrite (H2 (B s Hm)). exact Hm.
  - apply map_empty. intros s.
    destruct (foldl_runJob_making (batch st) (setBatch [] st) s) as (_ & _ & H3 & H4).
    destruct (makingDestructureCache st !! s) as [m|] eqn:Hm.
    + apply H3. destruct (C s m Hm) as (_ & _ & p & b & ->). discriminate.
    + rewrite (H4 (D s Hm)). exact Hm.
Qed.

Lemma nothing_left_in_progress_witness :
  exists st,
    constructDestructureFunction (VStr <$> ["a"; "b"; "c"]) VUndefined 1 initialState
      = Ret st /\
    batch st <> [] /\
    batch (flush st) = [] /\
    makingDestructureHyperCache (flush st) = ∅ /\
    makingDestructureCache (flush st) = ∅.
Proof.
  pose (st := match constructDestructureFunction (VStr <$> ["a"; "b"; "c"]) VUndefined 1
                      initialState with Ret a => a | Throw _ => initialState end).
  assert (Hreq : constructDestructureFunction (VStr <$> ["a"; "b"; "c"]) VUndefined 1
                   initialState = Ret st) by reflexivity.
  exists st. split; [exact Hreq|]. split; [discriminate|].
  apply nothing_left_in_progress.
  exact (reachable_request _ _ _ _ _ reachable_initial Hreq).
Defined.

(** *** Every callback is called once *)

Lemma flat_map_ext_elem {A B} (f g : A -> list B) l :
  (forall x, x ∈ l -> f x = g x) -> flat_map f l = flat_map g l.
Proof.
  induction l as [|x l IH]; intros H; [reflexivity|]. simpl.
  rewrite (H x) by constructor. rewrite IH; [reflexivity|].
  intros y Hy. apply H. constructor. exact Hy.
Qed.

Lemma filter_single_split {A} (P : A -> bool) l x :
  List.filter P l = [x] ->
  exists l1 l2, l = l1 ++ x :: l2 /\ List.filter P l1 = [] /\ List.filter P l2 = [].
Proof.
  induction l as [|y l IH]; [discriminate|]. simpl.
  destruct (P y) eqn:Hy.
  - intros [= -> Hl]. exists [], l. auto.
  - intros Hl. destruct (IH Hl) as (l1 & l2 & -> & H1 & H2).
    exists (y :: l1), l2. simpl. rewrite Hy. auto.
Qed.

Lemma filter_nil_elem {A} (P : A -> bool) l x :
  List.filter P l = [] -> x ∈ l -> P x = false.
Proof.
  intros Hl Hx. destruct (P x) eqn:HP; [|reflexivity].
  assert (In x (List.filter P l)).
  { apply filter_In. split; [apply list_elem_of_In, Hx|exact HP]. }
  rewrite Hl in H. destruct H.
Qed.

(** The array of a pending compilation was allocated, and is that of its
    signature. *)
Lemma job_array st j :
  coherent st -> separated st -> j ∈ batch st ->
  match j with
  | AccessorJob _ _ sig arr =>
      makingDestructureHyperCache st !! sig = Some arr /\ arr < nextArray st /\
      is_Some (hyperCallbacks st !! arr)
  | FactoryJob _ _ sig arr =>
      makingDestructureCache st !! sig = Some arr /\ arr < nextArray st /\
      is_Some (factoryCallbacks st !! arr)
  end.
Proof.
  intros Hco (S1 & _ & S3 & _) [i Hi]%list_elem_of_lookup.
  destruct j as [p b sig arr|b d sig arr].
  - destruct (factoryJob_in_progress st i _ _ _ _ Hco Hi) as [Hm _].
    destruct Hco as (_ & _ & C & _). destruct (C _ _ Hm) as (_ & Hs & _).
    split; [exact Hm|]. split; [exact (S3 _ _ Hm)|exact Hs].
  - destruct (accessorJob_in_progress st i _ _ _ _ Hco Hi) as [Hm _].
    destruct Hco as (A & _). destruct (A _ _ Hm) as (_ & Hs & _).
    split; [exact Hm|]. split; [exact (S1 _ _ Hm)|exact Hs].
Qed.

Lemma calls_below st h' f' :
  coherent st -> separated st ->
  (forall arr, arr < nextArray st -> h' !! arr = hyperCallbacks st !! arr) ->
  (forall arr, arr < nextArray st -> f' !! arr = factoryCallbacks st !! arr) ->
  flat_map (callsOf h' f') (batch st) =
  flat_map (callsOf (hyperCallbacks st) (factoryCallbacks st)) (batch st).
Proof.
  intros Hco Hsep Hh Hf. apply flat_map_ext_elem. intros j Hj.
  pose proof (job_array st j Hco Hsep Hj) as Hja.
  destruct j as [p b sig arr|b d sig arr]; destruct Hja as (_ & Hlt & _); simpl.
  - rewrite (Hf _ Hlt). reflexivity.
  - rewrite (Hh _ Hlt). reflexivity.
Qed.

Lemma perm_called {A} (x : A) a b : (a ++ [x]) ++ b ≡ₚ x :: a ++ b.
Proof. rewrite <- app_assoc. simpl. symmetry. apply Permutation_middle. Qed.

Lemma perm_pending {A} (x : A) a b1 c b2 :
  a ++ b1 ++ (c ++ [x]) ++ b2 ≡ₚ x :: a ++ b1 ++ c ++ b2.
Proof.
  rewrite <- (app_assoc c [x] b2). simpl.
  rewrite !(app_assoc _ _ (x :: b2)). symmetry.
  rewrite !(app_assoc _ _ b2). apply Permutation_middle.
Qed.

Lemma called_once_immediate st st' callback f :
  coherent st -> separated st ->
  called st' = called st ++ [(callback, f)] ->
  batch st' = batch st ->
  (forall arr, arr < nextArray st -> hyperCallbacks st' !! arr = hyperCallbacks st !! arr) ->
  (forall arr, arr < nextArray st ->
               factoryCallbacks st' !! arr = factoryCallbacks st !! arr) ->
  called (flush st') ≡ₚ (callback, f) :: called (flush st).
Proof.
  intros Hco Hsep Hc Hb Hh Hf. rewrite !flush_called, Hc, Hb.
  rewrite (calls_below st _ _ Hco Hsep Hh Hf). apply perm_called.
Qed.

Lemma called_once_new_job st st' callback f j :
  coherent st -> separated st ->
  called st' = called st ->
  batch st' = batch st ++ [j] ->
  (forall arr, arr < nextArray st -> hyperCallbacks st' !! arr = hyperCallbacks st !! arr) ->
  (forall arr, arr < nextArray st ->
               factoryCallbacks st' !! arr = factoryCallbacks st !! arr) ->
  callsOf (hyperCallbacks st') (factoryCallbacks st') j = [(callback, f)] ->
  called (flush st') ≡ₚ (callback, f) :: called (flush st).
Proof.
  intros Hco Hsep Hc Hb Hh Hf Hj. rewrite !flush_called, Hc, Hb.
  rewrite flat_map_app. simpl. rewrite Hj, app_nil_r.
  rewrite (calls_below st _ _ Hco Hsep Hh Hf).
  rewrite app_assoc. symmetry. apply Permutation_cons_append.
Qed.

Lemma called_once_pushHyper st sig making callback :
  coherent st -> separated st ->
  makingDestructureHyperCache st !! sig = Some making ->
  exists f, called (flush (pushHyperCallback making callback st)) ≡ₚ
            (callback, f) :: called (flush st).
Proof.
  intros Hco Hsep Hm. pose proof Hco as (A & _).
  destruct (A _ _ Hm) as (_ & [l Hl] & body & detail & Hjobs).
  exists (mkFn (quicklyExtractValueAtPath body) (Some detail)).
  rewrite !flush_called. simpl.
  destruct (filter_single_split _ _ _ Hjobs) as (l1 & l2 & Hb & H1 & H2).
  assert (Hother : forall j, j ∈ l1 ++ l2 ->
            callsOf (alter (fun l => l ++ [callback]) making (hyperCallbacks st))
                    (factoryCallbacks st) j =
            callsOf (hyperCallbacks st) (factoryCallbacks st) j).
  { intros j Hj.
    assert (Hin : j ∈ batch st).
    { rewrite Hb. apply elem_of_app in Hj as [Hj|Hj]; apply elem_of_app;
        [left; exact Hj|right; constructor; exact Hj]. }
    assert (Hno : (fun j => match j with
                            | AccessorJob _ _ s _ => String.eqb s sig
                            | FactoryJob _ _ _ _ => false
                            end) j = false).
    { apply elem_of_app in Hj as [Hj|Hj];
        [exact (filter_nil_elem _ _ _ H1 Hj)|exact (filter_nil_elem _ _ _ H2 Hj)]. }
    pose proof (job_array st j Hco Hsep Hin) as Hja.
    destruct j as [p b s arr|b d s arr]; [reflexivity|]. simpl.
    destruct Hja as (Hs & _). apply String.eqb_neq in Hno.
    rewrite lookup_alter_ne; [reflexivity|].
    intros <-. destruct Hsep as (_ & Inj & _). apply Hno. exact (Inj _ _ _ Hs Hm). }
  rewrite Hb, !flat_map_app. simpl.
  rewrite (flat_map_ext_elem _ (callsOf (hyperCallbacks st) (factoryCallbacks st)) l1)
    by (intros j Hj; apply Hother, elem_of_app; left; exact Hj).
  rewrite (flat_map_ext_elem _ (callsOf (hyperCallbacks st) (factoryCallbacks st)) l2)
    by (intros j Hj; apply Hother, elem_of_app; right; exact Hj).
  rewrite lookup_alter_eq, Hl. simpl. rewrite fmap_app. simpl.
  apply perm_pending.
Qed.

Lemma called_once_pushFactory st sig making callback path :
  coherent st -> separated st ->
  makingDestructureCache st !! sig = Some making ->
  exists f, called (flush (pushFactoryCallback making (callback, path) st)) ≡ₚ
            (callback, f) :: called (flush st).
Proof.
  intros Hco Hsep Hm. pose proof Hco as (_ & _ & C & _).
  destruct (C _ _ Hm) as (_ & [l Hl] & params & body & Hjobs).
  exists (plainFn (callFactory (mkFactory params body) path)).
  rewrite !flush_called. simpl.
  destruct (filter_single_split _ _ _ Hjobs) as (l1 & l2 & Hb & H1 & H2).
  assert (Hother : forall j, j ∈ l1 ++ l2 ->
            callsOf (hyperCallbacks st)
                    (alter (fun l => l ++ [(callback, path)]) making (factoryCallbacks st)) j =
            callsOf (hyperCallbacks st) (factoryCallbacks st) j).
  { intros j Hj.
    assert (Hin : j ∈ batch st).
    { rewrite Hb. apply elem_of_app in Hj as [Hj|Hj]; apply elem_of_app;
        [left; exact Hj|right; constructor; exact Hj]. }
    assert (Hno : (fun j => match j with
                            | FactoryJob _ _ s _ => String.eqb s sig
                            | AccessorJob _ _ _ _ => false
                            end) j = false).
    { apply elem_of_app in Hj as [Hj|Hj];
        [exact (filter_nil_elem _ _ _ H1 Hj)|exact (filter_nil_elem _ _ _ H2 Hj)]. }
    pose proof (job_array st j Hco Hsep Hin) as Hja.
    destruct j as [p b s arr|b d s arr]; [|reflexivity]. simpl.
    destruct Hja as (Hs & _). apply String.eqb_neq in Hno.
    rewrite lookup_alter_ne; [reflexivity|].
    intros <-. destruct Hsep as (_ & _ & _ & Inj). apply Hno. exact (Inj _ _ _ Hs Hm). }
  rewrite Hb, !flat_map_app. simpl.
  rewrite (flat_map_ext_elem _ (callsOf (hyperCallbacks st) (factoryCallbacks st)) l1)
    by (intros j Hj; apply Hother, elem_of_app; left; exact Hj).
  rewrite (flat_map_ext_elem _ (callsOf (hyperCallbacks st) (factoryCallbacks st)) l2)
    by (intros j Hj; apply Hother, elem_of_app; right; exact Hj).
  rewrite lookup_alter_eq, Hl. simpl. rewrite fmap_app. simpl.
  apply perm_pending.
Qed.

Lemma lookup_insert_below {A} (m : gmap nat A) n x arr :
  arr < n -> <[n := x]> m !! arr = m !! arr.
Proof. intros H. apply lookup_insert_ne. lia. Qed.

Lemma request_called_once path fallback callback st st' :
  coherent st -> separated st ->
  constructDestructureFunction path fallback callback st = Ret st' ->
  exists f, called (flush st') ≡ₚ (callback, f) :: called (flush st).
Proof.
  intros Hco Hsep.
  unfold constructDestructureFunction.
  destruct (selectMode path) as [m|e]; simpl; [|discriminate].
  destruct m.
  - intros [= <-]. eexists. apply called_once_immediate; try assumption; reflexivity.
  - destruct (makeDestructureCache st !! _) as [factory|] eqn:Hc.
    + intros [= <-]. eexists. apply called_once_immediate; try assumption; reflexivity.
    + destruct (makingDestructureCache st !! _) as [callbacks|] eqn:Hm.
      * intros [= <-]. eapply called_once_pushFactory; eassumption.
      * intros [= <-]. eexists.
        eapply called_once_new_job; try assumption; try reflexivity.
        -- intros arr Hlt. simpl. apply lookup_insert_below, Hlt.
        -- simpl. rewrite lookup_insert_eq. reflexivity.
  - destruct (join "|" path) as [sig|e]; simpl; [|discriminate].
    set (st1 := setHyperCache (snd (lruGet sig (makeDestructureHyperCache st))) st).
    assert (Hflush : called (flush st1) = called (flush st))
      by (rewrite !flush_called; reflexivity).
    assert (Hco1 : coherent st1) by apply coherent_hoist, Hco.
    assert (Hsep1 : separated st1) by (revert Hsep; apply separated_same; reflexivity).
    rewrite <- Hflush.
    destruct (fst (lruGet sig (makeDestructureHyperCache st))) as [f|].
    + intros [= <-]. eexists. apply called_once_immediate; try assumption; reflexivity.
    + change (makingDestructureHyperCache st !! sig)
        with (makingDestructureHyperCache st1 !! sig).
      destruct (makingDestructureHyperCache st1 !! sig) as [making|] eqn:Hm.
      * intros [= <-]. eapply called_once_pushHyper; eassumption.
      * assert (Hnow : forall f,
                  called (flush (done sig (nextArray st) f
                                      (startMakingHyper sig callback st1)))
                  ≡ₚ (callback, f) :: called (flush st1)).
        { intros f.
          match goal with
          | |- context [done ?s ?a ?g ?x] =>
              destruct (done_fields s a g x) as (_ & _ & E3 & E4 & _)
          end.
          apply called_once_immediate; try assumption.
          - unfold done.
            rewrite (called_foldl_invoke (fun c : nat => c) (fun _ => f)).
            simpl. rewrite lookup_insert_eq. reflexivity.
          - unfold done.
            rewrite (called_foldl_invoke (fun c : nat => c) (fun _ => f)).
            reflexivity.
          - intros arr Hlt. rewrite E3. simpl. apply lookup_insert_below, Hlt.
          - intros arr Hlt. rewrite E4. reflexivity. }
        assert (Hjob : forall body detail,
                  called (flush (runInBatch (AccessorJob body detail sig (nextArray st))
                                            (startMakingHyper sig callback st1)))
                  ≡ₚ (callback, mkFn (quicklyExtractValueAtPath body) (Some detail))
                     :: called (flush st1)).
        { intros body detail.
          eapply called_once_new_job; try assumption; try reflexivity.
          - intros arr Hlt. simpl. apply lookup_insert_below, Hlt.
          - simpl. rewrite lookup_insert_eq. reflexivity. }
        destruct path as [|k1 [|k2 [|k3 rest]]]; intros [= <-]; eexists;
          first [apply Hnow | apply Hjob].
Qed.

(** X7: every request is answered exactly once. In any state that requests
    and completions can reach, once the pending compilations have completed
    after a successful request, the calls made are those that would have been
    made without the request, plus exactly one call of the request's
    callback. *)
Theorem callback_called_once path fallback callback st st' :
  reachable st ->
  constructDestructureFunction path fallback callback st = Ret st' ->
  exists f, called (flush st') ≡ₚ (callback, f) :: called (flush st).
Proof.
  intros Hre. apply request_called_once.
  - apply reachable_coherent, Hre.
  - apply reachable_separated, Hre.
Qed.

Lemma callback_called_once_witness :
  exists st st' f,
    constructDestructureFunction (VStr <$> ["a"; "b"; "c"]) VUndefined 1 initialState
      = Ret st /\
    constructDestructureFunction (VStr <$> ["a"; "b"; "c"]) VUndefined 2 st = Ret st' /\
    called (flush st') ≡ₚ (2, f) :: called (flush st).
Proof.
  pose (st := match constructDestructureFunction (VStr <$> ["a"; "b"; "c"]) VUndefined 1
                      initialState with Ret a => a | Throw _ => initialState end).
  pose (st' := match constructDestructureFunction (VStr <$> ["a"; "b"; "c"]) VUndefined 2
                       st with Ret a => a | Throw _ => initialState end).
  assert (H1 : constructDestructureFunction (VStr <$> ["a"; "b"; "c"]) VUndefined 1
                 initialState = Ret st) by reflexivity.
  assert (H2 : constructDestructureFunction (VStr <$> ["a"; "b"; "c"]) VUndefined 2 st
               = Ret st') by reflexivity.
  destruct (callback_called_once _ _ _ _ _
              (reachable_request _ _ _ _ _ reachable_initial H1) H2) as [f Hf].
  exists st, st', f. auto.
Defined.

(** ** Requests made by [optimize] *)

(** X11: when [optimize] does not fuse (the dependency is not an access
    step without fallback) and the path is acceptable, it returns the step
    itself and, in every reachable state of the caches, the step has an
    [unbatchedExecute] function installed once the pending compilations have
    completed. *)
Theorem optimize_installs_an_accessor id dep path fallback nextId st :
  reachable st ->
  (forall gid g gp gf, dep = AccessStep gid g gp gf -> strictEq gf VUndefined = false) ->
  Forall (fun v => isSegment v = true \/ forcesSlow v = true) path ->
  exists st',
    optimize (AccessStep id dep path fallback) (nextId, st) =
      Ret (AccessStep id dep path fallback, (nextId, st')) /\
    reachable st' /\
    is_Some (unbatchedExecuteOf (flush st') id).
Proof.
  intros Hre Hdep Hok.
  destruct (constructDestructureFunction_returns path fallback id st _
              (selectMode_ok path (acceptable_forallb path Hok))) as [st' Hreq].
  exists st'. split; [|split].
  - destruct dep as [gid|gid g gp gf]; simpl.
    + rewrite Hreq. reflexivity.
    + rewrite (Hdep gid g gp gf eq_refl), Hreq. reflexivity.
  - exact (reachable_request _ _ _ _ _ Hre Hreq).
  - destruct (request_called_once _ _ _ _ _ (reachable_coherent _ Hre)
                (reachable_separated _ Hre) Hreq) as [f Hf].
    unfold unbatchedExecuteOf.
    destruct (last (List.filter (fun c => Nat.eqb (fst c) id) (called (flush st'))))
      as [c|] eqn:Hl; [eexists; reflexivity|].
    apply last_None in Hl. exfalso.
    assert (Hin : In (id, f) (List.filter (fun c => Nat.eqb (fst c) id)
                                          (called (flush st')))).
    { apply filter_In. split; [|apply Nat.eqb_refl].
      apply list_elem_of_In. rewrite Hf. constructor. }
    rewrite Hl in Hin. destruct Hin.
Qed.

Lemma optimize_installs_an_accessor_witness :
  exists st',
    optimize (AccessStep 1 (ExecutableStep 0) (VStr <$> ["a"; "b"; "c"]) VUndefined)
             (2, initialState) =
      Ret (AccessStep 1 (ExecutableStep 0) (VStr <$> ["a"; "b"; "c"]) VUndefined,
           (2, st')) /\
    reachable st' /\
    is_Some (unbatchedExecuteOf (flush st') 1).
Proof.
  apply optimize_installs_an_accessor.
  - apply reachable_initial.
  - discriminate.
  - repeat constructor.
Defined.

(** X10: starting from empty caches, the function handed to the callback
    carries the [expressionSymbol] detail [[expression, fallback]] for its
    own path and fallback exactly when the path is in the turbo tier;
    functions of the other tiers carry none. *)
Theorem expression_detail_only_on_turbo path fallback m :
  selectMode path = Ret m ->
  exists f,
    compiledAccessor path fallback = Ret f /\
    expressionDetail f =
      (if decide (m = TurboMode) then Some (TeGet <$> path, fallback) else None).
Proof.
  intros Hm. exists (builtFor m path fallback).
  split; [apply compiledAccessor_builtFor, Hm|].
  destruct m; reflexivity.
Qed.

Lemma expression_detail_only_on_turbo_witness :
  exists f,
    compiledAccessor [VStr "a"; VNum (Finite 0)] VNull = Ret f /\
    expressionDetail f = Some (TeGet <$> [VStr "a"; VNum (Finite 0)], VNull).
Proof.
  apply (expression_detail_only_on_turbo [VStr "a"; VNum (Finite 0)] VNull TurboMode).
  reflexivity.
Defined.

(** X6: a request in slow mode, and a request in turbo mode for a path of one
    or two keys, never asks for a compilation: the number of calls of
    [te.runInBatch] and the pending compilations are unchanged, in every
    state of the caches. *)
Theorem short_and_slow_paths_need_no_compilation path fallback callback st st' m :
  selectMode path = Ret m ->
  m = SlowMode \/ (m = TurboMode /\ (length path = 1 \/ length path = 2)) ->
  constructDestructureFunction path fallback callback st = Ret st' ->
  requested st' = requested st /\ batch st' = batch st.
Proof.
  intros Hm Hcase. unfold constructDestructureFunction. rewrite Hm. simpl.
  destruct Hcase as [->|[-> Hlen]].
  - intros [= <-]. auto.
  - destruct (join "|" path) as [sig|e]; simpl; [|discriminate].
    destruct (fst (lruGet sig (makeDestructureHyperCache st))) as [f|].
    + intros [= <-]. auto.
    + destruct (makingDestructureHyperCache st !! sig) as [making|].
      * intros [= <-]. auto.
      * destruct path as [|k1 [|k2 [|k3 rest]]]; simpl in Hlen; try lia;
          intros [= <-]; unfold done;
          rewrite (called_foldl_invoke (fun c : nat => c)); auto.
Qed.

Lemma short_and_slow_paths_need_no_compilation_witness :
  exists st',
    constructDestructureFunction [VStr "a"; VStr "b"] VUndefined 1 initialState = Ret st' /\
    requested st' = requested initialState /\ batch st' = batch initialState.
Proof.
  pose (st' := match constructDestructureFunction [VStr "a"; VStr "b"] VUndefined 1
                       initialState with Ret a => a | Throw _ => initialState end).
  assert (Hreq : constructDestructureFunction [VStr "a"; VStr "b"] VUndefined 1
                   initialState = Ret st') by reflexivity.
  exists st'. split; [exact Hreq|].
  apply (short_and_slow_paths_need_no_compilation _ _ _ _ _ TurboMode) in Hreq;
    [exact Hreq|reflexivity|right; split; [reflexivity|right; reflexivity]].
Defined.

(** ** [get], [at], [deduplicate] and the turbo signature *)

Lemma filter_idem {A} (f : A -> bool) l :
  List.filter f (List.filter f l) = List.filter f l.
Proof.
  induction l as [|x l IH]; [reflexivity|]. simpl.
  destruct (f x) eqn:Hx; [|exact IH]. simpl. rewrite Hx, IH. reflexivity.
Qed.

(** X13: deduplication is idempotent: applying [deduplicate] to its own
    result returns that result. *)
Theorem deduplicate_idempotent this peers result :
  deduplicate this peers = Ret result ->
  deduplicate this result = Ret result.
Proof.
  destruct this as [id|id dep path fallback]; [discriminate|].
  simpl. intros [= <-]. rewrite filter_idem. reflexivity.
Qed.

Lemma deduplicate_idempotent_witness :
  deduplicate (AccessStep 2 (ExecutableStep 0) [VStr "a"] VUndefined)
              [AccessStep 3 (ExecutableStep 1) [VStr "a"] VUndefined] =
    Ret [AccessStep 3 (ExecutableStep 1) [VStr "a"] VUndefined].
Proof.
  apply (deduplicate_idempotent _
           [AccessStep 3 (ExecutableStep 1) [VStr "a"] VUndefined;
            AccessStep 4 (ExecutableStep 1) [VStr "b"] VUndefined]).
  reflexivity.
Defined.

Lemma strictEq_sym a b : strictEq a b = strictEq b a.
Proof.
  value_cases a; value_cases b; simpl; try reflexivity.
  - destruct b, b0; reflexivity.
  - apply Z.eqb_sym.
  - apply String.eqb_sym.
  - apply Nat.eqb_sym.
  - apply Nat.eqb_sym.
Qed.

Lemma strictEq_trans a b c :
  strictEq a b = true -> strictEq b c = true -> strictEq a c = true.
Proof.
  value_cases a; value_cases b; simpl; try discriminate;
    value_cases c; simpl; try discriminate; try reflexivity.
  - destruct b, b0, b1; simpl; congruence.
  - rewrite !Z.eqb_eq. congruence.
  - rewrite !String.eqb_eq. congruence.
  - rewrite !Nat.eqb_eq. congruence.
  - rewrite !Nat.eqb_eq. congruence.
Qed.

Lemma deduplicate_single a b :
  deduplicate a [b] = Ret [b] <->
  exists ia da pa fa ib db pb fb,
    a = AccessStep ia da pa fa /\ b = AccessStep ib db pb fb /\
    strictEq fb fa = true /\ jsonStringify pb = jsonStringify pa.
Proof.
  split.
  - destruct a as [ia|ia da pa fa]; [discriminate|].
    destruct b as [ib|ib db pb fb]; [discriminate|].
    unfold deduplicate. cbn [List.filter].
    destruct (strictEq fb fa) eqn:He; [|discriminate].
    destruct (String.eqb_spec (jsonStringify pb) (jsonStringify pa)) as [Hj|Hj];
      [|discriminate].
    intros _. exists ia, da, pa, fa, ib, db, pb, fb. auto.
  - intros (ia & da & pa & fa & ib & db & pb & fb & -> & -> & He & Hj).
    unfold deduplicate. cbn [List.filter].
    rewrite He, Hj, String.eqb_refl. reflexivity.
Qed.

Lemma strictEq_refl_iff v : strictEq v v = true <-> v <> VNum NaN.
Proof.
  value_cases v; simpl; split; try congruence; intros _.
  - apply eqb_reflx.
  - apply Z.eqb_refl.
  - apply String.eqb_refl.
  - apply Nat.eqb_refl.
  - apply Nat.eqb_refl.
Qed.

(** X14: being a peer of the same path and fallback is symmetric and
    transitive, and a step is a peer of itself unless its fallback is [NaN]
    (which [===] tells apart from itself). *)
Theorem deduplicate_partial_equivalence a b c :
  (deduplicate a [b] = Ret [b] -> deduplicate b [a] = Ret [a])
  /\ (deduplicate a [b] = Ret [b] -> deduplicate b [c] = Ret [c] ->
      deduplicate a [c] = Ret [c])
  /\ (forall id dep path fallback,
        a = AccessStep id dep path fallback ->
        (deduplicate a [a] = Ret [a] <-> fallback <> VNum NaN)).
Proof.
  rewrite !deduplicate_single. split; [|split].
  - intros (ia & da & pa & fa & ib & db & pb & fb & -> & -> & He & Hj).
    exists ib, db, pb, fb, ia, da, pa, fa. rewrite strictEq_sym. auto.
  - intros (ia & da & pa & fa & ib & db & pb & fb & -> & -> & He & Hj)
           (ib' & db' & pb' & fb' & ic & dc & pc & fc & Hb & -> & He' & Hj').
    injection Hb as <- <- <- <-.
    exists ia, da, pa, fa, ic, dc, pc, fc. repeat split; [|congruence].
    eapply strictEq_trans; eassumption.
  - intros id dep path fallback ->.
    rewrite deduplicate_single, <- strictEq_refl_iff. split.
    + intros (ia & da & pa & fa & ib & db & pb & fb & Ha & Hb & He & _).
      injection Ha as <- <- <- <-. injection Hb as <- <- <- <-. exact He.
    + intros He. exists id, dep, path, fallback, id, dep, path, fallback. auto.
Qed.

Lemma deduplicate_partial_equivalence_witness :
  deduplicate (AccessStep 3 (ExecutableStep 1) [VNum (Finite 0)] VNull)
              [AccessStep 2 (ExecutableStep 0) [VNum (Finite 0)] VNull] =
    Ret [AccessStep 2 (ExecutableStep 0) [VNum (Finite 0)] VNull].
Proof.
  apply (proj1 (deduplicate_partial_equivalence
                  (AccessStep 2 (ExecutableStep 0) [VNum (Finite 0)] VNull)
                  (AccessStep 3 (ExecutableStep 1) [VNum (Finite 0)] VNull)
                  (ExecutableStep 0))).
  reflexivity.
Defined.

(** X12: on a step without fallback, [get] and [at] build directly the step
    that [optimize] returns for [access(this, key)]: same dependency, path
    extended by the key, no fallback. *)
Theorem get_and_at_build_the_fused_step id dep path k nextId st :
  let this := AccessStep id dep path VUndefined in
  let viaAccess := fst (access this (PathKey k) VUndefined nextId) in
  let fused := AccessStep (S nextId) dep (path ++ [k]) VUndefined in
  optimize viaAccess (S nextId, st) = Ret (fused, (S (S nextId), st))
  /\ (typeof k = "string" -> get this k (S nextId) = Ret (fused, S (S nextId)))
  /\ (typeof k = "number" -> at_ this k (S nextId) = Ret (fused, S (S nextId))).
Proof.
  simpl. split; [reflexivity|]. split; intros ->; reflexivity.
Qed.

Lemma get_and_at_build_the_fused_step_witness :
  get (AccessStep 1 (ExecutableStep 0) [VStr "a"] VUndefined) (VStr "b") 3 =
    Ret (AccessStep 3 (ExecutableStep 0) ([VStr "a"] ++ [VStr "b"]) VUndefined, 4).
Proof.
  apply (proj1 (proj2 (get_and_at_build_the_fused_step
                         1 (ExecutableStep 0) [VStr "a"] (VStr "b") 2 initialState))).
  reflexivity.
Defined.

(** *** The turbo signature *)

Lemma allChars_app P a b : allChars P (a +:+ b) = allChars P a && allChars P b.
Proof.
  induction a as [|c a IH]; [reflexivity|].
  rewrite append_cons. simpl. rewrite IH, andb_assoc. reflexivity.
Qed.

Lemma allChars_impl (P Q : ascii -> bool) s :
  (forall c, P c = true -> Q c = true) -> allChars P s = true -> allChars Q s = true.
Proof.
  intros HPQ. induction s as [|c s IH]; [reflexivity|]. simpl.
  intros [Hc Hs]%andb_true_iff. rewrite (HPQ _ Hc), (IH Hs). reflexivity.
Qed.

Lemma includes_separator s : includes s "|" = false -> allChars notSeparator s = true.
Proof.
  induction s as [|c s IH]; [reflexivity|].
  cbn [includes allChars].
  intros [Hp Hs]%orb_false_iff. rewrite (IH Hs), andb_true_r.
  unfold notSeparator. destruct (Ascii.eqb_spec c "|") as [->|Hc]; [|reflexivity].
  exfalso. destruct s; discriminate Hp.
Qed.

Lemma segmentText_clean v :
  isPlain v = true -> hasSeparator v = false ->
  joinElement v = Ret (segmentText v) /\
  toPropertyKey v = KStr (segmentText v) /\
  allChars notSeparator (segmentText v) = true.
Proof.
  value_cases v; try discriminate; simpl; intros _ Hs.
  - repeat split. apply (allChars_impl isNumberChar); [|apply pretty_Z_number].
    intros c Hc. unfold notSeparator. destruct (Ascii.eqb_spec c "|") as [->|]; [|reflexivity].
    discriminate.
  - repeat split. apply includes_separator, Hs.
Qed.

Lemma join_texts path :
  forallb isPlain path = true -> existsb hasSeparator path = false ->
  join "|" path = Ret (joinStrings "|" (segmentText <$> path)) /\
  toPropertyKey <$> path = KStr <$> (segmentText <$> path) /\
  Forall (fun t => allChars notSeparator t = true) (segmentText <$> path).
Proof.
  induction path as [|v path IH]; [repeat split; constructor|].
  simpl forallb. simpl existsb.
  intros [Hv Hp]%andb_true_iff [Hs Hps]%orb_false_iff.
  destruct (segmentText_clean v Hv Hs) as (Hj & Hk & Hc).
  destruct (IH Hp Hps) as (IHj & IHk & IHc).
  split; [|split].
  - destruct path as [|w path]; [exact Hj|].
    change (join "|" (v :: w :: path))
      with (s ← joinElement v; r ← join "|" (w :: path); Ret (s +:+ "|" +:+ r)).
    rewrite Hj, IHj. reflexivity.
  - rewrite !fmap_cons, Hk, IHk. reflexivity.
  - rewrite fmap_cons. constructor; assumption.
Qed.

Lemma joinStrings_separator_inj t1 : forall t2,
  t1 <> [] -> t2 <> [] ->
  Forall (fun t => allChars notSeparator t = true) t1 ->
  Forall (fun t => allChars notSeparator t = true) t2 ->
  joinStrings "|" t1 = joinStrings "|" t2 -> t1 = t2.
Proof.
  induction t1 as [|a t1 IH]; intros t2 Hn1 Hn2 H1 H2 Heq; [contradiction|].
  destruct t2 as [|b t2]; [contradiction|].
  apply Forall_cons in H1 as [Ha H1]. apply Forall_cons in H2 as [Hb H2].
  destruct t1 as [|a2 t1], t2 as [|b2 t2].
  - simpl in Heq. congruence.
  - exfalso. change (a = b +:+ "|" +:+ joinStrings "|" (b2 :: t2)) in Heq.
    rewrite Heq, allChars_app, allChars_app in Ha.
    apply andb_true_iff in Ha as [_ Ha]. discriminate.
  - exfalso. change (a +:+ "|" +:+ joinStrings "|" (a2 :: t1) = b) in Heq.
    rewrite <- Heq, allChars_app, allChars_app in Hb.
    apply andb_true_iff in Hb as [_ Hb]. discriminate.
  - change (a +:+ String "|" (joinStrings "|" (a2 :: t1)) =
            b +:+ String "|" (joinStrings "|" (b2 :: t2))) in Heq.
    apply (split_at_delimiter notSeparator) in Heq as (-> & _ & Heq);
      [|assumption|assumption|reflexivity|reflexivity].
    f_equal. apply IH; [discriminate|discriminate|assumption|assumption|exact Heq].
Qed.

Lemma chain_same_keys inherited p : forall q v,
  toPropertyKey <$> p = toPropertyKey <$> q ->
  chain inherited p v = chain inherited q v.
Proof.
  induction p as [|k p IH]; intros [|k' q] v Hk; try discriminate; [reflexivity|].
  rewrite !fmap_cons in Hk. injection Hk as Hk Hrest.
  unfold chain. simpl. rewrite Hk. apply (IH q), Hrest.
Qed.

Lemma strictWalk_same_keys inherited p : forall q v,
  toPropertyKey <$> p = toPropertyKey <$> q ->
  strictWalk inherited p v = strictWalk inherited q v.
Proof.
  induction p as [|k p IH]; intros [|k' q] v Hk; try discriminate; [reflexivity|].
  rewrite !fmap_cons in Hk. injection Hk as Hk Hrest.
  simpl. unfold member. rewrite Hk.
  destruct (looseEqNull v); simpl; [reflexivity|]. apply (IH q), Hrest.
Qed.

(** X9: the turbo signature is unambiguous when no string contains the
    separator. Two non-empty paths of strings and finite numbers without a
    [|] that have the same signature [path.join("|")] read the same property
    keys, so the accessor built for one returns, for the same fallback, what
    the accessor built for the other returns. *)
Theorem signature_determines_accessor p q signature :
  p <> [] -> q <> [] ->
  forallb isPlain p = true -> forallb isPlain q = true ->
  existsb hasSeparator p = false -> existsb hasSeparator q = false ->
  join "|" p = Ret signature -> join "|" q = Ret signature ->
  toPropertyKey <$> p = toPropertyKey <$> q
  /\ forall inherited fallback extra v,
       call inherited (turboAccessor p fallback) extra v =
       call inherited (turboAccessor q fallback) extra v.
Proof.
  intros Hp Hq Pp Pq Sp Sq Jp Jq.
  destruct (join_texts p Pp Sp) as (Jp' & Kp & Cp).
  destruct (join_texts q Pq Sq) as (Jq' & Kq & Cq).
  assert (Ht : segmentText <$> p = segmentText <$> q).
  { apply joinStrings_separator_inj; try assumption.
    - destruct p; [contradiction|discriminate].
    - destruct q; [contradiction|discriminate].
    - congruence. }
  assert (Hk : toPropertyKey <$> p = toPropertyKey <$> q) by congruence.
  split; [exact Hk|]. intros inherited fallback extra v.
  assert (Hlen : length p = length q).
  { rewrite <- (length_fmap toPropertyKey p), Hk. apply length_fmap. }
  destruct (decide (length p = 1 \/ length p = 2)) as [Hs|Hg].
  - rewrite !call_turboAccessor_short by (rewrite <- ?Hlen; exact Hs).
    rewrite (chain_same_keys inherited p q v Hk). reflexivity.
  - rewrite !turboAccessor_generated by lia.
    rewrite !call_generated, (strictWalk_same_keys inherited p q v Hk). reflexivity.
Qed.

Lemma signature_determines_accessor_witness :
  toPropertyKey <$> [VStr "a"; VNum (Finite 0)] = toPropertyKey <$> [VStr "a"; VStr "0"]
  /\ forall inherited fallback extra v,
       call inherited (turboAccessor [VStr "a"; VNum (Finite 0)] fallback) extra v =
       call inherited (turboAccessor [VStr "a"; VStr "0"] fallback) extra v.
Proof.
  apply (signature_determines_accessor _ _ "a|0");
    solve [discriminate | reflexivity].
Defined.

(** ** The registration pass of [planToMermaid] *)

Lemma registerSteps_Ret l : forall r r',
  registerSteps l r = Ret r' ->
  layerPlanById r' = layerPlanById r /\
  sortedSteps r' = sortedSteps r ++ l /\
  dependentsByStepId r' =
    foldl (fun m s => addDependents s m) (dependentsByStepId r) l.
Proof.
  induction l as [|s l IH]; intros r r'; simpl.
  - intros [= <-]. rewrite app_nil_r. auto.
  - destruct (stepById r !! sj_id s); [discriminate|].
    intros H. destruct (IH _ _ H) as (E1 & E2 & E3). simpl in *.
    rewrite E1, E2, E3, <- app_assoc. auto.
Qed.

Lemma extractChildren_Ret cs :
  Forall extractSteps_effect cs ->
  forall r r', extractChildren cs r = Ret r' ->
    sortedSteps r' = sortedSteps r ++ flat_map visitOrder cs /\
    dependentsByStepId r' =
      foldl (fun m s => addDependents s m) (dependentsByStepId r) (flat_map visitOrder cs) /\
    layerPlanById r' =
      foldl (fun m b' => <[bucketId b' := b']> m) (layerPlanById r) (flat_map buckets cs).
Proof.
  induction 1 as [|c cs Hc _ IH]; intros r r'; simpl.
  - intros [= <-]. rewrite app_nil_r. auto.
  - destruct (extractSteps c r) as [r1|e] eqn:H1; simpl; [|discriminate].
    intros H2. destruct (Hc _ _ H1) as (A1 & A2 & A3).
    destruct (IH _ _ H2) as (B1 & B2 & B3).
    rewrite B1, B2, B3, A1, A2, A3, !foldl_app, <- app_assoc. auto.
Qed.

Lemma visitOrder_unfold id steps children :
  visitOrder (BucketJSON id steps children) =
    sortSteps steps ++ flat_map visitOrder children.
Proof.
  unfold visitOrder. simpl. f_equal.
  induction children as [|c cs IH]; [reflexivity|].
  simpl. rewrite flat_map_app, IH. reflexivity.
Qed.

Lemma extractSteps_Ret b : extractSteps_effect b.
Proof.
  induction b as [id steps children IH] using bucketJSON_tree_ind.
  intros r r'. rewrite extractSteps_unfold.
  destruct (registerSteps _ _) as [r2|e] eqn:H1; simpl; [|discriminate].
  intros H2. destruct (registerSteps_Ret _ _ _ H1) as (A1 & A2 & A3).
  destruct (extractChildren_Ret children IH _ _ H2) as (B1 & B2 & B3).
  simpl in A1, A2, A3.
  rewrite visitOrder_unfold, B1, B2, B3, A1, A2, A3, !foldl_app, <- app_assoc.
  auto.
Qed.

Lemma planToMermaid_Ret plan r :
  planToMermaid plan = Ret r ->
  sortedSteps r = visitOrder (rootBucket plan) /\
  dependentsByStepId r =
    foldl (fun m s => addDependents s m) ∅ (visitOrder (rootBucket plan)) /\
  layerPlanById r =
    foldl (fun m b' => <[bucketId b' := b']> m) ∅ (buckets (rootBucket plan)).
Proof.
  unfold planToMermaid. destruct (negb _); [discriminate|].
  intros H. exact (extractSteps_Ret _ _ _ H).
Qed.

(** *** The order of [sortedSteps] *)

Lemma insertSorted_sorted a l :
  StronglySorted (fun x z => length (sj_dependencyIds z) <= length (sj_dependencyIds x)) l ->
  StronglySorted (fun x z => length (sj_dependencyIds z) <= length (sj_dependencyIds x))
                 (insertSorted a l).
Proof.
  induction 1 as [|z rest Hs IH Hz]; simpl.
  - constructor; constructor.
  - destruct (Nat.leb_spec (length (sj_dependencyIds z)) (length (sj_dependencyIds a)))
      as [Hle|Hgt].
    + constructor; [constructor; assumption|].
      constructor; [exact Hle|].
      eapply Forall_impl; [exact Hz|]. simpl. intros x Hx. lia.
    + constructor; [exact IH|].
      rewrite (insertSorted_perm a rest). constructor; [lia|exact Hz].
Qed.

Lemma insertSorted_stable n a l :
  List.filter (fun s => Nat.eqb (length (sj_dependencyIds s)) n) (insertSorted a l) =
  List.filter (fun s => Nat.eqb (length (sj_dependencyIds s)) n) (a :: l).
Proof.
  induction l as [|z rest IH]; [reflexivity|].
  cbn [insertSorted].
  destruct (Nat.leb_spec (length (sj_dependencyIds z)) (length (sj_dependencyIds a)))
    as [Hle|Hgt]; [reflexivity|].
  cbn [List.filter] in *. rewrite IH.
  destruct (Nat.eqb_spec (length (sj_dependencyIds a)) n) as [Ha|Ha];
    destruct (Nat.eqb_spec (length (sj_dependencyIds z)) n) as [Hz|Hz];
    try reflexivity.
  lia.
Qed.

(** X15: the sort of a bucket's steps keeps the steps, puts them in
    decreasing number of dependencies, and keeps steps with the same number
    of dependencies in their original order. *)
Theorem sortSteps_descending_and_stable steps :
  sortSteps steps ≡ₚ steps
  /\ StronglySorted
       (fun a z => length (sj_dependencyIds z) <= length (sj_dependencyIds a))
       (sortSteps steps)
  /\ forall n,
       List.filter (fun s => Nat.eqb (length (sj_dependencyIds s)) n) (sortSteps steps) =
       List.filter (fun s => Nat.eqb (length (sj_dependencyIds s)) n) steps.
Proof.
  split; [apply sortSteps_perm|]. split.
  - induction steps as [|a l IH]; [constructor|]. apply insertSorted_sorted, IH.
  - intros n. induction steps as [|a l IH]; [reflexivity|].
    change (sortSteps (a :: l)) with (insertSorted a (sortSteps l)).
    rewrite insertSorted_stable. cbn [List.filter]. rewrite IH. reflexivity.
Qed.

(** X16: when [planToMermaid] registers the steps without throwing,
    [sortedSteps] is the concatenation, bucket by bucket with parents before
    children and siblings in order, of each bucket's sorted steps. *)
Theorem steps_listed_bucket_by_bucket plan r :
  planToMermaid plan = Ret r ->
  sortedSteps r =
    flat_map (fun b => sortSteps (bucketSteps b)) (buckets (rootBucket plan)).
Proof. intros H. apply (planToMermaid_Ret plan r H). Qed.

(** *** [dependentsByStepId] *)

Lemma addDependents_spec step ids : forall (m : gmap N (list stepJSON)),
  (forall d, m !! d <> Some []) ->
  (forall d,
     foldl (fun m depId =>
              match m !! depId with
              | None => <[depId := [step]]> m
              | Some l => <[depId := l ++ [step]]> m
              end) m ids !! d <> Some []) /\
  (forall d,
     default [] (foldl (fun m depId =>
                          match m !! depId with
                          | None => <[depId := [step]]> m
                          | Some l => <[depId := l ++ [step]]> m
                          end) m ids !! d) =
     default [] (m !! d) ++ ((fun _ => step) <$> List.filter (N.eqb d) ids)).
Proof.
  induction ids as [|i ids IH]; intros m Hm.
  - simpl. split; [exact Hm|]. intros d. rewrite app_nil_r. reflexivity.
  - cbn [foldl List.filter].
    set (m1 := match m !! i with
               | None => <[i := [step]]> m
               | Some l => <[i := l ++ [step]]> m
               end).
    assert (H1 : forall d, m1 !! d <> Some []).
    { intros d. unfold m1. destruct (m !! i) as [l|] eqn:Hi;
        (destruct (decide (i = d)) as [->|Hne];
         [rewrite lookup_insert_eq|rewrite lookup_insert_ne by exact Hne; apply Hm]).
      - destruct l; discriminate.
      - discriminate. }
    assert (H2 : forall d, default [] (m1 !! d) =
                           default [] (m !! d) ++ (if N.eqb d i then [step] else [])).
    { intros d. unfold m1. destruct (N.eqb_spec d i) as [->|Hne].
      - destruct (m !! i) as [l|] eqn:Hi; rewrite lookup_insert_eq; reflexivity.
      - rewrite app_nil_r.
        destruct (m !! i) as [l|] eqn:Hi; rewrite lookup_insert_ne by congruence;
          reflexivity. }
    destruct (IH m1 H1) as [IH1 IH2]. split; [exact IH1|].
    intros d. rewrite IH2, H2, <- app_assoc. f_equal.
    destruct (N.eqb d i); reflexivity.
Qed.

Lemma foldl_addDependents_spec steps : forall (m : gmap N (list stepJSON)),
  (forall d, m !! d <> Some []) ->
  (forall d, foldl (fun m s => addDependents s m) m steps !! d <> Some []) /\
  (forall d, default [] (foldl (fun m s => addDependents s m) m steps !! d) =
             default [] (m !! d) ++ dependentsOf d steps).
Proof.
  induction steps as [|s steps IH]; intros m Hm.
  - simpl. split; [exact Hm|]. intros d. rewrite app_nil_r. reflexivity.
  - cbn [foldl]. destruct (addDependents_spec s (sj_dependencyIds s) m Hm) as [A1 A2].
    fold (addDependents s m) in A1, A2.
    destruct (IH _ A1) as [B1 B2]. split; [exact B1|].
    intros d. rewrite B2, A2, <- app_assoc. reflexivity.
Qed.

Lemma dependentsOf_nil d steps :
  dependentsOf d steps = [] <-> forall s, s ∈ steps -> d ∉ sj_dependencyIds s.
Proof.
  induction steps as [|s steps IH]; simpl.
  - split; [intros _ s Hs; inversion Hs|reflexivity].
  - split.
    + intros [H1 H2]%app_eq_nil s' Hs'. apply elem_of_cons in Hs' as [->|Hs'].
      * intros Hd. apply fmap_nil_inv in H1.
        assert (In d (List.filter (N.eqb d) (sj_dependencyIds s))).
        { apply filter_In. split; [apply list_elem_of_In, Hd|apply N.eqb_refl]. }
        rewrite H1 in H. destruct H.
      * apply IH; assumption.
    + intros H.
      assert (Hf : List.filter (N.eqb d) (sj_dependencyIds s) = []).
      { destruct (List.filter (N.eqb d) (sj_dependencyIds s)) as [|x l] eqn:Hf;
          [reflexivity|]. exfalso.
        assert (Hin : In x (List.filter (N.eqb d) (sj_dependencyIds s)))
          by (rewrite Hf; left; reflexivity).
        apply filter_In in Hin as [Hin Hx]. apply N.eqb_eq in Hx as <-.
        apply (H s); [constructor|apply list_elem_of_In, Hin]. }
      rewrite Hf. simpl. apply IH. intros s' Hs'. apply H. constructor. exact Hs'.
Qed.

(** X17: [dependentsByStepId] inverts [dependencyIds]: the entry of an id is
    the list of the registered steps that depend on it, in registration
    order and once for each time a step lists it, and an id has no entry
    exactly when no registered step depends on it. *)
Theorem dependents_invert_dependencies plan r depId :
  planToMermaid plan = Ret r ->
  default [] (dependentsByStepId r !! depId) = dependentsOf depId (sortedSteps r)
  /\ (dependentsByStepId r !! depId = None <->
      forall s, s ∈ sortedSteps r -> depId ∉ sj_dependencyIds s).
Proof.
  intros H. destruct (planToMermaid_Ret plan r H) as (E1 & E2 & _).
  destruct (foldl_addDependents_spec (visitOrder (rootBucket plan)) ∅) as [A1 A2].
  { intros d. rewrite lookup_empty. discriminate. }
  specialize (A1 depId). specialize (A2 depId).
  rewrite <- E2, <- E1 in *. rewrite lookup_empty in A2. simpl in A2.
  split; [exact A2|]. rewrite <- dependentsOf_nil, <- A2.
  destruct (dependentsByStepId r !! depId) as [[|x l]|]; simpl.
  - contradiction.
  - split; discriminate.
  - split; reflexivity.
Qed.

(** *** [layerPlanById] *)

Lemma foldl_insert_last bs : forall (m : gmap N bucketJSON) k,
  foldl (fun m b' => <[bucketId b' := b']> m) m bs !! k =
    match last (List.filter (fun b => N.eqb (bucketId b) k) bs) with
    | Some b => Some b
    | None => m !! k
    end.
Proof.
  induction bs as [|b bs IH]; intros m k; [reflexivity|].
  cbn [foldl List.filter]. rewrite IH.
  destruct (N.eqb_spec (bucketId b) k) as [Hk|Hk].
  - rewrite last_cons. destruct (last (List.filter _ bs)); [reflexivity|].
    rewrite <- Hk. apply lookup_insert_eq.
  - destruct (last _); [reflexivity|]. apply lookup_insert_ne, Hk.
Qed.

Lemma filter_NoDup_single {A} (f : A -> N) l x :
  NoDup (f <$> l) -> x ∈ l ->
  List.filter (fun y => N.eqb (f y) (f x)) l = [x].
Proof.
  induction l as [|y l IH]; intros Hnd Hx; [inversion Hx|].
  rewrite fmap_cons in Hnd. apply NoDup_cons in Hnd as [Hy Hnd].
  cbn [List.filter]. apply elem_of_cons in Hx as [->|Hx].
  - rewrite N.eqb_refl. f_equal.
    destruct (List.filter _ l) as [|z l'] eqn:Hf; [reflexivity|]. exfalso.
    assert (Hin : In z (List.filter (fun y0 => N.eqb (f y0) (f y)) l))
      by (rewrite Hf; left; reflexivity).
    apply filter_In in Hin as [Hin Hz]. apply N.eqb_eq in Hz.
    apply Hy. rewrite <- Hz. apply list_elem_of_fmap. exists z.
    split; [reflexivity|apply list_elem_of_In, Hin].
  - destruct (N.eqb_spec (f y) (f x)) as [Heq|Hne]; [|apply IH; assumption].
    exfalso. apply Hy. rewrite Heq. apply list_elem_of_fmap. exists x. auto.
Qed.

(** X18: [layerPlanById] maps an id to the last bucket of the tree, in
    visiting order, that has this id; when bucket ids are distinct every
    bucket of the tree is found under its id. *)
Theorem buckets_registered_by_id plan r :
  planToMermaid plan = Ret r ->
  (forall k,
     layerPlanById r !! k =
       last (List.filter (fun b => N.eqb (bucketId b) k) (buckets (rootBucket plan))))
  /\ (NoDup (bucketId <$> buckets (rootBucket plan)) ->
      forall b, b ∈ buckets (rootBucket plan) -> layerPlanById r !! bucketId b = Some b).
Proof.
  intros H. destruct (planToMermaid_Ret plan r H) as (_ & _ & E3).
  assert (Hk : forall k,
     layerPlanById r !! k =
       last (List.filter (fun b => N.eqb (bucketId b) k) (buckets (rootBucket plan)))).
  { intros k. rewrite E3, foldl_insert_last, lookup_empty.
    destruct (last _); reflexivity. }
  split; [exact Hk|]. intros Hnd b Hb.
  rewrite Hk, (filter_NoDup_single bucketId _ b Hnd Hb). reflexivity.
Qed.

Lemma steps_listed_bucket_by_bucket_witness :
  exists r,
    planToMermaid
      (mkPlanJSON "v1"
         (BucketJSON 0 [mkStepJSON 1 "ConstantStep" "0" [];
                        mkStepJSON 2 "AccessStep" "1.a" [1%N]]
            [BucketJSON 1 [mkStepJSON 3 "LambdaStep" "x" [1%N; 2%N]] []])) = Ret r /\
    sortedSteps r =
      [mkStepJSON 2 "AccessStep" "1.a" [1%N]; mkStepJSON 1 "ConstantStep" "0" [];
       mkStepJSON 3 "LambdaStep" "x" [1%N; 2%N]].
Proof.
  pose (plan := mkPlanJSON "v1"
         (BucketJSON 0 [mkStepJSON 1 "ConstantStep" "0" [];
                        mkStepJSON 2 "AccessStep" "1.a" [1%N]]
            [BucketJSON 1 [mkStepJSON 3 "LambdaStep" "x" [1%N; 2%N]] []])).
  pose (r := match planToMermaid plan with Ret a => a | Throw _ => emptyRegistry end).
  assert (Hr : planToMermaid plan = Ret r) by reflexivity.
  exists r. split; [exact Hr|].
  exact (steps_listed_bucket_by_bucket plan r Hr).
Defined.

Lemma dependents_invert_dependencies_witness :
  exists r,
    planToMermaid
      (mkPlanJSON "v1"
         (BucketJSON 0 [mkStepJSON 1 "ConstantStep" "0" [];
                        mkStepJSON 2 "AccessStep" "1.a" [1%N]]
            [BucketJSON 1 [mkStepJSON 3 "LambdaStep" "x" [1%N; 2%N]] []])) = Ret r /\
    default [] (dependentsByStepId r !! 1%N) = dependentsOf 1%N (sortedSteps r) /\
    (dependentsByStepId r !! 3%N = None <->
     forall s, s ∈ sortedSteps r -> 3%N ∉ sj_dependencyIds s).
Proof.
  pose (plan := mkPlanJSON "v1"
         (BucketJSON 0 [mkStepJSON 1 "ConstantStep" "0" [];
                        mkStepJSON 2 "AccessStep" "1.a" [1%N]]
            [BucketJSON 1 [mkStepJSON 3 "LambdaStep" "x" [1%N; 2%N]] []])).
  pose (r := match planToMermaid plan with Ret a => a | Throw _ => emptyRegistry end).
  assert (Hr : planToMermaid plan = Ret r) by reflexivity.
  exists r. split; [exact Hr|]. split.
  - exact (proj1 (dependents_invert_dependencies plan r 1%N Hr)).
  - exact (proj2 (dependents_invert_dependencies plan r 3%N Hr)).
Defined.

Lemma buckets_registered_by_id_witness :
  exists r,
    planToMermaid
      (mkPlanJSON "v1"
         (BucketJSON 0 [mkStepJSON 1 "ConstantStep" "0" []]
            [BucketJSON 1 [mkStepJSON 3 "LambdaStep" "x" [1%N]] []])) = Ret r /\
    layerPlanById r !! 1%N = Some (BucketJSON 1 [mkStepJSON 3 "LambdaStep" "x" [1%N]] []).
Proof.
  pose (plan := mkPlanJSON "v1"
         (BucketJSON 0 [mkStepJSON 1 "ConstantStep" "0" []]
            [BucketJSON 1 [mkStepJSON 3 "LambdaStep" "x" [1%N]] []])).
  pose (r := match planToMermaid plan with Ret a => a | Throw _ => emptyRegistry end).
  assert (Hr : planToMermaid plan = Ret r) by reflexivity.
  exists r. split; [exact Hr|].
  refine (proj2 (buckets_registered_by_id plan r Hr) _
                (BucketJSON 1 [mkStepJSON 3 "LambdaStep" "x" [1%N]] []) _).
  - simpl. apply NoDup_cons. split; [|apply NoDup_singleton].
    intros Hin. apply list_elem_of_singleton in Hin. discriminate.
  - simpl. apply elem_of_cons. right. constructor.
Defined.

(** ** Text helpers of the renderer *)

(** X19: [color] never reads outside [COLORS]: every bucket id gets one of
    the 17 colours, and ids that differ by 17 get the same one. *)
Theorem color_defined_and_periodic i :
  (exists c, color i = Some c /\ c ∈ COLORS)
  /\ color (i + 17) = color i.
Proof.
  unfold color.
  assert (Hlen : length COLORS = 17) by reflexivity.
  rewrite Hlen. split.
  - assert (Hlt : N.to_nat (i mod N.of_nat 17) < length COLORS).
    { rewrite Hlen. pose proof (N.mod_upper_bound i (N.of_nat 17)). lia. }
    destruct (lookup_lt_is_Some_2 _ _ Hlt) as [c Hc]. exists c. split; [exact Hc|].
    eapply list_elem_of_lookup_2, Hc.
  - f_equal. f_equal. change (N.of_nat 17) with 17%N.
    replace (i + 17)%N with (i + 1 * 17)%N by lia. apply N.Div0.mod_add.
Qed.

(** *** [squish] *)

Lemma length_append (a b : string) :
  String.length (a +:+ b) = String.length a + String.length b.
Proof.
  induction a as [|c a IH]; [reflexivity|].
  rewrite append_cons. simpl. rewrite IH. reflexivity.
Qed.

Lemma length_sliceTo n : forall str,
  String.length (sliceTo n str) = Nat.min n (String.length str).
Proof.
  induction n as [|n IH]; intros [|c str]; simpl; try reflexivity.
  rewrite IH. reflexivity.
Qed.

Lemma length_sliceFrom n : forall str,
  String.length (sliceFrom n str) = String.length str - n.
Proof.
  induction n as [|n IH]; intros [|c str]; simpl; try reflexivity.
  apply IH.
Qed.

Lemma sliceTo_append n : forall a b,
  n <= String.length a -> sliceTo n (a +:+ b) = sliceTo n a.
Proof.
  induction n as [|n IH]; intros a b Hn; [reflexivity|].
  destruct a as [|c a]; simpl in Hn; [lia|].
  rewrite append_cons. simpl. rewrite IH by lia. reflexivity.
Qed.

Lemma sliceTo_all n : forall a, String.length a <= n -> sliceTo n a = a.
Proof.
  induction n as [|n IH]; intros [|c a] Hn; simpl in *; try reflexivity; try lia.
  rewrite IH by lia. reflexivity.
Qed.

Lemma sliceFrom_append n : forall a b,
  String.length a = n -> sliceFrom n (a +:+ b) = b.
Proof.
  induction n as [|n IH]; intros [|c a] b Hn; simpl in Hn; try discriminate.
  - rewrite append_nil. reflexivity.
  - rewrite append_cons. simpl. apply IH. lia.
Qed.

(** X20: [squish] never lengthens a string and returns at most
    [start + end + 4] characters; squishing twice is squishing once; a string
    longer than [start + end + 4] becomes its first [start] characters, three
    dots and its last [end] characters. *)
Theorem squish_shortens str start end_ :
  String.length (squish str start end_) <= String.length str
  /\ String.length (squish str start end_) <= start + end_ + 4
  /\ squish (squish str start end_) start end_ = squish str start end_
  /\ (start + end_ + 4 < String.length str ->
      String.length (squish str start end_) = start + end_ + 3 /\
      sliceTo start (squish str start end_) = sliceTo start str /\
      sliceFrom (start + 3) (squish str start end_) =
        sliceFrom (String.length str - end_) str).
Proof.
  destruct (Nat.ltb_spec (start + end_ + 4) (String.length str)) as [Hlt|Hge].
  - assert (Hsq : squish str start end_ =
                  sliceTo start str +:+ "..." +:+
                  sliceFrom (String.length str - end_) str).
    { unfold squish. destruct (Nat.ltb_spec (start + end_ + 4) (String.length str));
        [reflexivity|lia]. }
    assert (Hlen : String.length (squish str start end_) = start + end_ + 3).
    { rewrite Hsq, !length_append, length_sliceTo, length_sliceFrom. simpl. lia. }
    assert (Hs : String.length (sliceTo start str) = start)
      by (rewrite length_sliceTo; lia).
    split; [lia|]. split; [lia|]. split.
    + unfold squish at 1. rewrite Hlen.
      destruct (Nat.ltb_spec (start + end_ + 4) (start + end_ + 3)); [lia|reflexivity].
    + intros _. split; [exact Hlen|]. rewrite Hsq. split.
      * rewrite sliceTo_append by lia. apply sliceTo_all. lia.
      * rewrite <- string_app_assoc. apply sliceFrom_append.
        rewrite length_append, Hs. reflexivity.
  - assert (Hsq : squish str start end_ = str).
    { unfold squish. destruct (Nat.ltb_spec (start + end_ + 4) (String.length str));
        [lia|reflexivity]. }
    rewrite !Hsq. split; [lia|]. split; [lia|]. split; [reflexivity|lia].
Qed.

Lemma squish_shortens_witness :
  String.length (squish "PgSelect<users+1>[very long]" 8 8) = 8 + 8 + 3 /\
  sliceTo 8 (squish "PgSelect<users+1>[very long]" 8 8) =
    sliceTo 8 "PgSelect<users+1>[very long]" /\
  sliceFrom (8 + 3) (squish "PgSelect<users+1>[very long]" 8 8) =
    sliceFrom (String.length "PgSelect<users+1>[very long]" - 8)
              "PgSelect<users+1>[very long]".
Proof.
  apply (proj2 (proj2 (proj2 (squish_shortens "PgSelect<users+1>[very long]" 8 8)))).
  simpl. lia.
Defined.

(** *** [mermaidEscape] *)

Lemma lookalike_clean c : lookalike c ∉ [35; 34; 60; 62]%N.
Proof.
  unfold lookalike.
  destruct (N.eqb_spec c 35); [|destruct (N.eqb_spec c 34);
    [|destruct (N.eqb_spec c 60); [|destruct (N.eqb_spec c 62)]]];
    rewrite !elem_of_cons, elem_of_nil; lia.
Qed.

Lemma lineBreaks_pieces n : forall str,
  length str <= n ->
  Forall (fun c => c ∉ [35; 34; 60; 62]%N) str ->
  exists pieces, lineBreaks str = concat pieces /\ Forall isPiece pieces.
Proof.
  induction n as [|n IH]; intros str Hn Hok.
  - destruct str; [|simpl in Hn; lia]. exists []. split; [reflexivity|constructor].
  - destruct str as [|c rest]; [exists []; split; [reflexivity|constructor]|].
    simpl in Hn. apply Forall_cons in Hok as [Hc Hrest].
    assert (Hone : c <> 10%N -> isPiece [c]).
    { intros Hne. right. exists c. split; [reflexivity|].
      rewrite !elem_of_cons, elem_of_nil in *. lia. }
    cbn [lineBreaks]. destruct (N.eqb_spec c 10) as [->|H10].
    + destruct (IH rest ltac:(lia) Hrest) as (ps & -> & Hps).
      exists (br :: ps). split; [reflexivity|]. constructor; [left; reflexivity|exact Hps].
    + destruct (N.eqb_spec c 13) as [->|H13].
      * destruct rest as [|c' rest'].
        -- exists [[13%N]]. split; [reflexivity|]. constructor; [auto|constructor].
        -- apply Forall_cons in Hrest as Hrest2. destruct Hrest2 as [Hc' Hrest'].
           simpl in Hn. destruct (N.eqb_spec c' 10) as [->|H10'].
           ++ destruct (IH rest' ltac:(lia) Hrest') as (ps & -> & Hps).
              exists (br :: ps). split; [reflexivity|].
              constructor; [left; reflexivity|exact Hps].
           ++ destruct (IH (c' :: rest') ltac:(simpl; lia) Hrest) as (ps & -> & Hps).
              exists ([13%N] :: ps). split; [reflexivity|].
              constructor; [auto|exact Hps].
      * destruct (IH rest ltac:(lia) Hrest) as (ps & -> & Hps).
        exists ([c] :: ps). split; [reflexivity|]. constructor; [auto|exact Hps].
Qed.

Lemma pieces_clean pieces c :
  Forall isPiece pieces -> c ∈ concat pieces -> c ∉ [35; 34; 10]%N.
Proof.
  induction 1 as [|p ps Hp _ IH]; simpl; [intros H; inversion H|].
  intros [Hc|Hc]%elem_of_app; [|exact (IH Hc)].
  destruct Hp as [->|(c' & -> & Hc')].
  - unfold br in Hc. rewrite !elem_of_cons, elem_of_nil in *. lia.
  - apply list_elem_of_singleton in Hc as ->.
    rewrite !elem_of_cons, elem_of_nil in *. lia.
Qed.

(** X21: [mermaidEscape] returns a string of ASCII letters, digits and
    spaces unchanged; every other string becomes a double-quoted label whose
    content is made of line breaks [<br />] and of code units that are
    neither a number sign, a double quote, an angle bracket nor a line feed,
    whatever [stripAnsi] returns. *)
Theorem mermaidEscape_label stripAnsi str :
  (matchesSafe str = true -> mermaidEscape stripAnsi str = str)
  /\ (matchesSafe str = false ->
      exists pieces,
        mermaidEscape stripAnsi str = [34%N] ++ concat pieces ++ [34%N] /\
        Forall isPiece pieces /\
        forall c, c ∈ concat pieces -> c ∉ [35; 34; 10]%N).
Proof.
  unfold mermaidEscape. split; intros ->; [reflexivity|].
  destruct (lineBreaks_pieces _ (lookalike <$> stripAnsi (trim str)) (le_n _))
    as (ps & -> & Hps).
  { apply Forall_fmap, Forall_forall. intros c _. apply lookalike_clean. }
  exists ps. split; [reflexivity|]. split; [exact Hps|].
  intros c. apply pieces_clean, Hps.
Qed.

Lemma mermaidEscape_label_witness :
  mermaidEscape (fun s => s) [65; 99; 99; 101; 115; 115; 32; 49]%N
    = [65; 99; 99; 101; 115; 115; 32; 49]%N
  /\ exists pieces,
       mermaidEscape (fun s => s) [32; 60; 97; 35; 34; 13; 10; 98; 62; 10]%N
         = [34%N] ++ concat pieces ++ [34%N] /\
       Forall isPiece pieces /\
       forall c, c ∈ concat pieces -> c ∉ [35; 34; 10]%N.
Proof.
  split.
  - apply (proj1 (mermaidEscape_label (fun s => s) [65; 99; 99; 101; 115; 115; 32; 49]%N)).
    reflexivity.
  - apply (proj2 (mermaidEscape_label (fun s => s)
                    [32; 60; 97; 35; 34; 13; 10; 98; 62; 10]%N)).
    reflexivity.
Defined.

Lemma length_joinStrings_le sep (l1 : list string) : forall l2,
  Forall2 (fun a b => String.length a <= String.length b) l1 l2 ->
  String.length (joinStrings sep l1) <= String.length (joinStrings sep l2).
Proof.
  induction l1 as [|a l1 IH]; intros l2 H; inversion H as [|? b ? l2' Hab Hrest]; subst.
  - reflexivity.
  - specialize (IH _ Hrest).
    destruct l1 as [|a2 l1]; inversion Hrest as [|? b2 ? l2'' ? ?]; subst.
    + exact Hab.
    + change (String.length (a +:+ sep +:+ joinStrings sep (a2 :: l1)) <=
              String.length (b +:+ sep +:+ joinStrings sep (b2 :: l2''))).
      rewrite !length_append. lia.
Qed.

(** X22: [shortSteps] gives the empty string for [undefined]; its result is
    never longer than the list of short step names, and it is shorter than
    40 characters or is the list of the bare step ids. *)
Theorem shortSteps_is_short steps :
  shortSteps None = EmptyString
  /\ String.length (shortSteps (Some steps)) <=
       String.length (joinStrings ", " (shortStep <$> steps))
  /\ (String.length (shortSteps (Some steps)) < 40 \/
      shortSteps (Some steps) =
        joinStrings ", " ((fun s => pretty (sj_id s)) <$> steps)).
Proof.
  split; [reflexivity|]. unfold shortSteps.
  destruct (Nat.ltb_spec (String.length (joinStrings ", " (shortStep <$> steps))) 40)
    as [Hlt|Hge].
  - split; [reflexivity|left; exact Hlt].
  - split; [|right; reflexivity].
    apply length_joinStrings_le. apply Forall2_fmap, Forall_Forall2_diag, Forall_forall.
    intros s _. unfold shortStep. rewrite !length_append. lia.
Qed.

(** X23: the class name shown for a step: a name that ends in [Step] is
    shown without this suffix, so [X] followed by [Step] is shown as [X];
    any other name is shown unchanged; the shown name is never longer. *)
Theorem withoutStepSuffix_removes_the_suffix name :
  withoutStepSuffix (name +:+ "Step") = name
  /\ String.length (withoutStepSuffix name) <= String.length name
  /\ (withoutStepSuffix name = name \/ withoutStepSuffix name +:+ "Step" = name).
Proof.
  split; [|split].
  - unfold withoutStepSuffix. rewrite length_append. simpl.
    replace (String.length name + 4 - 4) with (String.length name) by lia.
    rewrite sliceFrom_append by reflexivity. simpl.
    rewrite sliceTo_append by lia. apply sliceTo_all. lia.
  - unfold withoutStepSuffix. destruct (String.eqb _ _); [|lia].
    rewrite length_sliceTo. lia.
  - unfold withoutStepSuffix.
    destruct (String.eqb_spec (sliceFrom (String.length name - 4) name) "Step")
      as [He|He]; [right|left; reflexivity].
    rewrite <- He. clear He. generalize (String.length name - 4). intros n.
    revert name. induction n as [|n IH]; intros name; [reflexivity|].
    destruct name as [|c name]; [reflexivity|]. simpl. rewrite append_cons, IH.
    reflexivity.
Qed.
